(** * MealPlan backend ([meal_plan.py]): a shallow embedding and its properties

    The program is a Flask application with three request handlers
    ([extract_items], [generate_meal_plan], [generate_recipe]) and one helper
    ([calculate_days_to_expiry]).  The handlers are embedded as functions
    into a small trace-and-exception monad; the library functions they
    call ([datetime.strptime], [str.strip], [re.sub], [json.loads],
    [ast.literal_eval], [jsonify]) are embedded after CPython's
    implementation, over Python strings seen as lists of code points. *)

From Stdlib Require Import String Ascii List ZArith NArith Bool Lia.
Import ListNotations.

Set Implicit Arguments.
Set Warnings "-register-all".

(** ** Python strings *)

(** A Python [str] is a sequence of Unicode code points. *)
Definition char := N.
Definition str := list char.

(** [u "abc"] is the Python string written with ASCII characters. *)
Definition u (s : string) : str := map N_of_ascii (list_ascii_of_string s).

Definition ch (a : ascii) : char := N_of_ascii a.

Definition str_eqb (a b : str) : bool :=
  if list_eq_dec N.eq_dec a b then true else false.

Definition is_ascii (c : char) : bool := (c <? 128)%N.
Definition is_digit (c : char) : bool := ((48 <=? c) && (c <=? 57))%N.
Definition digit_val (c : char) : Z := Z.of_N c - 48.

(** Decimal rendering of a natural number ([str(n)] for [n >= 0]). *)
Fixpoint dec_digits (fuel : nat) (n : N) (acc : str) : str :=
  match fuel with
  | O => acc
  | S f =>
      let acc' := (48 + n mod 10)%N :: acc in
      if (n <? 10)%N then acc' else dec_digits f (n / 10)%N acc'
  end.

Definition str_of_N (n : N) : str := dec_digits (S (N.to_nat (N.log2 n))) n [].

Definition str_of_Z (z : Z) : str :=
  if (z <? 0)%Z then ch "-" :: str_of_N (Z.to_N (- z)) else str_of_N (Z.to_N z).

(** ** Exceptions and results *)

(** The exception classes the program can meet; all of them derive from
    [Exception], so [except Exception] catches each one.  [OtherError] stands
    for any other [Exception] subclass, named by its class name (the OCR and
    model clients raise their own). *)
Inductive exc_class :=
| ValueError | TypeError | AttributeError | SyntaxError | JSONDecodeError
| OtherError (name : str).

(** An exception object: its class and the text [str(e)]. *)
Record exn := Exn { exn_class : exc_class; exn_text : str }.

(** The result of running a piece of Python: a value, a raised exception, or
    [Unmodelled] where the embedding does not say what CPython does (inputs
    outside the modelled fragment of a library function). *)
Inductive result (A : Type) :=
| Ok (a : A)
| Raise (e : exn)
| Unmodelled.
Arguments Ok {A} a.
Arguments Raise {A} e.
Arguments Unmodelled {A}.

Definition rbind {A B} (r : result A) (f : A -> result B) : result B :=
  match r with
  | Ok a => f a
  | Raise e => Raise e
  | Unmodelled => Unmodelled
  end.

Declare Scope res_scope.
Delimit Scope res_scope with res.
Notation "x <- r ;; k" := (rbind r (fun x => k))
  (at level 61, r at next level, right associativity) : res_scope.
Notation "' p <- r ;; k" := (rbind r (fun p => k))
  (at level 61, p pattern, r at next level, right associativity) : res_scope.

(** ** Python values *)

(** The values that flow through the handlers.  A [dict] is kept as its list
    of items in insertion order; only string keys occur (JSON objects, the
    keyword dictionaries given to the chains).  A [float] is kept as the text
    it was read from. *)
Inductive pyval :=
| PNone
| PBool (b : bool)
| PInt (z : Z)
| PFloat (lit : str)
| PStr (s : str)
| PList (l : list pyval)
| PTuple (l : list pyval)
| PDict (items : list (str * pyval))
| PSet (l : list pyval).

(** [type(v).__name__] *)
Definition type_name (v : pyval) : str :=
  match v with
  | PNone => u "NoneType"
  | PBool _ => u "bool"
  | PInt _ => u "int"
  | PFloat _ => u "float"
  | PStr _ => u "str"
  | PList _ => u "list"
  | PTuple _ => u "tuple"
  | PDict _ => u "dict"
  | PSet _ => u "set"
  end.

(** *** Dictionaries *)

Definition dict (V : Type) := list (str * V).

Fixpoint dict_get {V} (d : dict V) (k : str) : option V :=
  match d with
  | [] => None
  | (k', v) :: d' => if str_eqb k' k then Some v else dict_get d' k
  end.

(** [d[k] = v]: an existing key keeps its place, a new one goes last. *)
Fixpoint dict_set {V} (d : dict V) (k : str) (v : V) : dict V :=
  match d with
  | [] => [(k, v)]
  | (k', v') :: d' =>
      if str_eqb k' k then (k', v) :: d' else (k', v') :: dict_set d' k v
  end.

Definition dict_keys {V} (d : dict V) : list str := map fst d.

(** The keys of a dictionary are pairwise distinct. *)
Definition dict_wf {V} (d : dict V) : Prop := NoDup (dict_keys d).

Definition dict_of_items {V} (items : list (str * V)) : dict V :=
  fold_left (fun d kv => dict_set d (fst kv) (snd kv)) items [].

(** [AttributeError] of a missing method. *)
Definition no_attribute (v : pyval) (attr : str) : exn :=
  Exn AttributeError
    (u "'" ++ type_name v ++ u "' object has no attribute '" ++ attr ++ u "'").

(** ** Dates ([datetime.date]) *)

Local Open Scope Z_scope.

Record date := Date { year : Z; month : Z; day : Z }.

(** [_is_leap], [_days_in_month], [_days_before_year], [_days_before_month]
    and [_ymd2ord] of CPython's [datetime]. *)
Definition is_leap (y : Z) : bool :=
  (y mod 4 =? 0) && (negb (y mod 100 =? 0) || (y mod 400 =? 0)).

Definition DAYS_IN_MONTH : list Z :=
  [-1; 31; 28; 31; 30; 31; 30; 31; 31; 30; 31; 30; 31].

Definition DAYS_BEFORE_MONTH : list Z :=
  [-1; 0; 31; 59; 90; 120; 151; 181; 212; 243; 273; 304; 334].

Definition days_in_month (y m : Z) : Z :=
  if (m =? 2) && is_leap y then 29 else nth (Z.to_nat m) DAYS_IN_MONTH 0.

Definition days_before_year (y : Z) : Z :=
  let y := y - 1 in y * 365 + y / 4 - y / 100 + y / 400.

Definition days_before_month (y m : Z) : Z :=
  nth (Z.to_nat m) DAYS_BEFORE_MONTH 0
  + (if (m >? 2) && is_leap y then 1 else 0).

Definition ymd2ord (y m d : Z) : Z :=
  days_before_year y + days_before_month y m + d.

Definition toordinal (dt : date) : Z := ymd2ord (year dt) (month dt) (day dt).

(** [date(y, m, d)] accepts exactly these fields. *)
Definition valid_date (dt : date) : Prop :=
  1 <= year dt <= 9999 /\ 1 <= month dt <= 12
  /\ 1 <= day dt <= days_in_month (year dt) (month dt).

(** The constructor [date(y, m, d)] with its range checks, in their order. *)
Definition new_date (y m d : Z) : result date :=
  if negb ((1 <=? y) && (y <=? 9999)) then
    Raise (Exn ValueError (u "year " ++ str_of_Z y ++ u " is out of range"))
  else if negb ((1 <=? m) && (m <=? 12)) then
    Raise (Exn ValueError (u "month must be in 1..12"))
  else if negb ((1 <=? d) && (d <=? days_in_month y m)) then
    Raise (Exn ValueError (u "day is out of range for month"))
  else Ok (Date y m d).

(** [(a - b).days] for two dates. *)
Definition days_between (a b : date) : Z := toordinal a - toordinal b.

(** Calendar order on dates. *)
Definition date_lt (a b : date) : Prop :=
  year a < year b
  \/ (year a = year b /\ (month a < month b
                          \/ (month a = month b /\ day a < day b))).

(** [date.isoformat()]: [YYYY-MM-DD], zero padded. *)
Definition dig (n : Z) : char := Z.to_N (48 + n mod 10).

Definition two_digits (n : Z) : str := [dig (n / 10); dig n].

Definition four_digits (n : Z) : str :=
  [dig (n / 1000); dig (n / 100); dig (n / 10); dig n].

Definition isoformat (dt : date) : str :=
  four_digits (year dt) ++ ch "-" :: two_digits (month dt)
  ++ ch "-" :: two_digits (day dt).

(** ** [repr] of a string

    Quote choice and escapes as [unicode_repr] does them.  Code points from
    128 on are copied (right for the printable ones); the program only takes
    the [repr] of ASCII strings. *)
Definition hex_digit (n : N) : char :=
  (if n <? 10 then 48 + n else 87 + n)%N.

Definition repr_char (quote : char) (c : char) : str :=
  if (c =? quote)%N || (c =? 92)%N then [92%N; c]
  else if (c =? 9)%N then u "\t"
  else if (c =? 10)%N then u "\n"
  else if (c =? 13)%N then u "\r"
  else if (c <? 32)%N || (c =? 127)%N then
    [92%N; ch "x"; hex_digit (c / 16); hex_digit (c mod 16)]
  else [c].

Definition py_repr (s : str) : str :=
  let quote :=
    if existsb (N.eqb 39) s && negb (existsb (N.eqb 34) s) then 34%N else 39%N in
  quote :: flat_map (repr_char quote) s ++ [quote].

(** ** [datetime.strptime(s, "%Y-%m-%d")]

    [_strptime] turns the format into the regular expression
    [(?P<Y>\d\d\d\d)-(?P<m>1[0-2]|0[1-9]|[1-9])-(?P<d>3[0-1]|[1-2]\d|0[1-9]|[1-9]| [1-9])]
    and matches it at the start of the string; alternatives are tried from
    left to right, with backtracking. *)

Definition in_range (lo hi : ascii) (c : char) : bool :=
  ((ch lo <=? c) && (c <=? ch hi))%N.

Definition is_char (a : ascii) (c : char) : bool := (c =? ch a)%N.

Definition matcher := str -> option (Z * str).

Definition two_chars (p1 p2 : char -> bool) : matcher := fun s =>
  match s with
  | a :: b :: r =>
      if p1 a && p2 b then Some (10 * digit_val a + digit_val b, r) else None
  | _ => None
  end.

Definition one_char (p : char -> bool) : matcher := fun s =>
  match s with
  | a :: r => if p a then Some (digit_val a, r) else None
  | _ => None
  end.

Definition space_then (p : char -> bool) : matcher := fun s =>
  match s with
  | a :: b :: r => if is_char " " a && p b then Some (digit_val b, r) else None
  | _ => None
  end.

Definition match_Y : matcher := fun s =>
  match s with
  | a :: b :: c :: d :: r =>
      if is_digit a && is_digit b && is_digit c && is_digit d
      then Some (1000 * digit_val a + 100 * digit_val b
                 + 10 * digit_val c + digit_val d, r)
      else None
  | _ => None
  end.

Definition month_alts : list matcher :=
  [ two_chars (is_char "1") (in_range "0" "2");
    two_chars (is_char "0") (in_range "1" "9");
    one_char (in_range "1" "9") ].

Definition day_alts : list matcher :=
  [ two_chars (is_char "3") (in_range "0" "1");
    two_chars (in_range "1" "2") is_digit;
    two_chars (is_char "0") (in_range "1" "9");
    one_char (in_range "1" "9");
    space_then (in_range "1" "9") ].

(** An alternation followed by the rest of the pattern [k]: the first
    alternative after which the rest matches wins. *)
Fixpoint try_alts {B} (alts : list matcher) (s : str)
    (k : Z -> str -> option B) : option B :=
  match alts with
  | [] => None
  | alt :: alts' =>
      match (match alt s with Some (a, r) => k a r | None => None end) with
      | Some b => Some b
      | None => try_alts alts' s k
      end
  end.

Definition literal {B} (a : ascii) (s : str) (k : str -> option B) : option B :=
  match s with
  | c :: r => if is_char a c then k r else None
  | [] => None
  end.

(** The match of the whole pattern: the three groups and the text left. *)
Definition match_format (s : str) : option (Z * Z * Z * str) :=
  match match_Y s with
  | None => None
  | Some (y, s1) =>
      literal "-" s1 (fun s2 =>
      try_alts month_alts s2 (fun m s3 =>
      literal "-" s3 (fun s4 =>
      try_alts day_alts s4 (fun d s5 => Some (y, m, d, s5)))))
  end.

(** [datetime.strptime(data_string, "%Y-%m-%d").date()].  In a string
    pattern [\d] also matches the decimal digits of other scripts, which the
    embedding leaves out: a string with a code point from 128 on is
    [Unmodelled]. *)
Definition strptime (data_string : pyval) : result date :=
  match data_string with
  | PStr s =>
      if forallb is_ascii s then
        match match_format s with
        | None =>
            Raise (Exn ValueError
                     (u "time data " ++ py_repr s
                      ++ u " does not match format '%Y-%m-%d'"))
        | Some (y, m, d, rest) =>
            match rest with
            | _ :: _ =>
                Raise (Exn ValueError (u "unconverted data remains: " ++ rest))
            | [] => new_date y m d
            end
        end
      else Unmodelled
  | v =>
      Raise (Exn TypeError
               (u "strptime() argument 1 must be str, not " ++ type_name v))
  end.

(** ** [calculate_days_to_expiry]

    [today] is [datetime.today().date()], read by the caller's clock. *)
Local Open Scope res_scope.

(** The dictionary comprehension
    [{item: (strptime(date) - today).days for item, date in items}]. *)
Fixpoint days_comprehension (today : date) (items : list (str * pyval))
    (acc : dict pyval) : result (dict pyval) :=
  match items with
  | [] => Ok acc
  | (item, date) :: rest =>
      d <- strptime date ;;
      days_comprehension today rest
        (dict_set acc item (PInt (days_between d today)))
  end.

Definition calculate_days_to_expiry (today : date) (expiry_dates : pyval)
    : result pyval :=
  match expiry_dates with
  | PDict items =>
      d <- days_comprehension today items [] ;; Ok (PDict d)
  | v => Raise (no_attribute v (u "items"))
  end.


(** *** The date texts [strptime] accepts, in the specification's terms

    A four-digit year, a month in one or two digits, a day in one or two
    digits or a space and one digit, separated by hyphens, that name a date
    of the calendar.  [isoformat] writes the zero-padded ones. *)
Definition month_text (ms : str) (m : Z) : Prop :=
  1 <= m <= 12 /\ (ms = two_digits m \/ (m <= 9 /\ ms = [dig m])).

Definition day_text (ds : str) (d : Z) : Prop :=
  1 <= d <= 31
  /\ (ds = two_digits d \/ (d <= 9 /\ (ds = [dig d] \/ ds = [32%N; dig d]))).

Definition lenient_date_text (s : str) (dt : date) : Prop :=
  valid_date dt
  /\ exists ms ds,
       s = four_digits (year dt) ++ ch "-" :: ms ++ ch "-" :: ds
       /\ month_text ms (month dt) /\ day_text ds (day dt).


(** ** [str.strip] *)

(** [str.isspace] of one code point ([_PyUnicode_IsWhitespace]). *)
Definition py_isspace (c : char) : bool :=
  (((9 <=? c) && (c <=? 13)) || ((28 <=? c) && (c <=? 32))
   || (c =? 133) || (c =? 160) || (c =? 5760)
   || ((8192 <=? c) && (c <=? 8202))
   || (c =? 8232) || (c =? 8233) || (c =? 8239) || (c =? 8287)
   || (c =? 12288))%N.

Fixpoint dropwhile (p : char -> bool) (s : str) : str :=
  match s with
  | c :: r => if p c then dropwhile p r else s
  | [] => []
  end.

Definition lstrip_by (p : char -> bool) (s : str) : str := dropwhile p s.
Definition rstrip_by (p : char -> bool) (s : str) : str :=
  rev (dropwhile p (rev s)).
Definition strip_by (p : char -> bool) (s : str) : str :=
  rstrip_by p (lstrip_by p s).

(** The first and the last character of [b] fail [p]. *)
Definition edges (p : char -> bool) (b : str) : Prop :=
  (forall c r, b = c :: r -> p c = false)
  /\ (forall r c, b = r ++ [c] -> p c = false).

(** [s.strip()] *)
Definition py_strip (s : str) : str := strip_by py_isspace s.

(** [s.strip(chars)] and [s.lstrip(chars)] *)
Definition mem_char (chars : str) (c : char) : bool := existsb (N.eqb c) chars.
Definition strip_chars (chars : str) (s : str) : str :=
  strip_by (mem_char chars) s.
Definition lstrip_chars (chars : str) (s : str) : str :=
  lstrip_by (mem_char chars) s.

(** ** [re.sub(r'^```json|```$', '', s, flags=re.IGNORECASE)] *)

Definition ascii_lower (c : char) : char :=
  (if (65 <=? c) && (c <=? 90) then c + 32 else c)%N.

(** Whether the code point [c] matches the pattern letter [p] under
    [re.IGNORECASE]: equal lower cases, or one of the pairs of the engine's
    equivalence table that touch an ASCII letter (the long s U+017F for [s],
    the Kelvin sign U+212A for [k]). *)
Definition matches_ignorecase (p c : char) : bool :=
  ((ascii_lower c =? ascii_lower p)
   || ((ascii_lower p =? 115) && (c =? 383))
   || ((ascii_lower p =? 107) && (c =? 8490)))%N.

(** The text after a case-insensitive match of the literal [pat] at the start
    of [s]. *)
Fixpoint match_literal_ci (pat s : str) : option str :=
  match pat, s with
  | [], _ => Some s
  | p :: pat', c :: s' =>
      if matches_ignorecase p c then match_literal_ci pat' s' else None
  | _ :: _, [] => None
  end.

Definition fence_json : str := u "```json".
Definition backtick : char := 96%N.

(** [$] without [re.MULTILINE]: the end of the string, or just before a
    newline that ends the string. *)
Definition at_dollar (s : str) : bool :=
  match s with
  | [] => true
  | [c] => (c =? 10)%N
  | _ => false
  end.

(** The second alternative, three backticks and [$], tried at the start of
    [s]. *)
Definition match_trailing_fence (s : str) : option str :=
  match s with
  | a :: b :: c :: r =>
      if (a =? backtick)%N && (b =? backtick)%N && (c =? backtick)%N
         && at_dollar r
      then Some r else None
  | _ => None
  end.

(** The scan of [re.sub] from a position after the start of the string,
    where [^] cannot match any more: each position either starts a match of
    the second alternative, which is dropped, or gives its character to the
    output.  After such a match only an optional final newline is left. *)
Fixpoint sub_after_start (s : str) : str :=
  match match_trailing_fence s with
  | Some r => r
  | None =>
      match s with
      | c :: r => c :: sub_after_start r
      | [] => []
      end
  end.

(** The whole substitution: at position 0 the first alternative is tried
    first; the scan then goes on after the match, or from position 0 with the
    second alternative. *)
Definition re_sub_fences (s : str) : str :=
  match match_literal_ci fence_json s with
  | Some r => sub_after_start r
  | None => sub_after_start s
  end.

(** Lines 145 and 175:
    [re.sub(r'^```json|```$', '', result.strip(), flags=re.IGNORECASE).strip('`\n ')] *)
Definition cleaned (result : str) : str :=
  strip_chars [backtick; 10%N; 32%N] (re_sub_fences (py_strip result)).

(** ** [json.loads] (the C scanner of CPython's [_json]) *)

(** The outcome of a scanner started on a suffix of the document: a value and
    the text after it, or an error at a position, given as the suffix that
    starts there. *)
Inductive scan (A : Type) :=
| Scanned (a : A) (rest : str)
| Failed (msg : str) (rest : str)
| Exhausted.
Arguments Scanned {A} a rest.
Arguments Failed {A} msg rest.
Arguments Exhausted {A}.

Definition is_json_ws (c : char) : bool :=
  ((c =? 32) || (c =? 9) || (c =? 10) || (c =? 13))%N.

Definition skip_ws (s : str) : str := dropwhile is_json_ws s.

Definition hex_val (c : char) : option N :=
  (if (48 <=? c) && (c <=? 57) then Some (c - 48)
   else if (97 <=? c) && (c <=? 102) then Some (c - 87)
   else if (65 <=? c) && (c <=? 70) then Some (c - 55)
   else None)%N.

Definition decode_hex4 (a b c d : char) : option N :=
  match hex_val a, hex_val b, hex_val c, hex_val d with
  | Some x, Some y, Some z, Some w => Some (((x * 16 + y) * 16 + z) * 16 + w)%N
  | _, _, _, _ => None
  end.

Definition is_high_surrogate (c : N) : bool := ((55296 <=? c) && (c <=? 56319))%N.
Definition is_low_surrogate (c : N) : bool := ((56320 <=? c) && (c <=? 57343))%N.
Definition join_surrogates (hi lo : N) : N :=
  (65536 + (hi - 55296) * 1024 + (lo - 56320))%N.

(** The escapes other than [\u]. *)
Definition simple_escape (c : char) : option char :=
  (if c =? 34 then Some 34 else if c =? 92 then Some 92
   else if c =? 47 then Some 47 else if c =? 98 then Some 8
   else if c =? 102 then Some 12 else if c =? 110 then Some 10
   else if c =? 114 then Some 13 else if c =? 116 then Some 9
   else None)%N.

Definition msg_unterminated : str := u "Unterminated string starting at".
Definition msg_control : str := u "Invalid control character at".
Definition msg_escape : str := u "Invalid \escape".
Definition msg_uescape : str := u "Invalid \uXXXX escape".
Definition msg_value : str := u "Expecting value".
Definition msg_name : str :=
  u "Expecting property name enclosed in double quotes".
Definition msg_colon : str := u "Expecting ':' delimiter".
Definition msg_comma : str := u "Expecting ',' delimiter".
Definition msg_extra : str := u "Extra data".
Definition msg_bom : str := u "Unexpected UTF-8 BOM (decode using utf-8-sig)".

(** [scanstring_unicode] with [strict] set: [s] is the text after the opening
    quote, [begin] the text from that quote on (where an unterminated string
    is reported), [acc] the characters read so far. *)
Fixpoint scanstring (begin s acc : str) {struct s} : scan str :=
  match s with
  | [] => Failed msg_unterminated begin
  | c :: r =>
      if (c =? 34)%N then Scanned acc r
      else if (c =? 92)%N then
        match r with
        | [] => Failed msg_unterminated begin
        | e :: r1 =>
            if (e =? 117)%N then
              match r1 with
              | h1 :: h2 :: h3 :: h4 :: ((_ :: _) as r2) =>
                  match decode_hex4 h1 h2 h3 h4 with
                  | None => Failed msg_uescape r
                  | Some c1 =>
                      match r2 with
                      | b2 :: u2 :: g1 :: g2 :: g3 :: g4 :: ((_ :: _) as r5) =>
                          if is_high_surrogate c1 && (b2 =? 92)%N
                             && (u2 =? 117)%N
                          then
                            match decode_hex4 g1 g2 g3 g4 with
                            | None => Failed msg_uescape (u2 :: g1 :: g2 :: g3 :: g4 :: r5)
                            | Some c2 =>
                                if is_low_surrogate c2
                                then scanstring begin r5
                                       (acc ++ [join_surrogates c1 c2])
                                else scanstring begin r2 (acc ++ [c1])
                            end
                          else scanstring begin r2 (acc ++ [c1])
                      | _ => scanstring begin r2 (acc ++ [c1])
                      end
                  end
              | _ => Failed msg_uescape r
              end
            else
              match simple_escape e with
              | Some x => scanstring begin r1 (acc ++ [x])
              | None => Failed msg_escape s
              end
        end
      else if (c <=? 31)%N then Failed msg_control s
      else scanstring begin r (acc ++ [c])
  end.

(** [_match_number_unicode]: the integer part, an optional fraction, an
    optional exponent (given up when no digit follows it). *)
Fixpoint span_digits (s : str) : str * str :=
  match s with
  | c :: r =>
      if is_digit c then let (ds, r') := span_digits r in (c :: ds, r')
      else ([], s)
  | [] => ([], [])
  end.

(** [int(text)] for an optional minus sign and decimal digits. *)
Definition int_of_digits (ds : str) : Z :=
  fold_left (fun acc c => 10 * acc + digit_val c) ds 0.

Definition int_of_text (s : str) : Z :=
  match s with
  | c :: r => if (c =? 45)%N then - int_of_digits r else int_of_digits s
  | [] => 0
  end.

Definition number_sign (s : str) : str * str :=
  match s with
  | c :: r => if (c =? 45)%N then ([c], r) else ([], s)
  | [] => ([], s)
  end.

Definition number_int (s : str) : option (str * str) :=
  match s with
  | c :: r =>
      if in_range "1" "9" c then
        let (ds, r') := span_digits r in Some (c :: ds, r')
      else if (c =? 48)%N then Some ([c], r)
      else None
  | [] => None
  end.

Definition number_frac (s : str) : str * str :=
  match s with
  | d :: e :: r =>
      if (d =? 46)%N && is_digit e then
        let (ds, r') := span_digits r in (d :: e :: ds, r')
      else ([], s)
  | _ => ([], s)
  end.

Definition number_exp (s : str) : str * str :=
  match s with
  | e :: ((_ :: _) as r) =>
      if (e =? 101)%N || (e =? 69)%N then
        let '(sg, r1) :=
          match r with
          | c :: ((_ :: _) as r') =>
              if (c =? 45)%N || (c =? 43)%N then ([c], r') else ([], r)
          | _ => ([], r)
          end in
        let (ds, r2) := span_digits r1 in
        match ds with
        | [] => ([], s)
        | _ :: _ => (e :: sg ++ ds, r2)
        end
      else ([], s)
  | _ => ([], s)
  end.

Definition match_number (s : str) : scan pyval :=
  let (sign, s1) := number_sign s in
  match number_int s1 with
  | None => Failed msg_value s
  | Some (ip, s2) =>
      let (frac, s3) := number_frac s2 in
      let (ex, s4) := number_exp s3 in
      match frac ++ ex with
      | [] => Scanned (PInt (int_of_text (sign ++ ip))) s4
      | _ :: _ => Scanned (PFloat (sign ++ ip ++ frac ++ ex)) s4
      end
  end.

(** The text after the exact prefix [pat] of [s]. *)
Fixpoint match_literal (pat s : str) : option str :=
  match pat, s with
  | [], _ => Some s
  | p :: pat', c :: s' => if (c =? p)%N then match_literal pat' s' else None
  | _ :: _, [] => None
  end.

(** The named constants of [scan_once_unicode]; a text that starts like one
    and is not one falls through to the number scanner. *)
Definition match_constant (s : str) : option (pyval * str) :=
  match match_literal (u "null") s with
  | Some r => Some (PNone, r)
  | None =>
  match match_literal (u "true") s with
  | Some r => Some (PBool true, r)
  | None =>
  match match_literal (u "false") s with
  | Some r => Some (PBool false, r)
  | None =>
  match match_literal (u "NaN") s with
  | Some r => Some (PFloat (u "nan"), r)
  | None =>
  match match_literal (u "Infinity") s with
  | Some r => Some (PFloat (u "inf"), r)
  | None =>
  match match_literal (u "-Infinity") s with
  | Some r => Some (PFloat (u "-inf"), r)
  | None => None
  end end end end end end.

(** [scan_once_unicode], [_parse_object_unicode] and [_parse_array_unicode].
    [parse_object_items] and [parse_array_items] are the loops of the two
    latter, entered on a non-empty object or array at the first key or
    element.  The recursion is bounded by [fuel]. *)
Fixpoint scan_once (fuel : nat) (s : str) {struct fuel} : scan pyval :=
  match fuel with
  | O => Exhausted
  | S f =>
      match s with
      | [] => Failed msg_value s
      | c :: r =>
          if (c =? 34)%N then
            match scanstring s r [] with
            | Scanned x r' => Scanned (PStr x) r'
            | Failed m r' => Failed m r'
            | Exhausted => Exhausted
            end
          else if (c =? 123)%N then
            match skip_ws r with
            | c' :: r' =>
                if (c' =? 125)%N then Scanned (PDict []) r'
                else parse_object_items f (c' :: r') []
            | [] => parse_object_items f [] []
            end
          else if (c =? 91)%N then
            match skip_ws r with
            | c' :: r' =>
                if (c' =? 93)%N then Scanned (PList []) r'
                else parse_array_items f (c' :: r') []
            | [] => parse_array_items f [] []
            end
          else
            match match_constant s with
            | Some (v, r') => Scanned v r'
            | None => match_number s
            end
      end
  end

with parse_object_items (fuel : nat) (s : str) (acc : dict pyval)
    {struct fuel} : scan pyval :=
  match fuel with
  | O => Exhausted
  | S f =>
      match s with
      | c :: r =>
          if (c =? 34)%N then
            match scanstring s r [] with
            | Scanned key r1 =>
                match skip_ws r1 with
                | c1 :: r2 =>
                    if (c1 =? 58)%N then
                      match scan_once f (skip_ws r2) with
                      | Scanned val r3 =>
                          let acc' := dict_set acc key val in
                          match skip_ws r3 with
                          | c3 :: r4 =>
                              if (c3 =? 125)%N then Scanned (PDict acc') r4
                              else if (c3 =? 44)%N then
                                parse_object_items f (skip_ws r4) acc'
                              else Failed msg_comma (c3 :: r4)
                          | [] => Failed msg_comma []
                          end
                      | Failed m r' => Failed m r'
                      | Exhausted => Exhausted
                      end
                    else Failed msg_colon (c1 :: r2)
                | [] => Failed msg_colon []
                end
            | Failed m r' => Failed m r'
            | Exhausted => Exhausted
            end
          else Failed msg_name s
      | [] => Failed msg_name s
      end
  end

with parse_array_items (fuel : nat) (s : str) (acc : list pyval)
    {struct fuel} : scan pyval :=
  match fuel with
  | O => Exhausted
  | S f =>
      match scan_once f s with
      | Scanned val r1 =>
          let acc' := acc ++ [val] in
          match skip_ws r1 with
          | c1 :: r2 =>
              if (c1 =? 93)%N then Scanned (PList acc') r2
              else if (c1 =? 44)%N then parse_array_items f (skip_ws r2) acc'
              else Failed msg_comma (c1 :: r2)
          | [] => Failed msg_comma []
          end
      | Failed m r' => Failed m r'
      | Exhausted => Exhausted
      end
  end.

(** [JSONDecodeError(msg, doc, pos)]: line and column of [pos] and the text
    [str(e)]. *)
Definition count_newlines (s : str) : N :=
  N.of_nat (length (filter (N.eqb 10) s)).

(** The characters after the last newline of [s] (all of [s] without one). *)
Fixpoint until_newline (t : str) : str :=
  match t with
  | c :: r => if (c =? 10)%N then [] else c :: until_newline r
  | [] => []
  end.

Definition after_last_newline (s : str) : str := rev (until_newline (rev s)).

Definition json_error (msg doc : str) (pos : nat) : exn :=
  let before := firstn pos doc in
  let lineno := (count_newlines before + 1)%N in
  let colno := N.of_nat (length (after_last_newline before) + 1) in
  Exn JSONDecodeError
    (msg ++ u ": line " ++ str_of_N lineno ++ u " column " ++ str_of_N colno
     ++ u " (char " ++ str_of_N (N.of_nat pos) ++ u ")").

(** The fuel [json_loads] gives the scanner; it never runs out (see
    [scan_once_fuel]). *)
Definition json_fuel (s : str) : nat := 2 * length s + 2.

(** [s.startswith('\ufeff')] *)
Definition starts_with_bom (s : str) : bool :=
  match s with
  | c :: _ => (c =? 65279)%N
  | [] => false
  end.

(** [json.loads(s)] for a [str]: the check for a byte order mark, then
    [JSONDecoder.decode] around the scanner. *)
Definition json_loads (s : str) : result pyval :=
  if starts_with_bom s then Raise (json_error msg_bom s 0)
  else
    match scan_once (json_fuel s) (skip_ws s) with
    | Scanned v r =>
        match skip_ws r with
        | [] => Ok v
        | r' => Raise (json_error msg_extra s (length s - length r'))
        end
    | Failed msg r => Raise (json_error msg s (length s - length r))
    | Exhausted => Unmodelled
    end.

(** *** Forms used in the proofs about the scanner *)

(** One step of [scanstring] on the text [s]: the string ends, a character
    is read, or the text is in error (see [scanstring_step]). *)
Inductive step :=
| Done (rest : str)
| More (c : char) (rest : str)
| Bad (msg : str) (rest : str).

Definition string_step (begin s : str) : step :=
  match s with
  | [] => Bad msg_unterminated begin
  | c :: r =>
      if (c =? 34)%N then Done r
      else if (c =? 92)%N then
        match r with
        | [] => Bad msg_unterminated begin
        | e :: r1 =>
            if (e =? 117)%N then
              match r1 with
              | h1 :: h2 :: h3 :: h4 :: ((_ :: _) as r2) =>
                  match decode_hex4 h1 h2 h3 h4 with
                  | None => Bad msg_uescape r
                  | Some c1 =>
                      match r2 with
                      | b2 :: u2 :: g1 :: g2 :: g3 :: g4 :: ((_ :: _) as r5) =>
                          if is_high_surrogate c1 && (b2 =? 92)%N
                             && (u2 =? 117)%N
                          then
                            match decode_hex4 g1 g2 g3 g4 with
                            | None => Bad msg_uescape (u2 :: g1 :: g2 :: g3 :: g4 :: r5)
                            | Some c2 =>
                                if is_low_surrogate c2
                                then More (join_surrogates c1 c2) r5
                                else More c1 r2
                            end
                          else More c1 r2
                      | _ => More c1 r2
                      end
                  end
              | _ => Bad msg_uescape r
              end
            else
              match simple_escape e with
              | Some x => More x r1
              | None => Bad msg_escape s
              end
        end
      else if (c <=? 31)%N then Bad msg_control s
      else More c r
  end.

(** The characters that may follow a value in a document: white space, a
    comma, a closing bracket or brace, a colon. *)
Definition follow_char (c : char) : bool :=
  (is_json_ws c || (c =? 44) || (c =? 93) || (c =? 125) || (c =? 58))%N.

Definition ok_follow (t : str) : bool :=
  match t with
  | [] => true
  | c :: _ => follow_char c
  end.

(** The characters that a value neither starts nor ends with: white space in
    Python's sense, the backtick, the byte order mark. *)
Definition blank (c : char) : bool :=
  (py_isspace c || (c =? 96) || (c =? 65279))%N.

(** A text that a string's scan can have consumed: it ends with the closing
    quote, and when it starts with a [\u] escape it holds all of it. *)
Definition string_body (b : str) : Prop :=
  (exists b', b = b' ++ [34%N])
  /\ (forall x y rest, b = x :: y :: rest -> x = 92%N -> y = 117%N ->
      7 <= length b)%nat.

(** No tuple and no set inside: the values [json.loads] returns. *)
Fixpoint is_json (v : pyval) : bool :=
  match v with
  | PList l => forallb is_json l
  | PDict items => forallb (fun kv => is_json (snd kv)) items
  | PTuple _ | PSet _ => false
  | _ => true
  end.

(** Whether a text starts with [\u]. *)
Definition pair_head (r : str) : bool :=
  match r with
  | b :: c :: _ => ((b =? 92) && (c =? 117))%N
  | _ => false
  end.

(** The first character of [t], if any, is not one that goes on a number:
    no digit, no point, no exponent letter. *)
Definition plain_head (t : str) : bool :=
  match t with
  | [] => true
  | c :: _ =>
      (negb (is_digit c) && negb (c =? 46) && negb (c =? 101)
       && negb (c =? 69))%N
  end.

Definition digit_head (t : str) : bool :=
  match t with
  | [] => false
  | c :: _ => is_digit c
  end.

(** A text that the number scanner can have consumed: it starts with a digit
    or with a minus sign and a digit, and ends with a digit. *)
Definition number_body (b : str) : Prop :=
  ((exists d b', b = d :: b' /\ is_digit d = true)
   \/ (exists d b', b = 45%N :: d :: b' /\ is_digit d = true))
  /\ exists b'' d, b = b'' ++ [d] /\ is_digit d = true.

(** The first character of [t], if any, is neither a digit nor a point. *)
Definition frac_head (t : str) : bool :=
  match t with
  | [] => true
  | c :: _ => (negb (is_digit c) && negb (c =? 46))%N
  end.

Definition ends_digit (l : str) : Prop :=
  exists l' d, l = l' ++ [d] /\ is_digit d = true.

(** A text that the scan of a value can have consumed: not empty, with a
    first and a last character that are not [blank]. *)
Definition value_body (b : str) : Prop := b <> [] /\ edges blank b.

Definition starts_solid (b : str) : Prop :=
  exists c b0, b = c :: b0 /\ is_json_ws c = false.

Definition ends_with (c : char) (b : str) : Prop := exists b', b = b' ++ [c].

(** What the scanners with fuel [f] do on success: they consume a text [b]
    that determines the result, whatever follows it (for a value: whatever
    may follow a value). *)
Definition once_local (f : nat) : Prop :=
  forall s v r,
    scan_once f s = Scanned v r ->
    exists b,
      s = b ++ r /\ value_body b /\ is_json v = true
      /\ forall t, ok_follow t = true -> scan_once f (b ++ t) = Scanned v t.

Definition object_local (f : nat) : Prop :=
  forall s acc v r,
    parse_object_items f s acc = Scanned v r ->
    forallb (fun kv => is_json (snd kv)) acc = true ->
    exists b,
      s = b ++ r /\ starts_solid b /\ ends_with 125%N b /\ is_json v = true
      /\ forall t, parse_object_items f (b ++ t) acc = Scanned v t.

Definition array_local (f : nat) : Prop :=
  forall s acc v r,
    parse_array_items f s acc = Scanned v r ->
    forallb is_json acc = true ->
    exists b,
      s = b ++ r /\ starts_solid b /\ ends_with 93%N b /\ is_json v = true
      /\ forall t, parse_array_items f (b ++ t) acc = Scanned v t.

(** ** [ast.literal_eval] on a string

    [literal_eval] strips leading spaces and tabs, compiles the text as a
    Python expression and converts the syntax tree when it is made of
    literals only.  The embedding covers a fragment of Python's expression
    syntax and says [Unmodelled] outside it:
    - [None], [True], [False], decimal integers ([0] or without a leading
      zero) with an optional minus sign;
    - strings in single or double quotes without backslash, newline or
      control character;
    - list, tuple, dict (string keys) and set (string and integer elements)
      displays, parenthesised expressions, with spaces, tabs and, inside
      brackets, newlines between the tokens; nesting up to [max_depth];
    - a text that starts with a character that no Python token starts with
      (backtick, dollar, question mark): [SyntaxError]. *)

Definition is_blank (c : char) : bool :=
  ((c =? 32) || (c =? 9) || (c =? 10))%N.

Definition skip_blank (s : str) : str := dropwhile is_blank s.

(** The characters that may follow a name or a number in the fragment. *)
Definition is_delimiter (c : char) : bool :=
  (is_blank c || (c =? 44) || (c =? 93) || (c =? 41) || (c =? 125)
   || (c =? 58))%N.

Definition at_delimiter (s : str) : bool :=
  match s with
  | [] => true
  | c :: _ => is_delimiter c
  end.

(** Code points a modelled string literal may hold. *)
Definition is_plain_char (c : char) : bool :=
  (((32 <=? c) && (c <=? 126) || (160 <=? c) && (c <? 55296)
    || (57344 <=? c) && (c <=? 1114111))
   && negb (c =? 92) && negb (c =? 8232) && negb (c =? 8233))%N.

(** Code points of a text the compiler reads as it is. *)
Definition is_source_char (c : char) : bool :=
  (negb (c =? 0) && ((c <? 55296) || (57344 <=? c) && (c <=? 1114111)))%N.

(** The body of a string literal up to the closing [quote]. *)
Fixpoint lit_string_body (quote : char) (s : str) : option (str * str) :=
  match s with
  | [] => None
  | c :: r =>
      if (c =? quote)%N then Some ([], r)
      else if is_plain_char c then
        match lit_string_body quote r with
        | Some (x, r') => Some (c :: x, r')
        | None => None
        end
      else None
  end.

(** A string literal: not a triple-quoted one, and followed by a
    delimiter. *)
Definition lit_string (quote : char) (r : str) : option (pyval * str) :=
  match lit_string_body quote r with
  | Some ([], c :: r') =>
      if (c =? quote)%N then None
      else if is_delimiter c then Some (PStr [], c :: r') else None
  | Some (x, r') => if at_delimiter r' then Some (PStr x, r') else None
  | None => None
  end.

Definition lit_int (s : str) : option (Z * str) :=
  match number_int s with
  | Some (ds, r) => if at_delimiter r then Some (int_of_digits ds, r) else None
  | None => None
  end.

Definition lit_name (s : str) : option (pyval * str) :=
  let name (n : string) (v : pyval) :=
    match match_literal (u n) s with
    | Some r => if at_delimiter r then Some (v, r) else None
    | None => None
    end in
  match name "None"%string PNone with
  | Some x => Some x
  | None =>
      match name "True"%string (PBool true) with
      | Some x => Some x
      | None => name "False"%string (PBool false)
      end
  end.

(** Equality of the values a modelled set may hold. *)
Definition hashable_eqb (a b : pyval) : bool :=
  match a, b with
  | PStr x, PStr y => str_eqb x y
  | PInt x, PInt y => (x =? y)%Z
  | _, _ => false
  end.

Definition is_set_element (v : pyval) : bool :=
  match v with
  | PStr _ | PInt _ => true
  | _ => false
  end.

(** The elements of a set display, each kept once. *)
Fixpoint set_of_list (l : list pyval) (acc : list pyval) : list pyval :=
  match l with
  | [] => acc
  | v :: l' =>
      if existsb (hashable_eqb v) acc then set_of_list l' acc
      else set_of_list l' (acc ++ [v])
  end.

Definition max_depth : nat := 50.

(** [lit_expr] reads one expression; [lit_items] the elements of a list,
    tuple or set display up to [close], telling whether a comma was met;
    [lit_dict_items] the entries of a dict display. *)
Fixpoint lit_expr (fuel depth : nat) (s : str) {struct fuel}
    : option (pyval * str) :=
  match fuel, depth with
  | S f, S d =>
      match s with
      | [] => None
      | c :: r =>
          if (c =? 91)%N then
            match lit_items f d 93%N (skip_blank r) [] false with
            | Some (l, _, r') => Some (PList l, r')
            | None => None
            end
          else if (c =? 40)%N then
            match lit_items f d 41%N (skip_blank r) [] false with
            | Some ([v], false, r') => Some (v, r')
            | Some (l, _, r') => Some (PTuple l, r')
            | None => None
            end
          else if (c =? 123)%N then
            match skip_blank r with
            | c' :: r' =>
                if (c' =? 125)%N then Some (PDict [], r')
                else
                  match lit_items f d 125%N (c' :: r') [] false with
                  | Some (l, _, r'') =>
                      if forallb is_set_element l
                      then Some (PSet (set_of_list l []), r'') else None
                  | None =>
                      match lit_dict_items f d (c' :: r') [] with
                      | Some (items, r'') => Some (PDict items, r'')
                      | None => None
                      end
                  end
            | [] => None
            end
          else if (c =? 39)%N || (c =? 34)%N then lit_string c r
          else if (c =? 45)%N then
            match lit_int r with
            | Some (z, r') => Some (PInt (- z), r')
            | None => None
            end
          else if is_digit c then
            match lit_int s with
            | Some (z, r') => Some (PInt z, r')
            | None => None
            end
          else lit_name s
      end
  | _, _ => None
  end

with lit_items (fuel depth : nat) (close : char) (s : str)
    (acc : list pyval) (comma : bool) {struct fuel}
    : option (list pyval * bool * str) :=
  match fuel with
  | O => None
  | S f =>
      match s with
      | [] => None
      | c :: r =>
          if (c =? close)%N then Some (acc, comma, r)
          else
            match lit_expr f depth s with
            | Some (v, r1) =>
                match skip_blank r1 with
                | c1 :: r2 =>
                    if (c1 =? close)%N then Some (acc ++ [v], comma, r2)
                    else if (c1 =? 44)%N then
                      lit_items f depth close (skip_blank r2) (acc ++ [v]) true
                    else None
                | [] => None
                end
            | None => None
            end
      end
  end

with lit_dict_items (fuel depth : nat) (s : str) (acc : dict pyval)
    {struct fuel} : option (dict pyval * str) :=
  match fuel with
  | O => None
  | S f =>
      match s with
      | [] => None
      | c :: r =>
          if (c =? 125)%N then Some (acc, r)
          else
            match lit_expr f depth s with
            | Some (PStr key, r1) =>
                match skip_blank r1 with
                | c1 :: r2 =>
                    if (c1 =? 58)%N then
                      match lit_expr f depth (skip_blank r2) with
                      | Some (val, r3) =>
                          let acc' := dict_set acc key val in
                          match skip_blank r3 with
                          | c3 :: r4 =>
                              if (c3 =? 125)%N then Some (acc', r4)
                              else if (c3 =? 44)%N then
                                lit_dict_items f depth (skip_blank r4) acc'
                              else None
                          | [] => None
                          end
                      | None => None
                      end
                    else None
                | [] => None
                end
            | _ => None
            end
      end
  end.

Definition msg_invalid_syntax : str := u "invalid syntax (<unknown>, line 1)".

Definition literal_eval (node_or_string : str) : result pyval :=
  let s := lstrip_chars [32%N; 9%N] node_or_string in
  if negb (forallb is_source_char s) then Unmodelled
  else
    match s with
    | [] => Unmodelled
    | c :: _ =>
        if (c =? 96)%N || (c =? 36)%N || (c =? 63)%N
        then Raise (Exn SyntaxError msg_invalid_syntax)
        else
          match lit_expr (json_fuel s) max_depth s with
          | Some (v, r) => if forallb is_blank r then Ok v else Unmodelled
          | None => Unmodelled
          end
    end.

(** ** [jsonify]

    [jsonify(v)] serialises [v] with the application's JSON provider: lists
    and tuples become arrays, dicts objects, and a set has no serialisation
    ([TypeError]).  The response body is kept as the JSON document, a value
    without tuples. *)
Definition msg_set_not_serializable : str :=
  u "Object of type set is not JSON serializable".

Fixpoint to_json (v : pyval) : result pyval :=
  let fix all (l : list pyval) : result (list pyval) :=
    match l with
    | [] => Ok []
    | x :: l' => (y <- to_json x ;; ys <- all l' ;; Ok (y :: ys))%res
    end in
  let fix all_items (l : list (str * pyval)) : result (list (str * pyval)) :=
    match l with
    | [] => Ok []
    | (k, x) :: l' =>
        (y <- to_json x ;; ys <- all_items l' ;; Ok ((k, y) :: ys))%res
    end in
  match v with
  | PList l | PTuple l => (ys <- all l ;; Ok (PList ys))%res
  | PDict items => (ys <- all_items items ;; Ok (PDict ys))%res
  | PSet _ => Raise (Exn TypeError msg_set_not_serializable)
  | _ => Ok v
  end.

(** ** The handlers' environment *)

(** An uploaded file (its bytes) and a decoded image. *)
Definition upload := str.
Inductive image := Image (data : str).

Inductive chain := ChainItems | ChainMeal | ChainRecipe.

(** What a request meets outside the program: the clock, Pillow, Tesseract
    and the three chains ([prompt | gemini | StrOutputParser()]); a chain
    takes the dictionary given to [invoke] and returns the model's text. *)
Record world := World {
  today : date;
  Image_open : upload -> result image;
  image_to_string : image -> result str;
  chain_invoke : chain -> pyval -> result str
}.

(** The calls a handler makes to the OCR and model adapters, in order. *)
Inductive call :=
| CallImageOpen (f : upload)
| CallOCR (img : image)
| CallChain (c : chain) (input : pyval).

(** A computation of a handler: the adapter calls made and the result. *)
Definition M (A : Type) := (list call * result A)%type.

Definition ret {A} (a : A) : M A := ([], Ok a).

Definition bind {A B} (m : M A) (f : A -> M B) : M B :=
  match m with
  | (t, Ok a) => let (t', r) := f a in (t ++ t', r)
  | (t, Raise e) => (t, Raise e)
  | (t, Unmodelled) => (t, Unmodelled)
  end.

(** A library call without adapter calls. *)
Definition lift {A} (r : result A) : M A := ([], r).

(** A call to an adapter. *)
Definition perform {A} (c : call) (r : result A) : M A := ([c], r).

(** [try: body except Exception as e: handler(e)] *)
Definition try_except {A} (body : M A) (handler : exn -> M A) : M A :=
  match body with
  | (t, Raise e) => let (t', r) := handler e in (t ++ t', r)
  | m => m
  end.

Declare Scope handler_scope.
Delimit Scope handler_scope with handler.
Notation "x <- m ;; k" := (bind m (fun x => k))
  (at level 61, m at next level, right associativity) : handler_scope.

(** What a view function returns to Flask. *)
Record response := Response {
  status : Z;
  body : pyval;
  headers : list (str * str)
}.

Definition jsonify (v : pyval) : M pyval := lift (to_json v).

(** [data.get(key, default)] *)
Definition get_default (items : dict pyval) (key : str) (default : pyval)
    : pyval :=
  match dict_get items key with
  | Some v => v
  | None => default
  end.

Definition py_get (data : pyval) (key : str) (default : pyval) : result pyval :=
  match data with
  | PDict items => Ok (get_default items key default)
  | v => Raise (no_attribute v (u "get"))
  end.

Local Open Scope handler_scope.

(** ** [extract_items]: [POST /extract-items]

    [files] is [request.files]. *)
Definition extract_items (w : world) (files : list (str * upload))
    : M response :=
  match dict_get files (u "image") with
  | None =>
      b <- jsonify (PDict [(u "error", PStr (u "No image provided"))]) ;;
      ret (Response 400 b [])
  | Some image_file =>
      image <- perform (CallImageOpen image_file) (Image_open w image_file) ;;
      extracted_text <- perform (CallOCR image) (image_to_string w image) ;;
      let input := PDict [(u "extracted_text", PStr extracted_text)] in
      result <- perform (CallChain ChainItems input)
                  (chain_invoke w ChainItems input) ;;
      parsed <- try_except
                  (grocery_list <- lift (literal_eval result) ;;
                   ret (inl grocery_list))
                  (fun e =>
                     b <- jsonify
                            (PDict [(u "error",
                                     PStr (u "Failed to parse LLM response"));
                                    (u "llm_output", PStr result)]) ;;
                     ret (inr (Response 500 b []))) ;;
      match parsed with
      | inr early => ret early
      | inl grocery_list =>
          b <- jsonify (PDict [(u "grocery_items", grocery_list)]) ;;
          ret (Response 200 b [])
      end
  end.

Definition json_header : list (str * str) :=
  [(u "Content-Type", u "application/json")].

(** The [except Exception as e] clause of the two other handlers. *)
Definition error_400 (e : exn) : M response :=
  b <- jsonify (PDict [(u "error", PStr (exn_text e))]) ;;
  ret (Response 400 b []).

(** ** [generate_meal_plan]: [POST /generate-meal-plan]

    [data] is [request.json]. *)
Definition generate_meal_plan (w : world) (data : pyval) : M response :=
  try_except
    (age <- lift (py_get data (u "age") PNone) ;;
     weight <- lift (py_get data (u "weight") PNone) ;;
     height <- lift (py_get data (u "height") PNone) ;;
     gender <- lift (py_get data (u "gender") PNone) ;;
     diet_type <- lift (py_get data (u "diet_type") PNone) ;;
     allergies <- lift (py_get data (u "allergies") PNone) ;;
     health_conditions <- lift (py_get data (u "health_conditions") PNone) ;;
     health_goal <- lift (py_get data (u "health_goal") PNone) ;;
     cuisine <- lift (py_get data (u "cuisine") PNone) ;;
     item_list <- lift (py_get data (u "item_list") (PList [])) ;;
     expiry_dates <- lift (py_get data (u "expiry_dates") (PDict [])) ;;
     days_to_expiry <- lift (calculate_days_to_expiry (today w) expiry_dates) ;;
     let input :=
       PDict [(u "age", age); (u "weight", weight); (u "height", height);
              (u "gender", gender); (u "diet_type", diet_type);
              (u "allergies", allergies);
              (u "health_conditions", health_conditions);
              (u "health_goal", health_goal); (u "cuisine", cuisine);
              (u "item_list", item_list);
              (u "days_to_expiry", days_to_expiry)] in
     result <- perform (CallChain ChainMeal input)
                 (chain_invoke w ChainMeal input) ;;
     meal_plan <- lift (json_loads (cleaned result)) ;;
     b <- jsonify meal_plan ;;
     ret (Response 200 b json_header))
    error_400.

(** ** [generate_recipe]: [POST /generate-recipe] *)
Definition generate_recipe (w : world) (data : pyval) : M response :=
  try_except
    (meal <- lift (py_get data (u "meal") PNone) ;;
     item_list <- lift (py_get data (u "item_list") (PList [])) ;;
     expiry_dates <- lift (py_get data (u "expiry_dates") (PDict [])) ;;
     days_to_expiry <- lift (calculate_days_to_expiry (today w) expiry_dates) ;;
     let input :=
       PDict [(u "meal", meal); (u "item_list", item_list);
              (u "days_to_expiry", days_to_expiry)] in
     result <- perform (CallChain ChainRecipe input)
                 (chain_invoke w ChainRecipe input) ;;
     recipe <- lift (json_loads (cleaned result)) ;;
     b <- jsonify recipe ;;
     ret (Response 200 b json_header))
    error_400.

Local Close Scope handler_scope.

(** ** Derived forms used in the statements *)

(** The body of an error response of the two JSON handlers. *)
Definition error_body (e : exn) : pyval := PDict [(u "error", PStr (exn_text e))].

(** The dictionaries the two handlers give to their chains. *)
Definition meal_input (fields : dict pyval) (days_to_expiry : pyval) : pyval :=
  PDict [(u "age", get_default fields (u "age") PNone);
         (u "weight", get_default fields (u "weight") PNone);
         (u "height", get_default fields (u "height") PNone);
         (u "gender", get_default fields (u "gender") PNone);
         (u "diet_type", get_default fields (u "diet_type") PNone);
         (u "allergies", get_default fields (u "allergies") PNone);
         (u "health_conditions",
          get_default fields (u "health_conditions") PNone);
         (u "health_goal", get_default fields (u "health_goal") PNone);
         (u "cuisine", get_default fields (u "cuisine") PNone);
         (u "item_list", get_default fields (u "item_list") (PList []));
         (u "days_to_expiry", days_to_expiry)].

Definition recipe_input (fields : dict pyval) (days_to_expiry : pyval) : pyval :=
  PDict [(u "meal", get_default fields (u "meal") PNone);
         (u "item_list", get_default fields (u "item_list") (PList []));
         (u "days_to_expiry", days_to_expiry)].

(** What the two handlers do with the chain's answer: clean, parse,
    serialise; any exception becomes the 400 response. *)
Definition normalized_response (answer : result str) : result response :=
  match answer with
  | Ok raw =>
      match json_loads (cleaned raw) with
      | Ok v =>
          match to_json v with
          | Ok b => Ok (Response 200 b json_header)
          | Raise e => Ok (Response 400 (error_body e) [])
          | Unmodelled => Unmodelled
          end
      | Raise e => Ok (Response 400 (error_body e) [])
      | Unmodelled => Unmodelled
      end
  | Raise e => Ok (Response 400 (error_body e) [])
  | Unmodelled => Unmodelled
  end.

(** The two fence removals in the specification's terms: a leading
    [```json] in any case, a trailing [```]. *)
Definition drop_leading_fence (s : str) : str :=
  match match_literal_ci fence_json s with
  | Some r => r
  | None => s
  end.

Definition drop_trailing_fence (s : str) : str :=
  match rev s with
  | a :: b :: c :: r =>
      if (a =? backtick)%N && (b =? backtick)%N && (c =? backtick)%N
      then rev r else s
  | _ => s
  end.


(** A string is empty or ends with a character other than a newline. *)
Definition no_final_newline (s : str) : Prop := forall r, s <> r ++ [10%N].


(** The values [jsonify] can serialise, and their JSON documents. *)
Fixpoint serializable (v : pyval) : bool :=
  match v with
  | PList l | PTuple l => forallb serializable l
  | PDict items => forallb (fun kv => serializable (snd kv)) items
  | PSet _ => false
  | _ => true
  end.

Fixpoint as_json (v : pyval) : pyval :=
  match v with
  | PList l | PTuple l => PList (map as_json l)
  | PDict items => PDict (map (fun kv => (fst kv, as_json (snd kv))) items)
  | _ => v
  end.

(** The input of the calculator for the dated inventory [m]: each date
    written as [YYYY-MM-DD]. *)
Definition iso_items (m : list (str * date)) : list (str * pyval) :=
  map (fun kd => (fst kd, PStr (isoformat (snd kd)))) m.

Definition days_items (today : date) (m : list (str * date))
    : list (str * pyval) :=
  map (fun kd => (fst kd, PInt (days_between (snd kd) today))) m.

(** What [extract_items] does with the chain's answer: the literal is
    evaluated inside the [try], the value is serialised after it. *)
Definition items_response (raw : str) : result response :=
  match literal_eval raw with
  | Ok v =>
      match to_json v with
      | Ok j => Ok (Response 200 (PDict [(u "grocery_items", j)]) [])
      | Raise e => Raise e
      | Unmodelled => Unmodelled
      end
  | Raise e =>
      Ok (Response 500
            (PDict [(u "error", PStr (u "Failed to parse LLM response"));
                    (u "llm_output", PStr raw)]) [])
  | Unmodelled => Unmodelled
  end.

Definition items_input (extracted_text : str) : pyval :=
  PDict [(u "extracted_text", PStr extracted_text)].

(** Worlds for the examples: a working OCR that reads [text] and a model
    that answers [answer] on every chain. *)
Definition answering (text : str) (answer : result str) : world :=
  World (Date 2024 1 1) (fun f => Ok (Image f)) (fun _ => Ok text)
    (fun _ _ => answer).

(** A world whose OCR engine fails. *)
Definition tesseract_error : exn :=
  Exn (OtherError (u "TesseractNotFoundError"))
    (u "tesseract is not installed or it's not in your PATH.").

Definition ocr_down : world :=
  World (Date 2024 1 1) (fun f => Ok (Image f)) (fun _ => Raise tesseract_error)
    (fun _ _ => Ok []).

Definition newline : str := [10%N].


Definition quote : str := [34%N].

(** A JSON text with white space around it. *)
Definition monday_text : str :=
  u "  {" ++ quote ++ u "monday" ++ quote ++ u ": [1, 2.5, null]}" ++ newline
  ++ u " ".

(** ** Derived forms for further properties *)

(** The day after [dt] in the calendar. *)
Definition tomorrow (dt : date) : date :=
  if (day dt <? days_in_month (year dt) (month dt))%Z
  then Date (year dt) (month dt) (day dt + 1)
  else if (month dt <? 12)%Z then Date (year dt) (month dt + 1) 1
  else Date (year dt + 1) 1 1.


(** The keys the two JSON handlers read from the request body. *)
Definition meal_fields : list str :=
  [u "age"; u "weight"; u "height"; u "gender"; u "diet_type";
   u "allergies"; u "health_conditions"; u "health_goal"; u "cuisine";
   u "item_list"; u "expiry_dates"].

Definition recipe_fields : list str :=
  [u "meal"; u "item_list"; u "expiry_dates"].

(** Two bodies with the same values at the keys [keys]. *)
Definition agree_on (keys : list str) (a b : dict pyval) : Prop :=
  Forall (fun k => dict_get a k = dict_get b k) keys.

(** A text written as [```json] in some case of its letters. *)
Definition is_json_fence (f : str) : Prop :=
  Forall2 (fun p c => matches_ignorecase p c = true) fence_json f.

(** The characters the last [strip] of the cleaning removes. *)
Definition is_fence_mark (c : char) : bool :=
  mem_char [backtick; 10%N; 32%N] c.

(** The 400 response of the JSON handlers to a text with no value in it. *)
Definition no_value_response : response :=
  Response 400
    (PDict [(u "error", PStr (u "Expecting value: line 1 column 1 (char 0)"))])
    [].

(** [sep.join(l)] *)
Fixpoint join (sep : str) (l : list str) : str :=
  match l with
  | [] => []
  | [x] => x
  | x :: l' => x ++ sep ++ join sep l'
  end.

(** [repr] of a list of strings: [['a', 'b']]. *)
Definition repr_list (names : list str) : str :=
  u "[" ++ join (u ", ") (map py_repr names) ++ u "]".

(** Printable ASCII characters other than the single quote and the
    backslash: [repr] writes them as they are, between single quotes. *)
Definition is_item_char (c : char) : bool :=
  ((32 <=? c) && (c <=? 126) && negb (c =? 39) && negb (c =? 92))%N.

Definition is_item_name (name : str) : Prop := forallb is_item_char name = true.

(** Blank text after an expression that the compiler accepts: spaces and
    tabs, or blank lines the last of which a newline ends (a last line of
    blank space without its newline is an [IndentationError]). *)
Definition blank_lines (tail : str) : Prop :=
  forallb is_blank tail = true
  /\ (In 10%N tail -> exists t, tail = t ++ [10%N]).

(** * Properties *)

(** ** Strings and dictionaries *)

Lemma str_eqb_eq (a b : str) : str_eqb a b = true <-> a = b.
Proof.
  unfold str_eqb; destruct (list_eq_dec N.eq_dec a b); split; congruence.
Qed.

Lemma str_eqb_refl (a : str) : str_eqb a a = true.
Proof. now apply str_eqb_eq. Qed.


Local Open Scope Z_scope.

(** ** The calendar *)

Lemma is_leap_spec (y : Z) :
  is_leap y = true <-> (y mod 4 = 0 /\ (y mod 100 <> 0 \/ y mod 400 = 0)).
Proof.
  unfold is_leap.
  rewrite andb_true_iff, orb_true_iff, negb_true_iff, !Z.eqb_eq, Z.eqb_neq.
  tauto.
Qed.

Lemma days_before_year_succ (y : Z) :
  days_before_year (y + 1)
  = days_before_year y + 365 + (if is_leap y then 1 else 0).
Proof.
  unfold days_before_year.
  replace (y + 1 - 1) with y by lia.
  destruct (is_leap y) eqn:L.
  - apply is_leap_spec in L. Z.div_mod_to_equations. lia.
  - assert (N : ~ (y mod 4 = 0 /\ (y mod 100 <> 0 \/ y mod 400 = 0))).
    { intro H. apply is_leap_spec in H. congruence. }
    Z.div_mod_to_equations. lia.
Qed.

Lemma days_before_year_mono (y y' : Z) :
  y <= y' -> days_before_year y <= days_before_year y'.
Proof.
  unfold days_before_year. intros H. Z.div_mod_to_equations. lia.
Qed.

Lemma month_cases (m : Z) :
  1 <= m <= 12 ->
  m = 1 \/ m = 2 \/ m = 3 \/ m = 4 \/ m = 5 \/ m = 6 \/ m = 7 \/ m = 8
  \/ m = 9 \/ m = 10 \/ m = 11 \/ m = 12.
Proof. lia. Qed.

Ltac eval_term t :=
  let v := eval vm_compute in t in change t with v in *.

(** Evaluates the table look-ups and comparisons on a known month. *)
Ltac eval_month :=
  repeat match goal with
    | |- context [Z.to_nat (Zpos ?p)] => eval_term (Z.to_nat (Zpos p))
    | |- context [@nth Z ?n ?l 0] =>
        is_ground n; eval_term (@nth Z n l 0)
    | |- context [Zpos ?p =? Zpos ?q] => eval_term (Zpos p =? Zpos q)
    | |- context [Zpos ?p >? Zpos ?q] => eval_term (Zpos p >? Zpos q)
    end;
  cbn [andb].

Ltac each_month m H :=
  let C := fresh in
  pose proof (month_cases H) as C;
  repeat (destruct C as [C | C]; [subst m | ]); [.. | subst m].

Lemma day_of_year_bounds (y m d : Z) :
  1 <= m <= 12 -> 1 <= d <= days_in_month y m ->
  1 <= days_before_month y m + d <= 365 + (if is_leap y then 1 else 0).
Proof.
  intros Hm Hd.
  unfold days_before_month, days_in_month, DAYS_BEFORE_MONTH, DAYS_IN_MONTH in *.
  revert Hd; each_month m Hm; eval_month; destruct (is_leap y); lia.
Qed.

Lemma day_of_year_mono (y m d m' d' : Z) :
  1 <= m <= 12 -> 1 <= m' <= 12 ->
  1 <= d <= days_in_month y m -> 1 <= d' <= days_in_month y m' ->
  m < m' -> days_before_month y m + d < days_before_month y m' + d'.
Proof.
  intros Hm Hm' Hd Hd' Hlt.
  unfold days_before_month, days_in_month, DAYS_BEFORE_MONTH, DAYS_IN_MONTH in *.
  revert Hd Hd'; each_month m Hm; each_month m' Hm'; try lia;
    eval_month; destruct (is_leap y); lia.
Qed.

Lemma toordinal_lt (a b : date) :
  valid_date a -> valid_date b -> date_lt a b -> toordinal a < toordinal b.
Proof.
  intros (Hya & Hma & Hda) (Hyb & Hmb & Hdb) H.
  unfold toordinal, ymd2ord.
  destruct H as [Hy | (Hy & [Hm | (Hm & Hd)])].
  - pose proof (day_of_year_bounds (year a) Hma Hda).
    pose proof (day_of_year_bounds (year b) Hmb Hdb).
    pose proof (days_before_year_succ (year a)).
    pose proof (@days_before_year_mono (year a + 1) (year b)).
    lia.
  - rewrite Hy in *.
    pose proof (@day_of_year_mono (year b) (month a) (day a) (month b) (day b)).
    lia.
  - rewrite Hy, Hm. lia.
Qed.

Lemma date_trichotomy (a b : date) : date_lt a b \/ a = b \/ date_lt b a.
Proof.
  destruct a as [ya ma da], b as [yb mb db]. unfold date_lt; cbn.
  destruct (Z.lt_trichotomy ya yb) as [? | [? | ?]]; try (left; lia);
    try (right; right; lia).
  destruct (Z.lt_trichotomy ma mb) as [? | [? | ?]]; try (left; lia);
    try (right; right; lia).
  destruct (Z.lt_trichotomy da db) as [? | [? | ?]]; try (left; lia);
    try (right; right; lia).
  right; left; congruence.
Qed.

Lemma toordinal_lt_iff (a b : date) :
  valid_date a -> valid_date b -> (toordinal a < toordinal b <-> date_lt a b).
Proof.
  intros Ha Hb; split; [ | now apply toordinal_lt].
  intros H. destruct (date_trichotomy a b) as [L | [E | G]]; trivial.
  - subst; lia.
  - pose proof (toordinal_lt Hb Ha G); lia.
Qed.

(** ** Digits *)

Lemma dig_is_digit (n : Z) : is_digit (dig n) = true.
Proof.
  unfold is_digit, dig. pose proof (Z.mod_pos_bound n 10).
  apply andb_true_iff; split; apply N.leb_le; lia.
Qed.

Lemma dig_is_ascii (n : Z) : is_ascii (dig n) = true.
Proof.
  unfold is_ascii, dig. pose proof (Z.mod_pos_bound n 10).
  apply N.ltb_lt; lia.
Qed.

Lemma digit_val_dig (n : Z) : digit_val (dig n) = n mod 10.
Proof.
  unfold digit_val, dig. pose proof (Z.mod_pos_bound n 10). lia.
Qed.

Lemma dig_digit_val (c : char) : is_digit c = true -> dig (digit_val c) = c.
Proof.
  unfold is_digit, dig, digit_val. intros H.
  apply andb_true_iff in H as [H1 H2]. apply N.leb_le in H1, H2.
  rewrite Z.mod_small by lia. lia.
Qed.

Lemma digit_cases (c : char) :
  is_digit c = true ->
  (c = 48 \/ c = 49 \/ c = 50 \/ c = 51 \/ c = 52 \/ c = 53 \/ c = 54
   \/ c = 55 \/ c = 56 \/ c = 57)%N.
Proof.
  unfold is_digit. intros H.
  apply andb_true_iff in H as [H1 H2]. apply N.leb_le in H1, H2. lia.
Qed.

Lemma in_range_digit (lo hi : ascii) (c : char) :
  in_range lo hi c = true ->
  (48 <= ch lo)%N -> (ch hi <= 57)%N ->
  is_digit c = true /\ (ch lo <= c <= ch hi)%N.
Proof.
  unfold in_range, is_digit. intros H Hlo Hhi.
  apply andb_true_iff in H as [H1 H2]. apply N.leb_le in H1, H2.
  split; [ | lia]. apply andb_true_iff; split; apply N.leb_le; lia.
Qed.

Lemma is_char_eq (a : ascii) (c : char) : is_char a c = true -> c = ch a.
Proof. unfold is_char. apply N.eqb_eq. Qed.

(** ** [strptime] *)

Lemma match_Y_four_digits (y : Z) (r : str) :
  0 <= y <= 9999 -> match_Y (four_digits y ++ r) = Some (y, r).
Proof.
  intros Hy. unfold four_digits, match_Y. cbn [app].
  rewrite !dig_is_digit. cbn [andb]. rewrite !digit_val_dig.
  f_equal. f_equal. Z.div_mod_to_equations. lia.
Qed.

Lemma match_Y_inv (s : str) (y : Z) (r : str) :
  match_Y s = Some (y, r) -> 0 <= y <= 9999 /\ s = four_digits y ++ r.
Proof.
  unfold match_Y.
  destruct s as [ | a [ | b [ | c [ | d s]]]]; try discriminate.
  destruct (is_digit a) eqn:Ha; try discriminate.
  destruct (is_digit b) eqn:Hb; try discriminate.
  destruct (is_digit c) eqn:Hc; try discriminate.
  destruct (is_digit d) eqn:Hd; try discriminate.
  cbn [andb].
  remember (1000 * digit_val a + 100 * digit_val b + 10 * digit_val c
            + digit_val d) as v eqn:Ev.
  intros [= <- <-].
  pose proof (dig_digit_val _ Ha) as Ea. pose proof (dig_digit_val _ Hb) as Eb.
  pose proof (dig_digit_val _ Hc) as Ec. pose proof (dig_digit_val _ Hd) as Ed.
  assert (B : forall x, is_digit x = true -> 0 <= digit_val x <= 9).
  { intros x Hx. unfold is_digit, digit_val in *.
    apply andb_true_iff in Hx as [H1 H2]. apply N.leb_le in H1, H2. lia. }
  pose proof (B _ Ha). pose proof (B _ Hb). pose proof (B _ Hc).
  pose proof (B _ Hd).
  split; [lia | ].
  unfold four_digits. cbn [app].
  assert (E1 : (v / 1000) mod 10 = digit_val a)
    by (subst v; Z.div_mod_to_equations; lia).
  assert (E2 : (v / 100) mod 10 = digit_val b)
    by (subst v; Z.div_mod_to_equations; lia).
  assert (E3 : (v / 10) mod 10 = digit_val c)
    by (subst v; Z.div_mod_to_equations; lia).
  assert (E4 : v mod 10 = digit_val d)
    by (subst v; Z.div_mod_to_equations; lia).
  unfold dig at 1 2 3 4. rewrite E1, E2, E3, E4.
  unfold dig in Ea, Eb, Ec, Ed.
  rewrite Z.mod_small in Ea, Eb, Ec, Ed by lia.
  now rewrite Ea, Eb, Ec, Ed.
Qed.

Lemma try_alts_inv {B} (alts : list matcher) (s : str)
    (k : Z -> str -> option B) (x : B) :
  try_alts alts s k = Some x ->
  exists alt a r, In alt alts /\ alt s = Some (a, r) /\ k a r = Some x.
Proof.
  induction alts as [ | alt alts IH]; cbn; [discriminate | ].
  destruct (alt s) as [[a r] | ] eqn:E.
  - destruct (k a r) as [b | ] eqn:K.
    + intros [= <-]. exists alt, a, r. auto.
    + intros H. destruct (IH H) as (alt' & a' & r' & ? & ? & ?).
      exists alt', a', r'. auto.
  - intros H. destruct (IH H) as (alt' & a' & r' & ? & ? & ?).
    exists alt', a', r'. auto.
Qed.

Lemma two_chars_inv (p1 p2 : char -> bool) (s : str) (a : Z) (r : str) :
  two_chars p1 p2 s = Some (a, r) ->
  exists c1 c2, s = c1 :: c2 :: r /\ p1 c1 = true /\ p2 c2 = true
                /\ a = 10 * digit_val c1 + digit_val c2.
Proof.
  unfold two_chars. destruct s as [ | c1 [ | c2 s]]; try discriminate.
  destruct (p1 c1) eqn:H1; try discriminate.
  destruct (p2 c2) eqn:H2; try discriminate.
  cbn [andb].
  remember (10 * digit_val c1 + digit_val c2) as v.
  intros [= <- <-]. exists c1, c2. auto.
Qed.

Lemma one_char_inv (p : char -> bool) (s : str) (a : Z) (r : str) :
  one_char p s = Some (a, r) ->
  exists c, s = c :: r /\ p c = true /\ a = digit_val c.
Proof.
  unfold one_char. destruct s as [ | c s]; try discriminate.
  destruct (p c) eqn:H1; try discriminate.
  intros [= <- <-]. exists c. auto.
Qed.

Lemma space_then_inv (p : char -> bool) (s : str) (a : Z) (r : str) :
  space_then p s = Some (a, r) ->
  exists c, s = 32%N :: c :: r /\ p c = true /\ a = digit_val c.
Proof.
  unfold space_then. destruct s as [ | c1 [ | c2 s]]; try discriminate.
  destruct (is_char " " c1) eqn:H1; try discriminate.
  destruct (p c2) eqn:H2; try discriminate.
  cbn [andb]. intros [= <- <-]. apply is_char_eq in H1. subst c1.
  exists c2. auto.
Qed.

Lemma literal_inv {B} (a : ascii) (s : str) (k : str -> option B) (x : B) :
  literal a s k = Some x -> exists r, s = ch a :: r /\ k r = Some x.
Proof.
  unfold literal. destruct s as [ | c r]; try discriminate.
  destruct (is_char a c) eqn:H; try discriminate.
  apply is_char_eq in H. subst c. eauto.
Qed.

(** From the range a character lies in to its possible values. *)
Ltac char_values :=
  repeat match goal with
    | H : is_char _ ?c = true |- _ =>
        apply is_char_eq in H; cbv in H; subst c
    | H : in_range _ _ ?c = true |- _ =>
        let D := fresh in
        apply in_range_digit in H; [ | cbv; discriminate | cbv; discriminate];
        destruct H as [D H];
        match type of H with
        | (ch ?lo <= _ <= ch ?hi)%N =>
            let a := eval vm_compute in (ch lo) in
            let b := eval vm_compute in (ch hi) in
            change (ch lo) with a in H; change (ch hi) with b in H
        end;
        apply digit_cases in D;
        repeat (destruct D as [D | D]; [subst c; try lia | ]);
        [.. | subst c; try lia]; clear H
    | H : is_digit ?c = true |- _ =>
        apply digit_cases in H;
        repeat (destruct H as [H | H]; [subst c | ]); [.. | subst c]
    end.

Lemma month_alt_inv (alt : matcher) (s : str) (m : Z) (r : str) :
  In alt month_alts -> alt s = Some (m, r) ->
  exists ms, s = ms ++ r /\ month_text ms m.
Proof.
  unfold month_alts, month_text. cbn [In].
  intros [<- | [<- | [<- | []]]] H.
  - apply two_chars_inv in H as (c1 & c2 & -> & H1 & H2 & ->).
    exists [c1; c2]. split; [reflexivity | ].
    char_values; vm_compute; repeat split; try discriminate; auto.
  - apply two_chars_inv in H as (c1 & c2 & -> & H1 & H2 & ->).
    exists [c1; c2]. split; [reflexivity | ].
    char_values; vm_compute; repeat split; try discriminate; auto.
  - apply one_char_inv in H as (c1 & -> & H1 & ->).
    exists [c1]. split; [reflexivity | ].
    char_values; vm_compute; repeat split; try discriminate;
      right; repeat split; discriminate.
Qed.

Lemma day_alt_inv (alt : matcher) (s : str) (d : Z) (r : str) :
  In alt day_alts -> alt s = Some (d, r) ->
  exists ds, s = ds ++ r /\ day_text ds d.
Proof.
  unfold day_alts, day_text. cbn [In].
  intros [<- | [<- | [<- | [<- | [<- | []]]]]] H.
  - apply two_chars_inv in H as (c1 & c2 & -> & H1 & H2 & ->).
    exists [c1; c2]. split; [reflexivity | ].
    char_values; vm_compute; repeat split; try discriminate; auto.
  - apply two_chars_inv in H as (c1 & c2 & -> & H1 & H2 & ->).
    exists [c1; c2]. split; [reflexivity | ].
    char_values; vm_compute; repeat split; try discriminate; auto.
  - apply two_chars_inv in H as (c1 & c2 & -> & H1 & H2 & ->).
    exists [c1; c2]. split; [reflexivity | ].
    char_values; vm_compute; repeat split; try discriminate; auto.
  - apply one_char_inv in H as (c1 & -> & H1 & ->).
    exists [c1]. split; [reflexivity | ].
    char_values; vm_compute; repeat split; try discriminate;
      right; repeat split; try discriminate; auto.
  - apply space_then_inv in H as (c1 & -> & H1 & ->).
    exists [32%N; c1]. split; [reflexivity | ].
    char_values; vm_compute; repeat split; try discriminate;
      right; repeat split; try discriminate; auto.
Qed.

Lemma literal_cons {B} (a : ascii) (r : str) (k : str -> option B) :
  literal a (ch a :: r) k = k r.
Proof. unfold literal, is_char. now rewrite N.eqb_refl. Qed.

Lemma match_format_inv (s : str) (y m d : Z) (r : str) :
  match_format s = Some (y, m, d, r) ->
  exists ms ds,
    s = four_digits y ++ ch "-" :: ms ++ ch "-" :: ds ++ r
    /\ 0 <= y <= 9999 /\ month_text ms m /\ day_text ds d.
Proof.
  unfold match_format.
  destruct (match_Y s) as [[y' s1] | ] eqn:EY; [ | discriminate].
  apply match_Y_inv in EY as [Hy ->].
  intros H.
  apply literal_inv in H as (s2 & -> & H).
  apply try_alts_inv in H as (alt & m' & s3 & Hin & Halt & H).
  apply literal_inv in H as (s4 & -> & H).
  apply try_alts_inv in H as (alt' & d' & s5 & Hin' & Halt' & H).
  injection H as <- <- <- <-.
  apply month_alt_inv in Halt as (ms & -> & Hms); [ | exact Hin].
  apply day_alt_inv in Halt' as (ds & -> & Hds); [ | exact Hin'].
  exists ms, ds. auto.
Qed.

Lemma month_text_matches {B} (ms : str) (m : Z) (r : str)
    (k : Z -> str -> option B) :
  month_text ms m ->
  try_alts month_alts (ms ++ ch "-" :: r) (fun m s3 => literal "-" s3 (k m))
  = k m r.
Proof.
  intros [Hm [-> | [H9 ->]]]; each_month m Hm; try lia;
    vm_compute; now destruct (k _ r).
Qed.

Lemma day_cases (d : Z) :
  1 <= d <= 31 ->
  d = 1 \/ d = 2 \/ d = 3 \/ d = 4 \/ d = 5 \/ d = 6 \/ d = 7 \/ d = 8
  \/ d = 9 \/ d = 10 \/ d = 11 \/ d = 12 \/ d = 13 \/ d = 14 \/ d = 15
  \/ d = 16 \/ d = 17 \/ d = 18 \/ d = 19 \/ d = 20 \/ d = 21 \/ d = 22
  \/ d = 23 \/ d = 24 \/ d = 25 \/ d = 26 \/ d = 27 \/ d = 28 \/ d = 29
  \/ d = 30 \/ d = 31.
Proof. lia. Qed.

Ltac each_day d H :=
  let C := fresh in
  pose proof (day_cases H) as C;
  repeat (destruct C as [C | C]; [subst d | ]); [.. | subst d].

Lemma day_text_matches {B} (ds : str) (d : Z) (f : Z -> str -> B) :
  day_text ds d ->
  try_alts day_alts ds (fun d s5 => Some (f d s5)) = Some (f d []).
Proof.
  intros [Hd [-> | [H9 [-> | ->]]]]; each_day d Hd; try lia; reflexivity.
Qed.

Lemma strptime_sound (s : str) (dt : date) :
  strptime (PStr s) = Ok dt -> lenient_date_text s dt.
Proof.
  unfold strptime. destruct (forallb is_ascii s); [ | discriminate].
  destruct (match_format s) as [[[[y m] d] r] | ] eqn:E; [ | discriminate].
  destruct r; [ | discriminate].
  apply match_format_inv in E as (ms & ds & -> & Hy & Hms & Hds).
  unfold new_date.
  destruct ((1 <=? y) && (y <=? 9999)) eqn:Cy; [ | discriminate].
  destruct ((1 <=? m) && (m <=? 12)) eqn:Cm; [ | discriminate].
  destruct ((1 <=? d) && (d <=? days_in_month y m)) eqn:Cd; [ | discriminate].
  cbn [negb]. intros [= <-].
  apply andb_true_iff in Cy as [Cy1 Cy2], Cm as [Cm1 Cm2], Cd as [Cd1 Cd2].
  apply Z.leb_le in Cy1, Cy2, Cm1, Cm2, Cd1, Cd2.
  split; [repeat split; assumption | ].
  exists ms, ds. rewrite app_nil_r. auto.
Qed.

Lemma forallb_app_true {A} (p : A -> bool) (l1 l2 : list A) :
  forallb p l1 = true -> forallb p l2 = true -> forallb p (l1 ++ l2) = true.
Proof. intros H1 H2. rewrite forallb_app, H1, H2. reflexivity. Qed.

Lemma lenient_text_ascii (s : str) (dt : date) :
  lenient_date_text s dt -> forallb is_ascii s = true.
Proof.
  intros (_ & ms & ds & -> & [_ Hms] & [_ Hds]).
  apply forallb_app_true.
  { cbn. now rewrite !dig_is_ascii. }
  cbn [forallb]. apply andb_true_iff; split; [reflexivity | ].
  apply forallb_app_true.
  { destruct Hms as [-> | [_ ->]]; cbn; now rewrite !dig_is_ascii. }
  cbn [forallb]. apply andb_true_iff; split; [reflexivity | ].
  destruct Hds as [-> | [_ [-> | ->]]]; cbn; now rewrite !dig_is_ascii.
Qed.

Lemma strptime_complete (s : str) (dt : date) :
  lenient_date_text s dt -> strptime (PStr s) = Ok dt.
Proof.
  intros H. pose proof (lenient_text_ascii H) as A.
  destruct H as ((Hy & Hm & Hd) & ms & ds & -> & Hms & Hds).
  unfold strptime. rewrite A. unfold match_format.
  rewrite match_Y_four_digits by lia.
  rewrite literal_cons.
  rewrite (month_text_matches _ (fun m s4 => try_alts day_alts s4
             (fun d s5 => Some (year dt, m, d, s5))) Hms).
  rewrite (day_text_matches (fun d s5 => (year dt, month dt, d, s5)) Hds).
  unfold new_date.
  replace ((1 <=? year dt) && (year dt <=? 9999)) with true
    by (symmetry; apply andb_true_iff; split; apply Z.leb_le; lia).
  replace ((1 <=? month dt) && (month dt <=? 12)) with true
    by (symmetry; apply andb_true_iff; split; apply Z.leb_le; lia).
  replace ((1 <=? day dt) && (day dt <=? days_in_month (year dt) (month dt)))
    with true
    by (symmetry; apply andb_true_iff; split; apply Z.leb_le; lia).
  cbn [negb]. now destruct dt.
Qed.

(** [strptime] accepts exactly the lenient date texts. *)
Lemma strptime_accepts (s : str) (dt : date) :
  strptime (PStr s) = Ok dt <-> lenient_date_text s dt.
Proof. split; [apply strptime_sound | apply strptime_complete]. Qed.

Lemma days_in_month_le_31 (y m : Z) : 1 <= m <= 12 -> days_in_month y m <= 31.
Proof.
  intros Hm. unfold days_in_month.
  each_month m Hm; eval_month; destruct (is_leap y); lia.
Qed.

Lemma isoformat_lenient (dt : date) :
  valid_date dt -> lenient_date_text (isoformat dt) dt.
Proof.
  intros V. split; [assumption | ].
  exists (two_digits (month dt)), (two_digits (day dt)).
  destruct V as (Hy & Hm & Hd).
  pose proof (days_in_month_le_31 (year dt) Hm).
  repeat split; try tauto; try lia.
Qed.

Lemma strptime_isoformat (dt : date) :
  valid_date dt -> strptime (PStr (isoformat dt)) = Ok dt.
Proof. intros V. now apply strptime_complete, isoformat_lenient. Qed.

Lemma isoformat_length (dt : date) : length (isoformat dt) = 10%nat.
Proof. reflexivity. Qed.


(** ** Dictionaries *)

Lemma dict_set_fresh {V} (d : dict V) (k : str) (v : V) :
  ~ In k (dict_keys d) -> dict_set d k v = d ++ [(k, v)].
Proof.
  induction d as [ | [k' v'] d IH]; cbn; [reflexivity | ].
  intros H. destruct (str_eqb k' k) eqn:E.
  - apply str_eqb_eq in E. tauto.
  - f_equal. apply IH. tauto.
Qed.

Lemma dict_get_in {V} (d : dict V) (k : str) (v : V) :
  dict_wf d -> In (k, v) d -> dict_get d k = Some v.
Proof.
  unfold dict_wf, dict_keys.
  induction d as [ | [k' v'] d IH]; cbn; [tauto | ].
  intros W [[= -> ->] | H].
  - now rewrite str_eqb_refl.
  - inversion W as [ | ? ? N W']; subst.
    destruct (str_eqb k' k) eqn:E.
    + apply str_eqb_eq in E. subst k'.
      exfalso. apply N. now apply (in_map fst) in H.
    + now apply IH.
Qed.

(** ** [calculate_days_to_expiry] *)

(** When every date string is read as a date, the comprehension yields the
    day differences, in the order of the items. *)
Lemma days_comprehension_ok (today : date) (m : list (str * date))
    (items : list (str * pyval)) (acc : dict pyval) :
  Forall2 (fun item kd => fst item = fst kd
                          /\ strptime (snd item) = Ok (snd kd)) items m ->
  NoDup (dict_keys acc ++ map fst m) ->
  days_comprehension today items acc
  = Ok (acc ++ map (fun kd => (fst kd, PInt (days_between (snd kd) today))) m).
Proof.
  intros F. revert acc.
  induction F as [ | [k v] [k' d] items m [Hk Hv] F IH]; intros acc N; cbn.
  - now rewrite app_nil_r.
  - cbn in Hk, Hv. subst k'. rewrite Hv. cbn.
    assert (Fresh : ~ In k (dict_keys acc)).
    { intros I. apply NoDup_remove_2 in N. apply N.
      apply in_or_app. now left. }
    rewrite dict_set_fresh by assumption.
    rewrite IH.
    + now rewrite <- app_assoc.
    + unfold dict_keys. rewrite map_app. cbn. rewrite <- app_assoc. exact N.
Qed.




(** ** The handlers on a JSON object *)

Lemma to_json_error_body (e : exn) : to_json (error_body e) = Ok (error_body e).
Proof. reflexivity. Qed.

Lemma bind_lift_ok {A B} (a : A) (f : A -> M B) : bind (lift (Ok a)) f = f a.
Proof. unfold bind, lift. now destruct (f a). Qed.

Lemma generate_meal_plan_dict (w : world) (fields : dict pyval) :
  generate_meal_plan w (PDict fields)
  = match calculate_days_to_expiry (today w)
            (get_default fields (u "expiry_dates") (PDict [])) with
    | Ok days =>
        let input := meal_input fields days in
        ([CallChain ChainMeal input],
         normalized_response (chain_invoke w ChainMeal input))
    | Raise e => ([], Ok (Response 400 (error_body e) []))
    | Unmodelled => ([], Unmodelled)
    end.
Proof.
  unfold generate_meal_plan, py_get. rewrite !bind_lift_ok.
  destruct (calculate_days_to_expiry _ _) as [days | e | ]; try reflexivity.
  rewrite bind_lift_ok. cbv zeta. fold (meal_input fields days).
  unfold normalized_response.
  destruct (chain_invoke w ChainMeal _) as [raw | e | ]; try reflexivity.
  unfold perform, bind at 1, jsonify.
  destruct (json_loads (cleaned raw)) as [v | e | ]; try reflexivity.
  rewrite bind_lift_ok.
  destruct (to_json v) as [b | e | ]; reflexivity.
Qed.

Lemma generate_recipe_dict (w : world) (fields : dict pyval) :
  generate_recipe w (PDict fields)
  = match calculate_days_to_expiry (today w)
            (get_default fields (u "expiry_dates") (PDict [])) with
    | Ok days =>
        let input := recipe_input fields days in
        ([CallChain ChainRecipe input],
         normalized_response (chain_invoke w ChainRecipe input))
    | Raise e => ([], Ok (Response 400 (error_body e) []))
    | Unmodelled => ([], Unmodelled)
    end.
Proof.
  unfold generate_recipe, py_get. rewrite !bind_lift_ok.
  destruct (calculate_days_to_expiry _ _) as [days | e | ]; try reflexivity.
  rewrite bind_lift_ok. cbv zeta. fold (recipe_input fields days).
  unfold normalized_response.
  destruct (chain_invoke w ChainRecipe _) as [raw | e | ]; try reflexivity.
  unfold perform, bind at 1, jsonify.
  destruct (json_loads (cleaned raw)) as [v | e | ]; try reflexivity.
  rewrite bind_lift_ok.
  destruct (to_json v) as [b | e | ]; reflexivity.
Qed.

(** ** Claims on the expiry calculator *)

(** C1.  For an inventory [m] of items with calendar dates, given to the
    calculator as [YYYY-MM-DD] strings, [calculate_days_to_expiry] returns a
    dictionary with the same keys, in the same order, whose value at each
    item is the number of days from [today] to its date,
    [(date - today).days]; a date three days after today gives 3, and the
    value is negative exactly when the date is before today. *)
Theorem calculate_days_to_expiry_iso (today : date) (m : list (str * date)) :
  valid_date today ->
  NoDup (map fst m) ->
  Forall (fun kd => valid_date (snd kd)) m ->
  calculate_days_to_expiry today (PDict (iso_items m))
  = Ok (PDict (days_items today m))
  /\ dict_keys (days_items today m) = dict_keys (iso_items m)
  /\ (forall k d, In (k, d) m ->
        strptime (PStr (isoformat d)) = Ok d
        /\ dict_get (days_items today m) k
           = Some (PInt (toordinal d - toordinal today))
        /\ (toordinal d = toordinal today + 3 ->
            dict_get (days_items today m) k = Some (PInt 3))
        /\ (toordinal d - toordinal today < 0 <-> date_lt d today)).
Proof.
  intros Vt N V.
  assert (K : dict_keys (days_items today m) = map fst m).
  { unfold dict_keys, days_items. rewrite map_map. reflexivity. }
  split; [ | split].
  - unfold calculate_days_to_expiry.
    rewrite (@days_comprehension_ok today m (iso_items m) []).
    + reflexivity.
    + unfold iso_items. clear N K.
      induction V as [ | kd m Hv V IH]; cbn [map]; constructor;
        [ | exact IH].
      cbn [fst snd]. split; [reflexivity | ].
      now apply strptime_isoformat.
    + exact N.
  - rewrite K. unfold dict_keys, iso_items. rewrite map_map. reflexivity.
  - intros k d I.
    assert (Vd : valid_date d).
    { rewrite Forall_forall in V. exact (V _ I). }
    assert (G : dict_get (days_items today m) k
                = Some (PInt (toordinal d - toordinal today))).
    { apply dict_get_in.
      - unfold dict_wf. now rewrite K.
      - unfold days_items.
        apply (in_map (fun kd => (fst kd, PInt (days_between (snd kd) today))))
          in I.
        exact I. }
    repeat split.
    + now apply strptime_isoformat.
    + exact G.
    + intros E. rewrite G. do 2 f_equal. lia.
    + intros L. apply toordinal_lt_iff; trivial. lia.
    + intros L. apply toordinal_lt_iff in L; trivial. lia.
Qed.

Lemma calculate_days_to_expiry_iso_witness :
  calculate_days_to_expiry (Date 2024 2 27)
    (PDict [(u "Milk", PStr (u "2024-03-01"));
            (u "Eggs", PStr (u "2024-01-05"))])
  = Ok (PDict [(u "Milk", PInt 3); (u "Eggs", PInt (-53))]).
Proof.
  assert (V : forall y m d,
             (1 <=? y) && (y <=? 9999) && (1 <=? m) && (m <=? 12)
             && (1 <=? d) && (d <=? days_in_month y m) = true ->
             valid_date (Date y m d)).
  { intros y m d H. unfold valid_date; cbn.
    repeat (apply andb_true_iff in H as [H ?]).
    repeat split; now apply Z.leb_le. }
  refine (proj1 (@calculate_days_to_expiry_iso (Date 2024 2 27)
                   [(u "Milk", Date 2024 3 1); (u "Eggs", Date 2024 1 5)]
                   _ _ _)).
  - now apply V.
  - repeat constructor; cbn; intuition discriminate.
  - repeat constructor; now apply V.
Defined.





(** ** Stripping *)

Lemma dropwhile_head (p : char -> bool) (s : str) (c : char) (r : str) :
  dropwhile p s = c :: r -> p c = false.
Proof.
  induction s as [ | a s IH]; cbn; [discriminate | ].
  destruct (p a) eqn:E; [exact IH | ]. now intros [= <- <-].
Qed.

Lemma dropwhile_suffix (p : char -> bool) (s : str) :
  exists w, s = w ++ dropwhile p s /\ forallb p w = true.
Proof.
  induction s as [ | a s (w & E & F)]; cbn.
  - now exists [].
  - destruct (p a) eqn:Pa.
    + exists (a :: w). cbn. rewrite Pa, F. split; [now f_equal | reflexivity].
    + now exists [].
Qed.

Lemma dropwhile_app (p : char -> bool) (w s : str) :
  forallb p w = true -> dropwhile p (w ++ s) = dropwhile p s.
Proof.
  induction w as [ | a w IH]; cbn; [reflexivity | ].
  intros H. apply andb_true_iff in H as [-> H]. now apply IH.
Qed.

Lemma dropwhile_all (p : char -> bool) (w : str) :
  forallb p w = true -> dropwhile p w = [].
Proof.
  intros H. rewrite <- (app_nil_r w). now rewrite dropwhile_app.
Qed.

Lemma dropwhile_stop (p : char -> bool) (c : char) (s : str) :
  p c = false -> dropwhile p (c :: s) = c :: s.
Proof. cbn. now intros ->. Qed.

Lemma forallb_rev {A} (p : A -> bool) (l : list A) :
  forallb p (rev l) = forallb p l.
Proof.
  induction l as [ | a l IH]; cbn; [reflexivity | ].
  rewrite forallb_app, IH. cbn. rewrite andb_true_r. apply andb_comm.
Qed.

Lemma rstrip_by_prefix (p : char -> bool) (s : str) :
  exists w, s = rstrip_by p s ++ w /\ forallb p w = true.
Proof.
  unfold rstrip_by.
  destruct (dropwhile_suffix p (rev s)) as (w & E & F).
  exists (rev w). split.
  - rewrite <- rev_app_distr, <- E. now rewrite rev_involutive.
  - now rewrite forallb_rev.
Qed.

Lemma rstrip_by_last (p : char -> bool) (s r : str) (c : char) :
  rstrip_by p s = r ++ [c] -> p c = false.
Proof.
  unfold rstrip_by. intros H.
  apply (f_equal (@rev char)) in H.
  rewrite rev_involutive, rev_app_distr in H. cbn in H.
  now apply dropwhile_head in H.
Qed.

Lemma strip_by_edges (p : char -> bool) (s : str) : edges p (strip_by p s).
Proof.
  unfold strip_by, lstrip_by. split.
  - intros c r H.
    destruct (rstrip_by_prefix p (dropwhile p s)) as (w & E & _).
    rewrite H in E. cbn in E. now apply dropwhile_head in E.
  - intros r c H. now apply rstrip_by_last in H.
Qed.

(** Stripping removes the blanks around a text with solid edges. *)
Lemma strip_by_core (p : char -> bool) (w1 b w2 : str) :
  forallb p w1 = true -> forallb p w2 = true -> edges p b ->
  strip_by p (w1 ++ b ++ w2) = b.
Proof.
  intros F1 F2 [Hh Hl]. unfold strip_by, lstrip_by, rstrip_by.
  rewrite dropwhile_app by assumption.
  destruct b as [ | c b].
  - cbn [app]. rewrite (dropwhile_all p w2 F2). reflexivity.
  - cbn [app]. rewrite dropwhile_stop by (eapply Hh; reflexivity).
    change (c :: b ++ w2) with ((c :: b) ++ w2).
    rewrite rev_app_distr.
    rewrite dropwhile_app by (rewrite forallb_rev; exact F2).
    destruct (rev (c :: b)) as [ | l t] eqn:E.
    + apply (f_equal (@rev char)) in E. rewrite rev_involutive in E.
      discriminate.
    + rewrite dropwhile_stop.
      * rewrite <- E. apply rev_involutive.
      * apply (Hl (rev t)).
        apply (f_equal (@rev char)) in E. rewrite rev_involutive in E.
        exact E.
Qed.

Lemma edges_weaken (p q : char -> bool) (b : str) :
  (forall c, q c = true -> p c = true) -> edges p b -> edges q b.
Proof.
  intros I [Hh Hl]. split.
  - intros c r E. specialize (Hh c r E).
    destruct (q c) eqn:Q; [ | reflexivity]. apply I in Q. congruence.
  - intros r c E. specialize (Hl r c E).
    destruct (q c) eqn:Q; [ | reflexivity]. apply I in Q. congruence.
Qed.

Lemma strip_by_id (p : char -> bool) (b : str) :
  edges p b -> strip_by p b = b.
Proof.
  intros E. pose proof (@strip_by_core p [] b [] eq_refl eq_refl E) as H.
  cbn [app] in H. now rewrite app_nil_r in H.
Qed.

(** ** The fence substitution *)

Lemma match_literal_ci_split (pat s r : str) :
  match_literal_ci pat s = Some r ->
  exists f, s = f ++ r /\ length f = length pat
            /\ Forall2 (fun p c => matches_ignorecase p c = true) pat f.
Proof.
  revert s. induction pat as [ | p pat IH]; intros s; cbn.
  - intros [= <-]. exists []. repeat split. constructor.
  - destruct s as [ | c s]; [discriminate | ].
    destruct (matches_ignorecase p c) eqn:M; [ | discriminate].
    intros H. destruct (IH _ H) as (f & -> & L & F).
    exists (c :: f). cbn. repeat split; auto.
Qed.

Lemma match_trailing_fence_long (c : char) (p : str) (a b d : char) :
  d <> 10%N ->
  match_trailing_fence (c :: p ++ [a; b; d]) = None.
Proof.
  intros Hd. unfold match_trailing_fence.
  destruct p as [ | p1 [ | p2 [ | p3 p]]]; cbn [app].
  - replace (at_dollar [d]) with false.
    + now rewrite andb_false_r.
    + cbn. symmetry. now apply N.eqb_neq.
  - cbn. now rewrite andb_false_r.
  - cbn. now rewrite andb_false_r.
  - replace (at_dollar (p3 :: p ++ [a; b; d])) with false.
    + now rewrite andb_false_r.
    + cbn. destruct p; reflexivity.
Qed.

Lemma sub_after_start_fence (p : str) :
  sub_after_start (p ++ [backtick; backtick; backtick]) = p.
Proof.
  induction p as [ | c p IH]; [reflexivity | ].
  cbn [app]. unfold sub_after_start; fold sub_after_start.
  rewrite match_trailing_fence_long by discriminate.
  now rewrite IH.
Qed.

Lemma sub_after_start_keep (p : str) (a b d : char) :
  d <> 10%N ->
  (a =? backtick)%N && (b =? backtick)%N && (d =? backtick)%N = false ->
  sub_after_start (p ++ [a; b; d]) = p ++ [a; b; d].
Proof.
  intros Hd Hf. induction p as [ | c p IH].
  - cbn. now rewrite Hf.
  - cbn [app]. unfold sub_after_start; fold sub_after_start.
    rewrite match_trailing_fence_long by assumption.
    now rewrite IH.
Qed.

Lemma sub_after_start_trailing (s : str) :
  no_final_newline s -> sub_after_start s = drop_trailing_fence s.
Proof.
  intros H. unfold drop_trailing_fence.
  destruct (rev s) as [ | d [ | b [ | a r]]] eqn:E;
    apply (f_equal (@rev char)) in E; rewrite rev_involutive in E;
    cbn in E; subst s; try reflexivity.
  rewrite <- !app_assoc in *. cbn [app] in *.
  assert (Hd : d <> 10%N).
  { intros ->. apply (H (rev r ++ [a; b])). now rewrite <- app_assoc. }
  destruct ((d =? backtick)%N && (b =? backtick)%N && (a =? backtick)%N)
    eqn:F.
  - apply andb_true_iff in F as [F Fa]. apply andb_true_iff in F as [Fd Fb].
    apply N.eqb_eq in Fa, Fb, Fd. subst. apply sub_after_start_fence.
  - apply sub_after_start_keep; [assumption | ].
    rewrite <- F.
    destruct (a =? backtick)%N, (b =? backtick)%N, (d =? backtick)%N;
      reflexivity.
Qed.

Lemma no_final_newline_edges (p : char -> bool) (s : str) :
  p 10%N = true -> edges p s -> no_final_newline s.
Proof.
  intros P [_ Hl] r E. apply Hl in E. congruence.
Qed.

Lemma no_final_newline_suffix (f s : str) :
  no_final_newline (f ++ s) -> no_final_newline s.
Proof.
  intros H r E. apply (H (f ++ r)). rewrite E. now rewrite app_assoc.
Qed.

Lemma py_strip_no_final_newline (s : str) : no_final_newline (py_strip s).
Proof.
  apply (@no_final_newline_edges py_isspace); [reflexivity | ].
  apply strip_by_edges.
Qed.

Lemma re_sub_fences_spec (s : str) :
  no_final_newline s ->
  re_sub_fences s = drop_trailing_fence (drop_leading_fence s).
Proof.
  intros H. unfold re_sub_fences, drop_leading_fence.
  destruct (match_literal_ci fence_json s) as [r | ] eqn:E.
  - apply sub_after_start_trailing.
    apply match_literal_ci_split in E as (f & -> & _).
    now apply no_final_newline_suffix in H.
  - now apply sub_after_start_trailing.
Qed.

Lemma match_literal_ci_app (pat f rest : str) :
  Forall2 (fun p c => matches_ignorecase p c = true) pat f ->
  match_literal_ci pat (f ++ rest) = Some rest.
Proof.
  induction 1 as [ | p c pat f M F IH]; cbn; [reflexivity | ].
  now rewrite M.
Qed.

Lemma drop_trailing_fence_app (p : str) :
  drop_trailing_fence (p ++ [backtick; backtick; backtick]) = p.
Proof.
  unfold drop_trailing_fence. rewrite rev_app_distr. cbn.
  apply rev_involutive.
Qed.

(** ** Claim on the cleaning of the model's text *)


(** ** [extract_items] *)

Lemma extract_items_image (w : world) (files : list (str * upload))
    (f : upload) :
  dict_get files (u "image") = Some f ->
  extract_items w files
  = match Image_open w f with
    | Ok img =>
        match image_to_string w img with
        | Ok text =>
            match chain_invoke w ChainItems (items_input text) with
            | Ok raw =>
                ([CallImageOpen f; CallOCR img;
                  CallChain ChainItems (items_input text)],
                 items_response raw)
            | Raise e =>
                ([CallImageOpen f; CallOCR img;
                  CallChain ChainItems (items_input text)], Raise e)
            | Unmodelled =>
                ([CallImageOpen f; CallOCR img;
                  CallChain ChainItems (items_input text)], Unmodelled)
            end
        | Raise e => ([CallImageOpen f; CallOCR img], Raise e)
        | Unmodelled => ([CallImageOpen f; CallOCR img], Unmodelled)
        end
    | Raise e => ([CallImageOpen f], Raise e)
    | Unmodelled => ([CallImageOpen f], Unmodelled)
    end.
Proof.
  intros H. unfold extract_items. rewrite H.
  destruct (Image_open w f) as [img | e | ]; try reflexivity.
  unfold perform at 1, bind at 1.
  destruct (image_to_string w img) as [text | e | ]; try reflexivity.
  unfold perform at 1, bind at 1. fold (items_input text).
  destruct (chain_invoke w ChainItems _) as [raw | e | ]; try reflexivity.
  unfold perform at 1, bind at 1, items_response.
  destruct (literal_eval raw) as [v | e | ]; try reflexivity.
  cbn. destruct (to_json v) as [j | e | ]; reflexivity.
Qed.

(** C7.  A request to [/extract-items] without a file named [image] is
    answered with status 400 and the body [{"error": "No image provided"}],
    and no call to the OCR or to the model is made. *)
Theorem extract_items_no_image (w : world) (files : list (str * upload)) :
  dict_get files (u "image") = None ->
  extract_items w files
  = ([], Ok (Response 400
               (PDict [(u "error", PStr (u "No image provided"))]) [])).
Proof. intros H. unfold extract_items. now rewrite H. Qed.

Lemma extract_items_no_image_witness :
  extract_items ocr_down [(u "photo", u "bytes")]
  = ([], Ok (Response 400
               (PDict [(u "error", PStr (u "No image provided"))]) [])).
Proof.
  apply (@extract_items_no_image ocr_down [(u "photo", u "bytes")]).
  reflexivity.
Defined.

(** The two JSON handlers let no exception out. *)
Lemma normalized_response_no_raise (answer : result str) (e : exn) :
  normalized_response answer <> Raise e.
Proof.
  unfold normalized_response.
  destruct answer as [raw | e' | ]; try discriminate.
  destruct (json_loads _) as [v | e' | ]; try discriminate.
  destruct (to_json v); discriminate.
Qed.

Lemma py_get_not_dict (data : pyval) (key : str) (default : pyval) :
  (forall fields, data <> PDict fields) ->
  py_get data key default = Raise (no_attribute data (u "get")).
Proof. destruct data; intros H; try reflexivity. now destruct (H items). Qed.

Lemma is_dict (data : pyval) :
  (exists fields, data = PDict fields) \/ (forall fields, data <> PDict fields).
Proof. destruct data; try (right; discriminate). left; eauto. Qed.

Lemma generate_meal_plan_not_dict (w : world) (data : pyval) :
  (forall fields, data <> PDict fields) ->
  generate_meal_plan w data
  = ([], Ok (Response 400 (error_body (no_attribute data (u "get"))) [])).
Proof.
  intros H. unfold generate_meal_plan.
  rewrite (py_get_not_dict (u "age") PNone H). reflexivity.
Qed.

Lemma generate_recipe_not_dict (w : world) (data : pyval) :
  (forall fields, data <> PDict fields) ->
  generate_recipe w data
  = ([], Ok (Response 400 (error_body (no_attribute data (u "get"))) [])).
Proof.
  intros H. unfold generate_recipe.
  rewrite (py_get_not_dict (u "meal") PNone H). reflexivity.
Qed.

Lemma generate_meal_plan_catches (w : world) (data : pyval) (e : exn) :
  snd (generate_meal_plan w data) <> Raise e.
Proof.
  destruct (is_dict data) as [[fields ->] | ND].
  - rewrite generate_meal_plan_dict.
    destruct (calculate_days_to_expiry _ _); cbn [snd]; try discriminate.
    apply normalized_response_no_raise.
  - rewrite (generate_meal_plan_not_dict w ND). discriminate.
Qed.

Lemma generate_recipe_catches (w : world) (data : pyval) (e : exn) :
  snd (generate_recipe w data) <> Raise e.
Proof.
  destruct (is_dict data) as [[fields ->] | ND].
  - rewrite generate_recipe_dict.
    destruct (calculate_days_to_expiry _ _); cbn [snd]; try discriminate.
    apply normalized_response_no_raise.
  - rewrite (generate_recipe_not_dict w ND). discriminate.
Qed.

(** An exception of the OCR or of the model leaves [extract_items]. *)
Lemma extract_items_lets_exceptions_out (w : world)
    (files : list (str * upload)) (f : upload) (img : image) (e : exn) :
  dict_get files (u "image") = Some f ->
  Image_open w f = Ok img ->
  (image_to_string w img = Raise e ->
   extract_items w files = ([CallImageOpen f; CallOCR img], Raise e))
  /\ (forall text,
        image_to_string w img = Ok text ->
        chain_invoke w ChainItems (items_input text) = Raise e ->
        snd (extract_items w files) = Raise e).
Proof.
  intros H O. rewrite (extract_items_image w files H), O. split.
  - now intros ->.
  - intros text -> ->. reflexivity.
Qed.

(** C2, the code at the failing input: with a file named [image] and an OCR
    engine that raises, the exception leaves [extract_items] (no JSON error
    body is made), where the two other handlers turn an exception of
    their chain into the 400 response. *)
Theorem extract_items_ocr_failure_escapes :
  extract_items ocr_down [(u "image", u "bytes")]
  = ([CallImageOpen (u "bytes"); CallOCR (Image (u "bytes"))],
     Raise tesseract_error)
  /\ snd (generate_meal_plan (answering [] (Raise tesseract_error)) (PDict []))
     = Ok (Response 400 (error_body tesseract_error) [])
  /\ snd (generate_recipe (answering [] (Raise tesseract_error)) (PDict []))
     = Ok (Response 400 (error_body tesseract_error) []).
Proof. repeat split; reflexivity. Qed.

(** C6, the code at the failing input: the model's answer is a list literal
    inside a [```json] fence.  [extract_items] gives the raw text to
    [literal_eval], which raises, and answers 500 with the raw text; the
    cleaning that the two other handlers apply would have left a text that
    [literal_eval] reads as the list. *)
Theorem extract_items_does_not_strip_fences :
  let raw := u "```json" ++ newline ++ u "['Milk', 'Eggs']" ++ newline
             ++ u "```" in
  snd (extract_items (answering (u "MILK 2.99") (Ok raw))
         [(u "image", u "bytes")])
  = Ok (Response 500
          (PDict [(u "error", PStr (u "Failed to parse LLM response"));
                  (u "llm_output", PStr raw)]) [])
  /\ literal_eval (cleaned raw) = Ok (PList [PStr (u "Milk"); PStr (u "Eggs")]).
Proof. split; reflexivity. Qed.

(** ** [jsonify] *)

Lemma pyval_induction (P : pyval -> Prop) :
  P PNone -> (forall b, P (PBool b)) -> (forall z, P (PInt z)) ->
  (forall lit, P (PFloat lit)) -> (forall s, P (PStr s)) ->
  (forall l, Forall P l -> P (PList l)) ->
  (forall l, Forall P l -> P (PTuple l)) ->
  (forall items, Forall (fun kv => P (snd kv)) items -> P (PDict items)) ->
  (forall l, Forall P l -> P (PSet l)) ->
  forall v, P v.
Proof.
  intros HN HB HI HF HS HL HT HD HSet.
  fix IH 1. intros v.
  assert (A : forall l : list pyval, Forall P l).
  { intros l. induction l as [ | x l IHl]; constructor; [apply IH | exact IHl]. }
  destruct v as [ | b | z | lit | s | l | l | items | l];
    [exact HN | apply HB | apply HI | apply HF | apply HS
    | apply HL, A | apply HT, A | | apply HSet, A].
  apply HD. induction items as [ | [k x] items IHi]; constructor;
    [apply IH | exact IHi].
Qed.

Lemma to_json_list (l : list pyval) :
  Forall (fun v => serializable v = true -> to_json v = Ok (as_json v)) l ->
  forallb serializable l = true ->
  (fix all (l : list pyval) : result (list pyval) :=
     match l with
     | [] => Ok []
     | x :: l' => (y <- to_json x ;; ys <- all l' ;; Ok (y :: ys))%res
     end) l = Ok (map as_json l).
Proof.
  induction 1 as [ | x l Hx F IH]; cbn [forallb map]; [reflexivity | ].
  intros H. apply andb_true_iff in H as [H1 H2].
  rewrite (Hx H1). cbn [rbind]. now rewrite (IH H2).
Qed.

Lemma to_json_serializable (v : pyval) :
  serializable v = true -> to_json v = Ok (as_json v).
Proof.
  induction v as [ | b | z | lit | s | l IH | l IH | items IH | l IH]
    using pyval_induction; try reflexivity; try discriminate.
  - intros H. cbn [serializable] in H. cbn [to_json as_json].
    now rewrite (to_json_list IH H).
  - intros H. cbn [serializable] in H. cbn [to_json as_json].
    now rewrite (to_json_list IH H).
  - intros H. cbn [serializable] in H. cbn [to_json as_json].
    assert (E : (fix all_items (l : list (str * pyval))
                   : result (list (str * pyval)) :=
                   match l with
                   | [] => Ok []
                   | (k, x) :: l' =>
                       (y <- to_json x ;; ys <- all_items l' ;;
                        Ok ((k, y) :: ys))%res
                   end) items
                = Ok (map (fun kv => (fst kv, as_json (snd kv))) items)).
    { induction IH as [ | [k x] items Hx F IHi]; cbn [forallb map] in *;
        [reflexivity | ].
      apply andb_true_iff in H as [H1 H2]. cbn [snd fst] in *.
      rewrite (Hx H1). cbn [rbind]. now rewrite (IHi H2). }
    now rewrite E.
Qed.

(** ** Claims on the responses *)






(** ** The string scanner *)

Lemma scanstring_step (begin s acc : str) :
  scanstring begin s acc
  = match string_step begin s with
    | Done r => Scanned acc r
    | More c r => scanstring begin r (acc ++ [c])
    | Bad m a => Failed m a
    end.
Proof.
  unfold string_step.
  destruct s as [ | c r]; [reflexivity | ].
  cbn [scanstring].
  destruct (c =? 34)%N; [reflexivity | ].
  destruct (c =? 92)%N; [ | destruct (c <=? 31)%N; reflexivity].
  destruct r as [ | e r1]; [reflexivity | ].
  destruct (e =? 117)%N; [ | destruct (simple_escape e); reflexivity].
  destruct r1 as [ | h1 [ | h2 [ | h3 [ | h4 [ | x r2]]]]]; try reflexivity.
  destruct (decode_hex4 h1 h2 h3 h4) as [c1 | ]; [ | reflexivity].
  destruct r2 as [ | u2 [ | g1 [ | g2 [ | g3 [ | g4 [ | y r5]]]]]];
    try reflexivity.
  destruct (is_high_surrogate c1 && (x =? 92)%N && (u2 =? 117)%N);
    [ | reflexivity].
  destruct (decode_hex4 g1 g2 g3 g4) as [c2 | ]; [ | reflexivity].
  destruct (is_low_surrogate c2); reflexivity.
Qed.

Lemma string_step_done (begin s r : str) :
  string_step begin s = Done r -> s = 34%N :: r.
Proof.
  unfold string_step.
  destruct s as [ | c s]; [discriminate | ].
  destruct (c =? 34)%N eqn:Q.
  - apply N.eqb_eq in Q. now intros [= <-]; subst.
  - repeat match goal with
           | |- context [match ?x with _ => _ end] => destruct x
           end; discriminate.
Qed.

(** The second half of the [\u] case: one character unless a low surrogate
    follows a high one. *)
Lemma surrogate_single (c1 : N) (r2 : str) :
  is_high_surrogate c1 && pair_head r2 = false ->
  match r2 with
  | b2 :: u2 :: g1 :: g2 :: g3 :: g4 :: ((_ :: _) as r5) =>
      if is_high_surrogate c1 && (b2 =? 92)%N && (u2 =? 117)%N
      then
        match decode_hex4 g1 g2 g3 g4 with
        | None => Bad msg_uescape (u2 :: g1 :: g2 :: g3 :: g4 :: r5)
        | Some c2 =>
            if is_low_surrogate c2
            then More (join_surrogates c1 c2) r5
            else More c1 r2
        end
      else More c1 r2
  | _ => More c1 r2
  end = More c1 r2.
Proof.
  intros H.
  destruct r2 as [ | b2 [ | u2 [ | g1 [ | g2 [ | g3 [ | g4 [ | y r5]]]]]]];
    try reflexivity.
  cbn [pair_head] in H. rewrite <- andb_assoc, H. reflexivity.
Qed.

Lemma pair_head_app (b t : str) :
  (2 <= length b)%nat -> pair_head (b ++ t) = pair_head b.
Proof. destruct b as [ | x [ | y b]]; cbn; [lia | lia | reflexivity]. Qed.

Lemma string_body_head (b r0 t : str) :
  string_body b -> pair_head (b ++ r0) = false -> pair_head (b ++ t) = false.
Proof.
  intros [[b' ->] _] H.
  destruct b' as [ | x [ | y b']]; [now destruct t | exact H | exact H].
Qed.

Lemma string_body_long (b r0 : str) :
  string_body b -> pair_head (b ++ r0) = true ->
  exists y1 y2 y3 y4 y5 y6 y7 b8, b = y1 :: y2 :: y3 :: y4 :: y5 :: y6 :: y7 :: b8.
Proof.
  intros [[b' E] L] H.
  destruct b as [ | x [ | y b]].
  - destruct b'; discriminate.
  - destruct b' as [ | ? [ | ]]; try discriminate.
    injection E as ->. destruct r0; discriminate.
  - cbn in H. apply andb_true_iff in H as [Hx Hy].
    apply N.eqb_eq in Hx, Hy.
    specialize (L x y b eq_refl Hx Hy). cbn in L.
    destruct b as [ | y3 [ | y4 [ | y5 [ | y6 [ | y7 b8]]]]]; cbn in L;
      try lia.
    repeat eexists.
Qed.

Lemma pair_head_first (a : char) (s : str) :
  (a =? 92)%N = false -> pair_head (a :: s) = false.
Proof. intros H. destruct s; cbn; [reflexivity | now rewrite H]. Qed.

Lemma pair_head_second (a e : char) (s : str) :
  (e =? 117)%N = false -> pair_head (a :: e :: s) = false.
Proof. intros H. cbn. now rewrite H, andb_false_r. Qed.

Lemma string_step_more (begin s : str) (c : char) (r : str) :
  string_step begin s = More c r ->
  exists p,
    s = p ++ r /\ (1 <= length p)%nat
    /\ (pair_head s = true -> 6 <= length p)%nat
    /\ forall begin' b r0 t,
         r = b ++ r0 -> string_body b ->
         string_step begin' (p ++ b ++ t) = More c (b ++ t).
Proof.
  unfold string_step.
  destruct s as [ | a s]; [discriminate | ].
  destruct (a =? 34)%N eqn:Qa; [discriminate | ].
  destruct (a =? 92)%N eqn:Ba.
  2: { destruct (a <=? 31)%N eqn:Ca; [discriminate | ].
       intros [= <- <-]. exists [a]. repeat split; try (cbn; lia).
       - rewrite pair_head_first by exact Ba. discriminate.
       - intros begin' b r0 t _ _. cbn [app]. now rewrite Qa, Ba, Ca. }
  destruct s as [ | e r1]; [discriminate | ].
  destruct (e =? 117)%N eqn:Ue.
  2: { destruct (simple_escape e) as [x | ] eqn:Se; [ | discriminate].
       intros [= <- <-]. exists [a; e]. repeat split; try (cbn; lia).
       - rewrite pair_head_second by exact Ue. discriminate.
       - intros begin' b r0 t _ _. cbn [app]. now rewrite Qa, Ba, Ue, Se. }
  destruct r1 as [ | h1 [ | h2 [ | h3 [ | h4 [ | x r2]]]]]; try discriminate.
  destruct (decode_hex4 h1 h2 h3 h4) as [c1 | ] eqn:D1; [ | discriminate].
  destruct (is_high_surrogate c1 && pair_head (x :: r2)) eqn:C.
  - (* a high surrogate, then [\u] *)
    apply andb_true_iff in C as [Hh Hp].
    assert (Short : forall r2',
               (length r2' <= 6)%nat -> pair_head r2' = true ->
               forall b r0, r2' = b ++ r0 -> string_body b -> False).
    { intros r2' L P b r0 E B. subst r2'.
      destruct (string_body_long r0 B P)
        as (y1 & y2 & y3 & y4 & y5 & y6 & y7 & b8 & ->).
      cbn in L. lia. }
    destruct r2 as [ | u2 [ | g1 [ | g2 [ | g3 [ | g4 [ | y r5]]]]]];
      try (intros [= <- <-]; exists [a; e; h1; h2; h3; h4];
           repeat split; try (cbn; lia);
           intros begin' b r0 t E B; exfalso;
           eapply Short; [ | exact Hp | exact E | exact B]; cbn; lia).
    cbn [pair_head] in Hp. cbv beta iota. rewrite Hh. cbn [andb].
    apply andb_true_iff in Hp as [Hx Hu]. rewrite Hx, Hu. cbn [andb].
    destruct (decode_hex4 g1 g2 g3 g4) as [c2 | ] eqn:D2; [ | discriminate].
    destruct (is_low_surrogate c2) eqn:Lo.
    + intros [= <- <-].
      exists [a; e; h1; h2; h3; h4; x; u2; g1; g2; g3; g4].
      repeat split; try (cbn; lia).
      intros begin' b r0 t E B. cbn [app]. rewrite Qa, Ba, Ue.
      destruct b as [ | y' b]; [destruct B as [[[ | ] ?] _]; discriminate | ].
      cbn [app]. now rewrite D1, Hh, Hx, Hu, D2, Lo.
    + intros [= <- <-]. exists [a; e; h1; h2; h3; h4].
      repeat split; try (cbn; lia).
      intros begin' b r0 t E B. cbn [app]. rewrite Qa, Ba, Ue.
      assert (P : pair_head (b ++ r0) = true).
      { rewrite <- E. cbn. now rewrite Hx, Hu. }
      destruct (string_body_long r0 B P)
        as (y1 & y2 & y3 & y4 & y5 & y6 & y7 & b8 & ->).
      cbn [app] in E |- *. injection E as -> -> -> -> -> -> -> _.
      now rewrite D1, Hh, Hx, Hu, D2, Lo.
  - pose proof (surrogate_single c1 (x :: r2) C) as S.
    cbv beta iota in S. rewrite S. clear S.
    intros [= <- <-]. exists [a; e; h1; h2; h3; h4].
    repeat split; try (cbn; lia).
    intros begin' b r0 t E B. cbn [app]. rewrite Qa, Ba, Ue.
    destruct b as [ | y b]; [destruct B as [[[ | ] ?] _]; discriminate | ].
    cbn [app]. rewrite D1.
    refine (surrogate_single c1 (y :: b ++ t) _).
    destruct (is_high_surrogate c1); [ | reflexivity].
    cbn [andb] in *. rewrite E in C.
    exact (string_body_head r0 t B C).
Qed.

Lemma string_body_nonempty (b : str) : string_body b -> (1 <= length b)%nat.
Proof.
  intros [[b' ->] _]. rewrite length_app. cbn. lia.
Qed.

(** A successful scan of a string depends on the text it consumed only. *)
Lemma scanstring_local (n : nat) :
  forall s begin acc v r,
    (length s <= n)%nat ->
    scanstring begin s acc = Scanned v r ->
    exists b,
      s = b ++ r /\ string_body b
      /\ forall begin' t, scanstring begin' (b ++ t) acc = Scanned v t.
Proof.
  induction n as [ | n IH]; intros s begin acc v r L H.
  - destruct s; [discriminate | cbn in L; lia].
  - rewrite scanstring_step in H.
    destruct (string_step begin s) as [r0 | c r1 | m a] eqn:St;
      [ | | discriminate].
    + injection H as <- <-. apply string_step_done in St. subst s.
      exists [34%N]. repeat split.
      * now exists [].
      * intros x y rest [=].
    + apply string_step_more in St as (p & -> & Lp & Hp & Loc).
      rewrite length_app in L.
      destruct (IH r1 begin (acc ++ [c]) v r ltac:(lia) H)
        as (b1 & -> & B1 & Run).
      exists (p ++ b1). split; [now rewrite app_assoc | ]. split.
      * split.
        -- destruct B1 as [[b' ->] _]. exists (p ++ b').
           now rewrite app_assoc.
        -- intros x y rest E Hx Hy. rewrite length_app.
           pose proof (string_body_nonempty B1).
           enough (6 <= length p)%nat by lia.
           apply Hp. rewrite app_assoc, E. cbn.
           subst. reflexivity.
      * intros begin' t. rewrite scanstring_step, <- app_assoc.
        rewrite (Loc begin' b1 r t eq_refl B1). apply Run.
Qed.

(** ** The number scanner *)

Lemma span_digits_spec (s ds r : str) :
  span_digits s = (ds, r) ->
  s = ds ++ r /\ forallb is_digit ds = true /\ digit_head r = false.
Proof.
  revert ds r. induction s as [ | c s IH]; intros ds r; cbn [span_digits].
  - intros [= <- <-]. auto.
  - destruct (is_digit c) eqn:D.
    + destruct (span_digits s) as [ds' r'].
      intros [= <- <-]. destruct (IH ds' r' eq_refl) as (-> & F & H).
      cbn [forallb app]. rewrite D. auto.
    + intros [= <- <-]. cbn [forallb app digit_head]. auto.
Qed.

Lemma span_digits_app (ds t : str) :
  forallb is_digit ds = true -> digit_head t = false ->
  span_digits (ds ++ t) = (ds, t).
Proof.
  intros F H. induction ds as [ | c ds IH]; cbn [app span_digits].
  - destruct t as [ | c t]; [reflexivity | ].
    cbn [digit_head span_digits] in *. now rewrite H.
  - cbn [forallb] in F. apply andb_true_iff in F as [-> F]. now rewrite (IH F).
Qed.

Lemma plain_head_digit (t : str) : plain_head t = true -> digit_head t = false.
Proof.
  destruct t as [ | c t]; [reflexivity | ]. cbn [plain_head digit_head].
  destruct (is_digit c); [discriminate | reflexivity].
Qed.

Lemma ok_follow_plain (t : str) : ok_follow t = true -> plain_head t = true.
Proof.
  destruct t as [ | c t]; [reflexivity | ]. cbn. unfold follow_char, is_json_ws.
  intros H. repeat (apply orb_true_iff in H as [H | H]);
    apply N.eqb_eq in H; subst c; reflexivity.
Qed.

Lemma plain_head_cons (c : char) (t : str) :
  is_digit c = false -> (c =? 46)%N = false -> (c =? 101)%N = false ->
  (c =? 69)%N = false -> plain_head (c :: t) = true.
Proof. intros H1 H2 H3 H4. unfold plain_head. now rewrite H1, H2, H3, H4. Qed.

Lemma number_int_spec (s ip s2 : str) :
  number_int s = Some (ip, s2) ->
  s = ip ++ s2
  /\ (exists d ip', ip = d :: ip' /\ is_digit d = true)
  /\ forallb is_digit ip = true
  /\ forall t, digit_head t = false -> number_int (ip ++ t) = Some (ip, t).
Proof.
  unfold number_int. destruct s as [ | c s]; [discriminate | ].
  destruct (in_range "1" "9" c) eqn:R.
  - destruct (span_digits s) as [ds r] eqn:Sp. intros [= <- <-].
    apply span_digits_spec in Sp as (-> & F & H).
    assert (D : is_digit c = true) by now apply in_range_digit in R.
    repeat split; eauto.
    + cbn [forallb]. now rewrite D, F.
    + intros t Ht. cbn [app]. rewrite R.
      now rewrite (span_digits_app _ _ F Ht).
  - destruct (c =? 48)%N eqn:Z; [ | discriminate].
    intros [= <- <-]. apply N.eqb_eq in Z. subst c.
    repeat split; eauto.
Qed.

Lemma plain_head_frac (t : str) : plain_head t = true -> frac_head t = true.
Proof.
  destruct t as [ | c t]; [reflexivity | ]. cbn [plain_head frac_head].
  destruct (is_digit c), (c =? 46)%N; try discriminate; reflexivity.
Qed.

Lemma frac_head_digit (t : str) : frac_head t = true -> digit_head t = false.
Proof.
  destruct t as [ | c t]; [reflexivity | ]. cbn [frac_head digit_head].
  destruct (is_digit c); [discriminate | reflexivity].
Qed.

Lemma ends_digit_app (l1 l2 : str) : ends_digit l2 -> ends_digit (l1 ++ l2).
Proof.
  intros (l' & d & -> & D). exists (l1 ++ l'), d. now rewrite app_assoc.
Qed.

Lemma ends_digit_all (d : char) (l : str) :
  forallb is_digit (d :: l) = true -> ends_digit (d :: l).
Proof.
  intros F. destruct (exists_last (l := d :: l) ltac:(discriminate))
    as (l' & x & E).
  exists l', x. split; [exact E | ].
  rewrite E, forallb_app in F. apply andb_true_iff in F as [_ F].
  cbn [forallb] in F. now rewrite andb_true_r in F.
Qed.

Lemma number_frac_spec (s fr s3 : str) :
  number_frac s = (fr, s3) ->
  s = fr ++ s3
  /\ (fr = [] \/ ends_digit fr)
  /\ (forall t, digit_head t = false -> digit_head (fr ++ t) = false)
  /\ forall t, frac_head t = true -> number_frac (fr ++ t) = (fr, t).
Proof.
  assert (P : forall t, frac_head t = true -> number_frac t = ([], t)).
  { intros [ | c [ | e t]] H; try reflexivity.
    cbn [frac_head number_frac] in *.
    destruct (c =? 46)%N; [ | reflexivity].
    cbn [negb] in H. rewrite andb_false_r in H. discriminate. }
  unfold number_frac.
  destruct s as [ | d [ | e r]]; try (intros [= <- <-]; auto).
  destruct ((d =? 46)%N && is_digit e) eqn:C.
  - destruct (span_digits r) as [ds r'] eqn:Sp. intros [= <- <-].
    apply span_digits_spec in Sp as (-> & F & H).
    apply andb_true_iff in C as [Hd He]. apply N.eqb_eq in Hd. subst d.
    split; [reflexivity | split; [ | split]].
    + right. apply (ends_digit_app [46%N]). apply ends_digit_all.
      cbn [forallb]. now rewrite He, F.
    + intros t Ht. reflexivity.
    + intros t Ht. cbn [app]. rewrite He. cbn [N.eqb Pos.eqb andb].
      now rewrite (span_digits_app _ _ F (frac_head_digit _ Ht)).
  - intros [= <- <-]. auto.
Qed.

Lemma number_exp_spec (s ex s4 : str) :
  number_exp s = (ex, s4) ->
  s = ex ++ s4
  /\ (ex = [] \/ ends_digit ex)
  /\ (forall t, frac_head t = true -> frac_head (ex ++ t) = true)
  /\ forall t, plain_head t = true -> number_exp (ex ++ t) = (ex, t).
Proof.
  assert (P : forall t, plain_head t = true -> number_exp t = ([], t)).
  { intros [ | c [ | e t]] H; try reflexivity.
    cbn [plain_head number_exp] in *.
    destruct (is_digit c), (c =? 46)%N, (c =? 101)%N, (c =? 69)%N;
      try discriminate; reflexivity. }
  unfold number_exp.
  destruct s as [ | e [ | c r]]; try (intros [= <- <-]; auto).
  destruct ((e =? 101)%N || (e =? 69)%N) eqn:E; [ | intros [= <- <-]; auto].
  assert (He : is_digit e = false /\ (e =? 46)%N = false).
  { apply orb_true_iff in E as [E | E]; apply N.eqb_eq in E; subst e; auto. }
  destruct He as [He1 He2].
  assert (Fh : forall l t, frac_head ((e :: l) ++ t) = true).
  { intros l t. cbn [app frac_head]. now rewrite He1, He2. }
  (* the exponent after the sign, if any *)
  assert (Run : forall sg r1 ds r2,
             span_digits r1 = (ds, r2) -> ds <> [] ->
             (sg = [] /\ digit_head r1 = true
              \/ exists x, sg = [x] /\ ((x =? 45)%N || (x =? 43)%N) = true) ->
             forall t, plain_head t = true ->
                       number_exp ((e :: sg ++ ds) ++ t) = (e :: sg ++ ds, t)).
  { intros sg r1 ds r2 Sp Nds Hsg t Ht.
    apply span_digits_spec in Sp as (-> & F & H).
    destruct ds as [ | d ds]; [congruence | ].
    pose proof F as F'. cbn [forallb] in F.
    apply andb_true_iff in F as [Fd F].
    unfold number_exp.
    destruct Hsg as [[-> _] | (x & -> & Hx)]; cbn [app]; rewrite E.
    - assert (Sx : ((d =? 45)%N || (d =? 43)%N) = false).
      { unfold is_digit in Fd. apply andb_true_iff in Fd as [A B].
        apply N.leb_le in A. apply orb_false_iff.
        split; apply N.eqb_neq; lia. }
      change (d :: ds ++ t) with ((d :: ds) ++ t).
      assert (R : match (d :: ds) ++ t with
                  | c0 :: (_ :: _) as r' =>
                      if (c0 =? 45)%N || (c0 =? 43)%N
                      then ([c0], r') else ([], (d :: ds) ++ t)
                  | _ => ([], (d :: ds) ++ t)
                  end = ([] : str, (d :: ds) ++ t)).
      { cbn [app]. rewrite Sx. now destruct (ds ++ t). }
      cbn [app] in R |- *. rewrite R.
      change (d :: ds ++ t) with ((d :: ds) ++ t).
      now rewrite (span_digits_app _ _ F' (plain_head_digit _ Ht)).
    - rewrite Hx.
      change (d :: ds ++ t) with ((d :: ds) ++ t).
      now rewrite (span_digits_app _ _ F' (plain_head_digit _ Ht)). }
  destruct r as [ | c' r'].
  - (* one character after the letter: no sign is read *)
    destruct (span_digits [c]) as [ds r2] eqn:Sp.
    destruct ds as [ | d ds]; intros [= <- <-]; [auto | ].
    pose proof Sp as Sp'. apply span_digits_spec in Sp' as (E' & F & H).
    split; [ | split; [ | split]].
    + cbn [app] in E' |- *. now rewrite <- E'.
    + right. apply (ends_digit_app [e]). now apply ends_digit_all.
    + intros t _. apply (Fh (d :: ds)).
    + intros t Ht. apply (Run [] [c] (d :: ds) r2 Sp ltac:(discriminate));
        [ | exact Ht].
      left. split; [reflexivity | ].
      cbn [app] in E'. injection E' as -> _. cbn [forallb digit_head] in *.
      now apply andb_true_iff in F as [-> _].
  - destruct ((c =? 45)%N || (c =? 43)%N) eqn:Sg.
    + destruct (span_digits (c' :: r')) as [ds r2] eqn:Sp.
      destruct ds as [ | d ds]; intros [= <- <-]; [auto | ].
      pose proof Sp as Sp'. apply span_digits_spec in Sp' as (E' & F & H).
      split; [ | split; [ | split]].
      * cbn [app] in E' |- *. now rewrite <- E'.
      * right. apply (ends_digit_app [e; c]). now apply ends_digit_all.
      * intros t _. apply (Fh (c :: d :: ds)).
      * intros t Ht.
        apply (Run [c] (c' :: r') (d :: ds) r2 Sp ltac:(discriminate));
          [ | exact Ht].
        right. eauto.
    + destruct (span_digits (c :: c' :: r')) as [ds r2] eqn:Sp.
      destruct ds as [ | d ds]; intros [= <- <-]; [auto | ].
      pose proof Sp as Sp'. apply span_digits_spec in Sp' as (E' & F & H).
      split; [ | split; [ | split]].
      * cbn [app] in E' |- *. now rewrite <- E'.
      * right. apply (ends_digit_app [e]). now apply ends_digit_all.
      * intros t _. apply (Fh (d :: ds)).
      * intros t Ht.
        apply (Run [] (c :: c' :: r') (d :: ds) r2 Sp ltac:(discriminate));
          [ | exact Ht].
        left. split; [reflexivity | ].
        cbn [app] in E'. injection E' as -> _. cbn [forallb digit_head] in *.
        now apply andb_true_iff in F as [-> _].
Qed.

Lemma match_number_local (s : str) (v : pyval) (r : str) :
  match_number s = Scanned v r ->
  exists b,
    s = b ++ r /\ number_body b
    /\ forall t, ok_follow t = true -> match_number (b ++ t) = Scanned v t.
Proof.
  unfold match_number.
  destruct (number_sign s) as [sign s1] eqn:Sg.
  destruct (number_int s1) as [[ip s2] | ] eqn:In; [ | discriminate].
  destruct (number_frac s2) as [fr s3] eqn:Fr.
  destruct (number_exp s3) as [ex s4] eqn:Ex.
  intros H.
  assert (R : r = s4) by (destruct (fr ++ ex); now injection H).
  subst s4.
  apply number_int_spec in In as (-> & (d & ip' & -> & Dd) & Fip & RunI).
  apply number_frac_spec in Fr as (-> & Efr & Hfr & RunF).
  apply number_exp_spec in Ex as (-> & Eex & Hex & RunE).
  assert (Sign : s = sign ++ (d :: ip') ++ fr ++ ex ++ r
                 /\ (sign = [] \/ sign = [45%N])
                 /\ forall t, number_sign (sign ++ (d :: ip') ++ t)
                              = (sign, (d :: ip') ++ t)).
  { unfold number_sign in Sg. destruct s as [ | c s]; [discriminate | ].
    destruct (c =? 45)%N eqn:C.
    - injection Sg as <- ->. apply N.eqb_eq in C. subst c.
      repeat split; auto.
    - cbn [app] in Sg. injection Sg as <- -> ->.
      repeat split; auto. intros t. cbn [app number_sign]. now rewrite C. }
  destruct Sign as (-> & Hsign & RunS).
  exists (sign ++ (d :: ip') ++ fr ++ ex).
  split; [now rewrite <- !app_assoc | ]. split.
  - split.
    + destruct Hsign as [-> | ->]; cbn [app]; [left | right];
        do 2 eexists; (split; [reflexivity | exact Dd]).
    + apply ends_digit_app.
      destruct Eex as [-> | Eex].
      * rewrite app_nil_r. destruct Efr as [-> | Efr].
        -- rewrite app_nil_r. now apply ends_digit_all.
        -- now apply ends_digit_app.
      * now apply ends_digit_app, ends_digit_app.
  - intros t Ht. apply ok_follow_plain in Ht.
    rewrite <- !app_assoc. rewrite RunS.
    rewrite RunI.
    2: { apply Hfr, frac_head_digit, Hex, plain_head_frac, Ht. }
    rewrite RunF by apply Hex, plain_head_frac, Ht.
    rewrite RunE by exact Ht.
    destruct (fr ++ ex); now injection H as <-.
Qed.

Lemma match_constant_local (s : str) (v : pyval) (r : str) :
  match_constant s = Some (v, r) ->
  exists b,
    s = b ++ r /\ b <> []
    /\ Forall (fun c => blank c = false) b
    /\ forall t, match_constant (b ++ t) = Some (v, t).
Proof.
  assert (L : forall pat s r, match_literal pat s = Some r -> s = pat ++ r).
  { induction pat as [ | p pat IH]; intros s0 r0; cbn.
    - now intros [= ->].
    - destruct s0 as [ | c s0]; [discriminate | ].
      destruct (c =? p)%N eqn:E; [ | discriminate].
      apply N.eqb_eq in E. subst c. intros H. now rewrite (IH _ _ H). }
  unfold match_constant.
  repeat match goal with
         | |- context [match_literal ?p s] =>
             let E := fresh "E" in
             destruct (match_literal p s) as [r' | ] eqn:E;
             [apply L in E; subst s; intros [= <- <-];
              eexists; split; [reflexivity | ];
              split; [discriminate | ];
              split; [apply Forall_forall; intros c Hc; cbv in Hc;
                      repeat (destruct Hc as [<- | Hc]; [reflexivity | ]);
                      contradiction
                     | intros t; reflexivity]
             | ]
         end.
  discriminate.
Qed.

(** ** The value scanner *)

Lemma json_ws_space (c : char) : is_json_ws c = true -> py_isspace c = true.
Proof.
  unfold is_json_ws. intros H.
  repeat (apply orb_true_iff in H as [H | H]);
    apply N.eqb_eq in H; subst c; reflexivity.
Qed.

Lemma blank_not_ws (c : char) : blank c = false -> is_json_ws c = false.
Proof.
  intros H. destruct (is_json_ws c) eqn:W; [ | reflexivity].
  apply json_ws_space in W. unfold blank in H. now rewrite W in H.
Qed.

Lemma value_body_solid (b : str) : value_body b -> starts_solid b.
Proof.
  intros [N [Hh _]]. destruct b as [ | c b]; [congruence | ].
  exists c, b. split; [reflexivity | ]. apply blank_not_ws. now apply (Hh c b).
Qed.

Lemma skip_ws_inv (s : str) :
  exists w, s = w ++ skip_ws s /\ forallb is_json_ws w = true.
Proof. apply dropwhile_suffix. Qed.

Lemma skip_ws_cons (s : str) (c : char) (r : str) :
  skip_ws s = c :: r ->
  exists w, s = w ++ c :: r /\ forallb is_json_ws w = true
            /\ is_json_ws c = false.
Proof.
  intros H. destruct (skip_ws_inv s) as (w & E & F). rewrite H in E.
  exists w. repeat split; auto. unfold skip_ws in H.
  now apply dropwhile_head in H.
Qed.

Lemma skip_ws_solid (w b x : str) :
  forallb is_json_ws w = true -> starts_solid b ->
  skip_ws (w ++ b ++ x) = b ++ x.
Proof.
  intros F (c & b0 & -> & H). unfold skip_ws.
  rewrite dropwhile_app by exact F. cbn [app]. now apply dropwhile_stop.
Qed.

Lemma skip_ws_stop (w : str) (c : char) (x : str) :
  forallb is_json_ws w = true -> is_json_ws c = false ->
  skip_ws (w ++ c :: x) = c :: x.
Proof.
  intros F H. apply (@skip_ws_solid w [c] x F). now exists c, [].
Qed.

Lemma ok_follow_ws (w : str) (c : char) (x : str) :
  forallb is_json_ws w = true -> follow_char c = true ->
  ok_follow (w ++ c :: x) = true.
Proof.
  intros F H. destruct w as [ | a w]; cbn [app ok_follow]; [exact H | ].
  cbn [forallb] in F. apply andb_true_iff in F as [F _].
  unfold follow_char. now rewrite F.
Qed.

Lemma edges_cons_snoc (p : char -> bool) (a : char) (m : str) (z : char) :
  p a = false -> p z = false -> edges p (a :: m ++ [z]).
Proof.
  intros Ha Hz. split.
  - now intros c r [= <- _].
  - intros r c E. change (a :: m ++ [z]) with ((a :: m) ++ [z]) in E.
    apply app_inj_tail in E as [_ <-]. exact Hz.
Qed.

Lemma number_body_value (b : str) : number_body b -> value_body b.
Proof.
  assert (D : forall d, is_digit d = true -> blank d = false).
  { intros d H. apply digit_cases in H.
    repeat (destruct H as [-> | H]; [reflexivity | ]). now subst. }
  intros [Hh (b'' & d & E & Dd)]. split.
  - destruct Hh as [(? & ? & -> & _) | (? & ? & -> & _)]; discriminate.
  - split.
    + intros c r Ec.
      destruct Hh as [(x & ? & -> & Hx) | (x & ? & -> & _)];
        injection Ec as <- _; [now apply D | reflexivity].
    + intros r c Ec. rewrite E in Ec. apply app_inj_tail in Ec as [_ <-].
      now apply D.
Qed.

Lemma number_body_not_constant (b t : str) :
  number_body b -> match_constant (b ++ t) = None.
Proof.
  intros [[(d & b' & -> & D) | (d & b' & -> & D)] _];
    apply digit_cases in D;
    repeat (destruct D as [-> | D]; [reflexivity | ]); now subst.
Qed.

Lemma starts_solid_app (b x : str) : starts_solid b -> starts_solid (b ++ x).
Proof. intros (c & b0 & -> & H). now exists c, (b0 ++ x). Qed.

Lemma ends_with_app (c : char) (x b : str) : ends_with c b -> ends_with c (x ++ b).
Proof. intros (b' & ->). exists (x ++ b'). now rewrite app_assoc. Qed.

(** Right-nested form of a concatenation. *)
Ltac flat := repeat (rewrite <- ?app_assoc; cbn [app]).

Lemma is_json_dict_set (acc : dict pyval) (key : str) (val : pyval) :
  forallb (fun kv => is_json (snd kv)) acc = true -> is_json val = true ->
  forallb (fun kv => is_json (snd kv)) (dict_set acc key val) = true.
Proof.
  intros A J. induction acc as [ | [k x] acc IH]; cbn [dict_set forallb snd].
  - now rewrite J.
  - cbn [forallb snd] in A. apply andb_true_iff in A as [Ax A].
    destruct (str_eqb k key); cbn [forallb snd];
      [now rewrite J, A | now rewrite Ax, IH].
Qed.

Lemma edges_forall (p : char -> bool) (b : str) :
  Forall (fun c => p c = false) b -> edges p b.
Proof.
  intros F. rewrite Forall_forall in F. split.
  - intros c r ->. apply F. now left.
  - intros r c ->. apply F. apply in_or_app. right. now left.
Qed.

Lemma match_constant_json (s : str) (v : pyval) (r : str) :
  match_constant s = Some (v, r) -> is_json v = true.
Proof.
  unfold match_constant.
  repeat match goal with
         | |- context [match_literal ?p s] =>
             destruct (match_literal p s);
             [intros [= <- <-]; reflexivity | ]
         end.
  discriminate.
Qed.

Lemma match_number_json (s : str) (v : pyval) (r : str) :
  match_number s = Scanned v r -> is_json v = true.
Proof.
  unfold match_number.
  destruct (number_sign s) as [sign s1].
  destruct (number_int s1) as [[ip s2] | ]; [ | discriminate].
  destruct (number_frac s2) as [fr s3].
  destruct (number_exp s3) as [ex s4].
  destruct (fr ++ ex); intros [= <- <-]; reflexivity.
Qed.

Section Step.

Variable f : nat.
Hypothesis IHo : once_local f.
Hypothesis IHobj : object_local f.
Hypothesis IHarr : array_local f.

Lemma array_step : array_local (S f).
  Proof.
    intros s acc v r H A. cbn [parse_array_items] in H.
    destruct (scan_once f s) as [val r1 | | ] eqn:So; try discriminate.
    destruct (IHo _ So) as (b1 & -> & B1 & J1 & Run1).
    destruct (skip_ws r1) as [ | c1 r2] eqn:Sk; [discriminate | ].
    apply skip_ws_cons in Sk as (w1 & -> & F1 & N1).
    assert (J : forallb is_json (acc ++ [val]) = true).
    { rewrite forallb_app, A. cbn. now rewrite J1. }
    destruct (c1 =? 93)%N eqn:C93.
    - injection H as <- <-. apply N.eqb_eq in C93. subst c1.
      exists (b1 ++ w1 ++ [93%N]). split; [now flat | ].
      split; [now apply starts_solid_app, value_body_solid | ].
      split; [now exists (b1 ++ w1); flat | ].
      split; [exact J | ].
      intros t. flat. cbn [parse_array_items].
      rewrite Run1 by now apply ok_follow_ws.
      now rewrite skip_ws_stop.
    - destruct (c1 =? 44)%N eqn:C44; [ | discriminate].
      destruct (IHarr _ _ H J) as (b2 & E2 & S2 & L2 & J2 & Run2).
      destruct (skip_ws_inv r2) as (w2 & Er2 & F2). rewrite E2 in Er2.
      subst r2. apply N.eqb_eq in C44. subst c1.
      exists (b1 ++ w1 ++ 44%N :: w2 ++ b2). split; [now flat | ].
      split; [now apply starts_solid_app, value_body_solid | ].
      split; [destruct L2 as (b' & ->);
              exists (b1 ++ w1 ++ 44%N :: w2 ++ b'); now flat | ].
      split; [exact J2 | ].
      intros t. flat. cbn [parse_array_items].
      rewrite Run1 by now apply ok_follow_ws.
      rewrite skip_ws_stop by assumption. cbn [N.eqb Pos.eqb].
      rewrite skip_ws_solid by assumption. apply Run2.
  Qed.

Lemma object_step : object_local (S f).
  Proof.
    intros s acc v r H A.
    destruct s as [ | c r0]; cbn [parse_object_items] in H; [discriminate | ].
    destruct (c =? 34)%N eqn:Q; [ | discriminate].
    apply N.eqb_eq in Q. subst c.
    match type of H with
    | context [scanstring ?a ?b ?c] =>
        destruct (scanstring a b c) as [key r1 | | ] eqn:Sk; try discriminate
    end.
    destruct (@scanstring_local (length r0) r0 _ _ _ _ (le_n _) Sk)
      as (bk & -> & Bk & Runk).
    destruct (skip_ws r1) as [ | c1 r2] eqn:S1; [discriminate | ].
    apply skip_ws_cons in S1 as (w1 & -> & F1 & N1).
    destruct (c1 =? 58)%N eqn:C58; [ | discriminate].
    apply N.eqb_eq in C58. subst c1.
    destruct (scan_once f (skip_ws r2)) as [val r3 | | ] eqn:So;
      try discriminate.
    destruct (IHo _ So) as (bv & Ev & Bv & Jv & Runv).
    destruct (skip_ws_inv r2) as (w2 & Er2 & F2). rewrite Ev in Er2.
    subst r2. clear Ev.
    destruct (skip_ws r3) as [ | c3 r4] eqn:S3; [discriminate | ].
    apply skip_ws_cons in S3 as (w3 & -> & F3 & N3).
    pose proof (@is_json_dict_set acc key val A Jv) as J.
    assert (Solid : forall x, starts_solid (34%N :: x)).
    { intros x. now exists 34%N, x. }
    destruct (c3 =? 125)%N eqn:C125.
    - injection H as <- <-. apply N.eqb_eq in C125. subst c3.
      exists (34%N :: bk ++ w1 ++ 58%N :: w2 ++ bv ++ w3 ++ [125%N]).
      split; [now flat | ]. split; [apply Solid | ].
      split; [now exists (34%N :: bk ++ w1 ++ 58%N :: w2 ++ bv ++ w3); flat | ].
      split; [exact J | ].
      intros t. flat. cbn [parse_object_items N.eqb Pos.eqb].
      rewrite Runk. rewrite skip_ws_stop by assumption.
      cbn [N.eqb Pos.eqb].
      rewrite skip_ws_solid by (try assumption; now apply value_body_solid).
      rewrite Runv by now apply ok_follow_ws.
      now rewrite skip_ws_stop.
    - destruct (c3 =? 44)%N eqn:C44; [ | discriminate].
      destruct (IHobj _ _ H J) as (bi & Ei & Si & Li & Ji & Runi).
      destruct (skip_ws_inv r4) as (w4 & Er4 & F4). rewrite Ei in Er4.
      subst r4. apply N.eqb_eq in C44. subst c3.
      exists (34%N :: bk ++ w1 ++ 58%N :: w2 ++ bv ++ w3 ++ 44%N :: w4 ++ bi).
      split; [now flat | ]. split; [apply Solid | ].
      split; [destruct Li as (b' & ->);
              exists (34%N :: bk ++ w1 ++ 58%N :: w2 ++ bv ++ w3
                      ++ 44%N :: w4 ++ b'); now flat | ].
      split; [exact Ji | ].
      intros t. flat. cbn [parse_object_items N.eqb Pos.eqb].
      rewrite Runk. rewrite skip_ws_stop by assumption.
      cbn [N.eqb Pos.eqb].
      rewrite skip_ws_solid by (try assumption; now apply value_body_solid).
      rewrite Runv by now apply ok_follow_ws.
      rewrite skip_ws_stop by assumption. cbn [N.eqb Pos.eqb].
      rewrite skip_ws_solid by assumption. apply Runi.
  Qed.

Lemma once_step : once_local (S f).
  Proof.
    intros s v r H.
    destruct s as [ | c r0]; cbn [scan_once] in H; [discriminate | ].
    destruct (c =? 34)%N eqn:Q.
    { (* a string *)
      apply N.eqb_eq in Q. subst c.
      match type of H with
      | context [scanstring ?a ?b ?c] =>
          destruct (scanstring a b c) as [x r1 | | ] eqn:Sk; try discriminate
      end.
      injection H as <- <-.
      destruct (@scanstring_local (length r0) r0 _ _ _ _ (le_n _) Sk)
        as (bk & -> & Bk & Runk).
      exists (34%N :: bk). split; [reflexivity | ]. split; [ | split].
      - split; [discriminate | ]. destruct Bk as [[b' ->] _].
        now apply edges_cons_snoc.
      - reflexivity.
      - intros t _. cbn [app scan_once N.eqb Pos.eqb]. now rewrite Runk. }
    destruct (c =? 123)%N eqn:Ob.
    { (* an object *)
      apply N.eqb_eq in Ob. subst c.
      destruct (skip_ws r0) as [ | c' r'] eqn:Sk.
      { destruct f; cbn in H; discriminate. }
      apply skip_ws_cons in Sk as (w & -> & F & N).
      destruct (c' =? 125)%N eqn:C.
      - injection H as <- <-. apply N.eqb_eq in C. subst c'.
        exists (123%N :: w ++ [125%N]). split; [now flat | ].
        split; [ | split].
        + split; [discriminate | ]. now apply edges_cons_snoc.
        + reflexivity.
        + intros t _. flat. cbn [scan_once N.eqb Pos.eqb].
          now rewrite skip_ws_stop.
      - destruct (IHobj _ _ H eq_refl) as (b & E & Sb & Lb & J & Run).
        pose proof Sb as (x & b0 & Hb & _).
        assert (x = c') by (rewrite Hb in E; now injection E).
        subst x.
        exists (123%N :: w ++ b). split.
        { cbn [app]. rewrite E. now flat. }
        split; [ | split].
        + split; [discriminate | ]. destruct Lb as (b' & ->).
          change (123%N :: w ++ b' ++ [125%N])
            with ((123%N :: w) ++ b' ++ [125%N]).
          rewrite app_assoc. now apply edges_cons_snoc.
        + exact J.
        + intros t _. cbn [app scan_once N.eqb Pos.eqb].
          rewrite <- app_assoc.
          rewrite skip_ws_solid by assumption.
          specialize (Run t). rewrite Hb in Run |- *. cbn [app] in Run |- *.
          now rewrite C. }
    destruct (c =? 91)%N eqn:Ar.
    { (* an array *)
      apply N.eqb_eq in Ar. subst c.
      destruct (skip_ws r0) as [ | c' r'] eqn:Sk.
      { destruct f as [ | [ | f']]; cbn in H; discriminate. }
      apply skip_ws_cons in Sk as (w & -> & F & N).
      destruct (c' =? 93)%N eqn:C.
      - injection H as <- <-. apply N.eqb_eq in C. subst c'.
        exists (91%N :: w ++ [93%N]). split; [now flat | ].
        split; [ | split].
        + split; [discriminate | ]. now apply edges_cons_snoc.
        + reflexivity.
        + intros t _. flat. cbn [scan_once N.eqb Pos.eqb].
          now rewrite skip_ws_stop.
      - destruct (IHarr _ _ H eq_refl) as (b & E & Sb & Lb & J & Run).
        pose proof Sb as (x & b0 & Hb & _).
        assert (x = c') by (rewrite Hb in E; now injection E).
        subst x.
        exists (91%N :: w ++ b). split.
        { cbn [app]. rewrite E. now flat. }
        split; [ | split].
        + split; [discriminate | ]. destruct Lb as (b' & ->).
          change (91%N :: w ++ b' ++ [93%N])
            with ((91%N :: w) ++ b' ++ [93%N]).
          rewrite app_assoc. now apply edges_cons_snoc.
        + exact J.
        + intros t _. cbn [app scan_once N.eqb Pos.eqb].
          rewrite <- app_assoc.
          rewrite skip_ws_solid by assumption.
          specialize (Run t). rewrite Hb in Run |- *. cbn [app] in Run |- *.
          now rewrite C. }
    (* a constant or a number *)
    assert (Head : forall b r' t,
               c :: r0 = b ++ r' -> b <> [] ->
               scan_once (S f) (b ++ t)
               = match match_constant (b ++ t) with
                 | Some (v, r') => Scanned v r'
                 | None => match_number (b ++ t)
                 end).
    { intros b r' t E Nb. destruct b as [ | x b]; [congruence | ].
      injection E as <- _. cbn [app scan_once]. now rewrite Q, Ob, Ar. }
    destruct (match_constant (c :: r0)) as [[v' r'] | ] eqn:Mc.
    - injection H as <- <-. pose proof (match_constant_json _ Mc) as J.
      apply match_constant_local in Mc as (b & E & Nb & Fb & Run).
      exists b. split; [exact E | ]. split; [ | split].
      + split; [exact Nb | now apply edges_forall].
      + exact J.
      + intros t _. rewrite (Head b r' t E Nb). now rewrite Run.
    - pose proof (match_number_json _ H) as J.
      apply match_number_local in H as (b & E & Nb & Run).
      pose proof (number_body_value Nb) as Vb.
      exists b. split; [exact E | ]. split; [exact Vb | split; [exact J | ]].
      intros t Ht. rewrite (Head b r t E (proj1 Vb)).
      rewrite number_body_not_constant by exact Nb. now apply Run.
  Qed.

End Step.

(** Every successful scan is local. *)
Lemma scan_local (f : nat) : once_local f /\ object_local f /\ array_local f.
Proof.
  induction f as [ | f (IHo & IHobj & IHarr)].
  - repeat split; intros s; intros; discriminate.
  - split; [ | split].
    + now apply once_step.
    + now apply object_step.
    + now apply array_step.
Qed.

(** ** Fuel *)

Lemma scanstring_not_exhausted (n : nat) :
  forall s begin acc,
    (length s <= n)%nat -> scanstring begin s acc <> Exhausted.
Proof.
  induction n as [ | n IH]; intros s begin acc L.
  - destruct s; [discriminate | cbn in L; lia].
  - rewrite scanstring_step.
    destruct (string_step begin s) as [r0 | c r1 | m a] eqn:St;
      try discriminate.
    apply string_step_more in St as (p & -> & Lp & _).
    rewrite length_app in L. apply IH. lia.
Qed.

Lemma scan_mono (f : nat) :
  (forall f' s, (f <= f')%nat -> scan_once f s <> Exhausted ->
                scan_once f' s = scan_once f s)
  /\ (forall f' s acc, (f <= f')%nat ->
        parse_object_items f s acc <> Exhausted ->
        parse_object_items f' s acc = parse_object_items f s acc)
  /\ (forall f' s acc, (f <= f')%nat ->
        parse_array_items f s acc <> Exhausted ->
        parse_array_items f' s acc = parse_array_items f s acc).
Proof.
  induction f as [ | f (IHo & IHobj & IHarr)].
  - repeat split; intros; exfalso; auto.
  - split; [ | split].
    + intros [ | f'] s L H; [lia | ]. apply le_S_n in L.
      cbn [scan_once] in *.
      destruct s as [ | c r]; [reflexivity | ].
      destruct (c =? 34)%N; [reflexivity | ].
      destruct (c =? 123)%N.
      { destruct (skip_ws r) as [ | c' r'].
        - now apply IHobj.
        - destruct (c' =? 125)%N; [reflexivity | now apply IHobj]. }
      destruct (c =? 91)%N; [ | reflexivity].
      destruct (skip_ws r) as [ | c' r'].
      * now apply IHarr.
      * destruct (c' =? 93)%N; [reflexivity | now apply IHarr].
    + intros [ | f'] s acc L H; [lia | ]. apply le_S_n in L.
      cbn [parse_object_items] in *.
      destruct s as [ | c r]; [reflexivity | ].
      destruct (c =? 34)%N; [ | reflexivity].
      destruct (scanstring (c :: r) r []) as [key r1 | | ]; try reflexivity.
      destruct (skip_ws r1) as [ | c1 r2]; [reflexivity | ].
      destruct (c1 =? 58)%N; [ | reflexivity].
      assert (E : scan_once f' (skip_ws r2) = scan_once f (skip_ws r2)).
      { apply IHo; [exact L | ]. intros X. now rewrite X in H. }
      rewrite E. destruct (scan_once f (skip_ws r2)) as [val r3 | | ];
        try reflexivity.
      destruct (skip_ws r3) as [ | c3 r4]; [reflexivity | ].
      destruct (c3 =? 125)%N; [reflexivity | ].
      destruct (c3 =? 44)%N; [ | reflexivity].
      now apply IHobj.
    + intros [ | f'] s acc L H; [lia | ]. apply le_S_n in L.
      cbn [parse_array_items] in *.
      assert (E : scan_once f' s = scan_once f s).
      { apply IHo; [exact L | ]. intros X. now rewrite X in H. }
      rewrite E. destruct (scan_once f s) as [val r1 | | ]; try reflexivity.
      destruct (skip_ws r1) as [ | c1 r2]; [reflexivity | ].
      destruct (c1 =? 93)%N; [reflexivity | ].
      destruct (c1 =? 44)%N; [ | reflexivity].
      now apply IHarr.
Qed.

Lemma skip_ws_length (s : str) : (length (skip_ws s) <= length s)%nat.
Proof.
  destruct (skip_ws_inv s) as (w & E & _).
  rewrite E at 2. rewrite length_app. lia.
Qed.

Lemma scan_once_shorter (f : nat) (s : str) (v : pyval) (r : str) :
  scan_once f s = Scanned v r -> (length r < length s)%nat.
Proof.
  intros H. destruct (proj1 (scan_local f) _ _ _ H) as (b & -> & [N _] & _).
  rewrite length_app. destruct b; [congruence | cbn; lia].
Qed.

(** With fuel beyond twice the length of the text the scanners end. *)
Lemma scan_fuel (f : nat) :
  (forall s, (2 * length s + 1 <= f)%nat -> scan_once f s <> Exhausted)
  /\ (forall s acc, (2 * length s + 2 <= f)%nat ->
        parse_object_items f s acc <> Exhausted)
  /\ (forall s acc, (2 * length s + 2 <= f)%nat ->
        parse_array_items f s acc <> Exhausted).
Proof.
  induction f as [ | f (IHo & IHobj & IHarr)].
  - repeat split; intros; lia.
  - split; [ | split].
    + intros s L. cbn [scan_once].
      destruct s as [ | c r]; [discriminate | ]. cbn [length] in L.
      destruct (c =? 34)%N.
      { pose proof (@scanstring_not_exhausted (length r) r (c :: r) []
                      (le_n _)) as N.
        destruct (scanstring (c :: r) r []); try discriminate. congruence. }
      pose proof (skip_ws_length r) as Lr.
      destruct (c =? 123)%N.
      { destruct (skip_ws r) as [ | c' r'] eqn:Sk.
        - apply IHobj. cbn. lia.
        - destruct (c' =? 125)%N; [discriminate | ]. apply IHobj. lia. }
      destruct (c =? 91)%N.
      { destruct (skip_ws r) as [ | c' r'] eqn:Sk.
        - apply IHarr. cbn. lia.
        - destruct (c' =? 93)%N; [discriminate | ]. apply IHarr. lia. }
      destruct (match_constant (c :: r)) as [[v r'] | ]; [discriminate | ].
      unfold match_number.
      destruct (number_sign (c :: r)) as [sign s1].
      destruct (number_int s1) as [[ip s2] | ]; [ | discriminate].
      destruct (number_frac s2) as [fr s3].
      destruct (number_exp s3) as [ex s4].
      destruct (fr ++ ex); discriminate.
    + intros s acc L. cbn [parse_object_items].
      destruct s as [ | c r]; [discriminate | ]. cbn [length] in L.
      destruct (c =? 34)%N; [ | discriminate].
      destruct (scanstring (c :: r) r []) as [key r1 | | ] eqn:Sk;
        try discriminate.
      2: { now apply (@scanstring_not_exhausted (length r) r (c :: r) []
                        (le_n _)) in Sk. }
      destruct (@scanstring_local (length r) r _ _ _ _ (le_n _) Sk)
        as (bk & E & Bk & _).
      pose proof (string_body_nonempty Bk) as Lk.
      apply (f_equal (@length char)) in E. rewrite length_app in E.
      destruct (skip_ws r1) as [ | c1 r2] eqn:S1; [discriminate | ].
      pose proof (skip_ws_length r1) as L1. rewrite S1 in L1.
      cbn [length] in L1.
      destruct (c1 =? 58)%N; [ | discriminate].
      pose proof (skip_ws_length r2) as L2.
      destruct (scan_once f (skip_ws r2)) as [val r3 | | ] eqn:So;
        try discriminate.
      2: { apply IHo in So; [contradiction | lia]. }
      apply scan_once_shorter in So.
      destruct (skip_ws r3) as [ | c3 r4] eqn:S3; [discriminate | ].
      pose proof (skip_ws_length r3) as L3. rewrite S3 in L3.
      cbn [length] in L3.
      destruct (c3 =? 125)%N; [discriminate | ].
      destruct (c3 =? 44)%N; [ | discriminate].
      pose proof (skip_ws_length r4) as L4.
      apply IHobj. lia.
    + intros s acc L. cbn [parse_array_items].
      destruct (scan_once f s) as [val r1 | | ] eqn:So; try discriminate.
      2: { apply IHo in So; [contradiction | lia]. }
      apply scan_once_shorter in So.
      destruct (skip_ws r1) as [ | c1 r2] eqn:S1; [discriminate | ].
      pose proof (skip_ws_length r1) as L1. rewrite S1 in L1.
      cbn [length] in L1.
      destruct (c1 =? 93)%N; [discriminate | ].
      destruct (c1 =? 44)%N; [ | discriminate].
      pose proof (skip_ws_length r2) as L2.
      apply IHarr. lia.
Qed.

(** ** [json.loads] *)


Lemma is_json_as_json (v : pyval) :
  is_json v = true -> serializable v = true /\ as_json v = v.
Proof.
  induction v as [ | b | z | lit | s | l IH | l IH | items IH | l IH]
    using pyval_induction; try (intros _; split; reflexivity);
    try discriminate.
  - cbn [is_json serializable as_json]. intros H.
    assert (E : forallb serializable l = true /\ map as_json l = l).
    { induction IH as [ | x l Hx F IHl]; cbn [forallb map] in *; [auto | ].
      apply andb_true_iff in H as [H1 H2].
      destruct (Hx H1) as [-> ->]. destruct (IHl H2) as [-> ->]. auto. }
    destruct E as [-> ->]. auto.
  - cbn [is_json serializable as_json]. intros H.
    assert (E : forallb (fun kv => serializable (snd kv)) items = true
                /\ map (fun kv => (fst kv, as_json (snd kv))) items = items).
    { induction IH as [ | [k x] l Hx F IHl]; cbn [forallb map fst snd] in *;
        [auto | ].
      apply andb_true_iff in H as [H1 H2].
      destruct (Hx H1) as [-> ->]. destruct (IHl H2) as [-> ->]. auto. }
    destruct E as [-> ->]. auto.
Qed.

Lemma json_loads_is_json (s : str) (v : pyval) :
  json_loads s = Ok v -> is_json v = true.
Proof.
  unfold json_loads. destruct (starts_with_bom s); [discriminate | ].
  destruct (scan_once (json_fuel s) (skip_ws s)) as [v' r | m r | ] eqn:So;
    try discriminate.
  destruct (skip_ws r); [ | discriminate]. intros [= <-].
  now destruct (proj1 (scan_local _) _ _ _ So) as (_ & _ & _ & J & _).
Qed.

(** A parsed document is served as it is. *)
Lemma to_json_loaded (s : str) (v : pyval) :
  json_loads s = Ok v -> to_json v = Ok v.
Proof.
  intros H. apply json_loads_is_json, is_json_as_json in H as [S E].
  rewrite (to_json_serializable v S). now rewrite E.
Qed.

Lemma forallb_impl {A} (p q : A -> bool) (l : list A) :
  (forall x, p x = true -> q x = true) ->
  forallb p l = true -> forallb q l = true.
Proof.
  intros I. induction l as [ | x l IH]; cbn; [reflexivity | ].
  intros H. apply andb_true_iff in H as [H1 H2].
  now rewrite (I _ H1), (IH H2).
Qed.

Lemma matches_backtick (c : char) :
  matches_ignorecase backtick c = true -> c = backtick.
Proof.
  unfold matches_ignorecase.
  change (ascii_lower backtick) with 96%N. change backtick with 96%N.
  change (96 =? 115)%N with false. change (96 =? 107)%N with false.
  cbn [andb]. rewrite !orb_false_r. unfold ascii_lower.
  destruct ((65 <=? c)%N && (c <=? 90)%N) eqn:U; intros H;
    apply N.eqb_eq in H; [ | exact H].
  apply andb_true_iff in U as [U1 U2]. apply N.leb_le in U1, U2. lia.
Qed.

Lemma drop_leading_fence_id (b : str) :
  (forall c r, b = c :: r -> c <> backtick) -> drop_leading_fence b = b.
Proof.
  intros H. unfold drop_leading_fence.
  destruct b as [ | c r]; [reflexivity | ].
  change fence_json with (backtick :: skipn 1 fence_json).
  cbn [match_literal_ci].
  destruct (matches_ignorecase backtick c) eqn:M; [ | reflexivity].
  apply matches_backtick in M. now destruct (H c r eq_refl).
Qed.

Lemma drop_trailing_fence_id (b : str) :
  (forall r c, b = r ++ [c] -> c <> backtick) -> drop_trailing_fence b = b.
Proof.
  intros H. unfold drop_trailing_fence.
  destruct (rev b) as [ | a [ | x [ | y r]]] eqn:E; try reflexivity.
  destruct (a =? backtick)%N eqn:A; [ | reflexivity].
  apply N.eqb_eq in A. subst a.
  apply (f_equal (@rev char)) in E. rewrite rev_involutive in E. cbn in E.
  rewrite <- !app_assoc in E. cbn [app] in E.
  exfalso. apply (H (rev r ++ [y; x]) backtick); [ | reflexivity].
  now rewrite <- app_assoc.
Qed.

(** The text of a valid document is white space, the text of a value, white
    space; the scanner reads the value from its text alone. *)
Lemma json_loads_body (text : str) (v : pyval) :
  json_loads text = Ok v ->
  exists w1 b w2,
    text = w1 ++ b ++ w2
    /\ forallb is_json_ws w1 = true /\ forallb is_json_ws w2 = true
    /\ value_body b /\ json_loads b = Ok v.
Proof.
  unfold json_loads at 1.
  destruct (starts_with_bom text); [discriminate | ].
  destruct (scan_once (json_fuel text) (skip_ws text)) as [v' r | m r | ]
    eqn:So; try discriminate.
  destruct (skip_ws r) eqn:Sr; [ | discriminate]. intros [= ->].
  destruct (proj1 (scan_local _) _ _ _ So) as (b & E & Vb & _ & Run).
  destruct (skip_ws_inv text) as (w1 & Et & F1). rewrite E in Et.
  destruct (skip_ws_inv r) as (w2 & Er & F2). rewrite Sr, app_nil_r in Er.
  subst w2.
  exists w1, b, r. repeat split; try assumption; try apply Vb.
  (* the value's text alone *)
  pose proof (value_body_solid Vb) as (c & b0 & Eb & Nc).
  assert (Bom : starts_with_bom b = false).
  { destruct Vb as [_ [Hh _]]. specialize (Hh c b0 Eb).
    rewrite Eb. cbn [starts_with_bom]. unfold blank in Hh.
    apply orb_false_iff in Hh as [_ Hh]. exact Hh. }
  assert (Sb : skip_ws b = b).
  { rewrite Eb. unfold skip_ws. now apply dropwhile_stop. }
  unfold json_loads. rewrite Bom, Sb.
  assert (Fb : scan_once (json_fuel b) b = Scanned v []).
  { specialize (Run [] eq_refl). rewrite app_nil_r in Run.
    rewrite <- Run. symmetry.
    apply (proj1 (scan_mono (json_fuel b))).
    - rewrite Et. unfold json_fuel. rewrite !length_app. lia.
    - apply (proj1 (scan_fuel (json_fuel b))). unfold json_fuel. lia. }
  now rewrite Fb.
Qed.

Lemma cleaned_body (w1 b w2 : str) :
  forallb is_json_ws w1 = true -> forallb is_json_ws w2 = true ->
  value_body b ->
  py_strip (w1 ++ b ++ w2) = b /\ re_sub_fences b = b
  /\ cleaned (w1 ++ b ++ w2) = b.
Proof.
  intros F1 F2 [Nb Eb].
  assert (P : py_strip (w1 ++ b ++ w2) = b).
  { apply strip_by_core.
    - exact (forallb_impl _ _ _ json_ws_space F1).
    - exact (forallb_impl _ _ _ json_ws_space F2).
    - apply (edges_weaken (p := blank)); [ | exact Eb].
      intros c H. unfold blank. now rewrite H. }
  assert (Tick : forall c, blank c = false -> c <> backtick).
  { intros c H ->. discriminate. }
  assert (R : re_sub_fences b = b).
  { rewrite re_sub_fences_spec.
    - rewrite drop_leading_fence_id.
      + apply drop_trailing_fence_id. intros r c E.
        apply Tick. now apply (proj2 Eb r c).
      + intros c r E. apply Tick. now apply (proj1 Eb c r).
    - apply (@no_final_newline_edges blank); [reflexivity | exact Eb]. }
  split; [exact P | ]. split; [exact R | ].
  unfold cleaned. rewrite P, R. apply strip_by_id.
  apply (edges_weaken (p := blank)); [ | exact Eb].
  intros c H. unfold mem_char in H. cbn [existsb] in H.
  repeat (apply orb_true_iff in H as [H | H]); try discriminate;
    apply N.eqb_eq in H; subst c; reflexivity.
Qed.

(** ** Claim on clean JSON *)

(** C5.  When the model's text is valid JSON ([json.loads] returns [v] on
    it), the cleaning changes nothing but the white space around it: the
    fence substitution leaves the stripped text as it is, and the cleaned
    text is parsed to the same [v].  (A valid document cannot start or end
    with a fence, so the claim's "no fences" is not needed.) *)
Theorem cleaning_keeps_valid_json (text : str) (v : pyval) :
  json_loads text = Ok v ->
  re_sub_fences (py_strip text) = py_strip text
  /\ cleaned text = py_strip text
  /\ json_loads (cleaned text) = Ok v.
Proof.
  intros H.
  apply json_loads_body in H as (w1 & b & w2 & -> & F1 & F2 & Vb & L).
  destruct (cleaned_body w1 w2 F1 F2 Vb) as (P & R & C).
  rewrite P, C. auto.
Qed.

Lemma cleaning_keeps_valid_json_witness :
  json_loads (cleaned monday_text)
  = Ok (PDict [(u "monday", PList [PInt 1; PFloat (u "2.5"); PNone])]).
Proof.
  apply (@cleaning_keeps_valid_json monday_text). reflexivity.
Defined.

(** ** Claim on absent fields *)

Lemma normalized_response_ok (answer : result str) (raw : str) (v : pyval) :
  answer = Ok raw -> json_loads (cleaned raw) = Ok v ->
  normalized_response answer = Ok (Response 200 v json_header).
Proof.
  intros -> L. unfold normalized_response.
  now rewrite L, (to_json_loaded _ L).
Qed.

(** C9.  In the meal-plan and recipe handlers a field that the JSON object
    lacks is read as [None], a missing [item_list] as the empty list and a
    missing [expiry_dates] as the empty mapping, whose days are the empty
    mapping; the chain is called once with these values.  A recipe request
    with a meal and an empty item list is not turned away: the chain is
    called with the meal and the empty list, its answer is cleaned and
    parsed, and a valid JSON answer is returned with status 200. *)
Theorem absent_fields_take_defaults (w : world) :
  (forall fields,
     dict_get fields (u "item_list") = None ->
     dict_get fields (u "expiry_dates") = None ->
     meal_input fields (PDict [])
     = PDict [(u "age", get_default fields (u "age") PNone);
              (u "weight", get_default fields (u "weight") PNone);
              (u "height", get_default fields (u "height") PNone);
              (u "gender", get_default fields (u "gender") PNone);
              (u "diet_type", get_default fields (u "diet_type") PNone);
              (u "allergies", get_default fields (u "allergies") PNone);
              (u "health_conditions",
               get_default fields (u "health_conditions") PNone);
              (u "health_goal", get_default fields (u "health_goal") PNone);
              (u "cuisine", get_default fields (u "cuisine") PNone);
              (u "item_list", PList []);
              (u "days_to_expiry", PDict [])]
     /\ generate_meal_plan w (PDict fields)
        = ([CallChain ChainMeal (meal_input fields (PDict []))],
           normalized_response
             (chain_invoke w ChainMeal (meal_input fields (PDict []))))
     /\ generate_recipe w (PDict fields)
        = ([CallChain ChainRecipe (recipe_input fields (PDict []))],
           normalized_response
             (chain_invoke w ChainRecipe (recipe_input fields (PDict [])))))
  /\ (forall key, get_default [] key PNone = PNone)
  /\ (forall fields meal,
        dict_get fields (u "meal") = Some meal ->
        dict_get fields (u "item_list") = Some (PList []) ->
        dict_get fields (u "expiry_dates") = None ->
        let input := PDict [(u "meal", meal); (u "item_list", PList []);
                            (u "days_to_expiry", PDict [])] in
        generate_recipe w (PDict fields)
        = ([CallChain ChainRecipe input],
           normalized_response (chain_invoke w ChainRecipe input))
        /\ forall raw v,
             chain_invoke w ChainRecipe input = Ok raw ->
             json_loads (cleaned raw) = Ok v ->
             snd (generate_recipe w (PDict fields))
             = Ok (Response 200 v json_header)).
Proof.
  split; [ | split].
  - intros fields Hi He.
    rewrite generate_meal_plan_dict, generate_recipe_dict.
    unfold meal_input, recipe_input, get_default. rewrite Hi, He.
    repeat split; reflexivity.
  - reflexivity.
  - intros fields meal Hm Hi He input.
    assert (E : generate_recipe w (PDict fields)
                = ([CallChain ChainRecipe input],
                   normalized_response (chain_invoke w ChainRecipe input))).
    { rewrite generate_recipe_dict.
      unfold recipe_input, get_default. rewrite Hm, Hi, He. reflexivity. }
    split; [exact E | ].
    intros raw v C L. rewrite E. cbn [snd].
    now apply (normalized_response_ok C).
Qed.

Lemma absent_fields_take_defaults_witness :
  generate_meal_plan (answering [] (Ok (u "{}"))) (PDict [])
  = ([CallChain ChainMeal (meal_input [] (PDict []))],
     Ok (Response 200 (PDict []) json_header))
  /\ snd (generate_recipe (answering [] (Ok (u "{}")))
            (PDict [(u "meal", PStr (u "dinner")); (u "item_list", PList [])]))
     = Ok (Response 200 (PDict []) json_header).
Proof.
  pose proof (@absent_fields_take_defaults (answering [] (Ok (u "{}"))))
    as (A & _ & B).
  split.
  - destruct (A [] eq_refl eq_refl) as (_ & -> & _). reflexivity.
  - destruct (B [(u "meal", PStr (u "dinner")); (u "item_list", PList [])]
                (PStr (u "dinner")) eq_refl eq_refl eq_refl) as (_ & R).
    apply (R (u "{}")); reflexivity.
Defined.

Local Open Scope Z_scope.

(** ** Further properties of the expiry calculator *)









(** X3.  An [expiry_dates] field that is present but is no JSON object (a
    list, a string, a number, [null]: the default is taken only for an
    absent field) makes both handlers answer 400 with the [AttributeError]
    text of the missing [items] method, without calling the model. *)
Theorem expiry_dates_not_an_object (w : world) (fields : dict pyval)
    (v : pyval) :
  dict_get fields (u "expiry_dates") = Some v ->
  (forall items, v <> PDict items) ->
  let body :=
    PDict [(u "error",
            PStr (u "'" ++ type_name v
                  ++ u "' object has no attribute 'items'"))] in
  generate_meal_plan w (PDict fields) = ([], Ok (Response 400 body []))
  /\ generate_recipe w (PDict fields) = ([], Ok (Response 400 body [])).
Proof.
  intros H N body.
  rewrite generate_meal_plan_dict, generate_recipe_dict.
  unfold get_default. rewrite H.
  destruct v; try (split; reflexivity).
  now destruct (N items).
Qed.

Lemma expiry_dates_not_an_object_witness :
  generate_recipe (answering [] (Ok (u "{}")))
    (PDict [(u "meal", PStr (u "dinner")); (u "expiry_dates", PNone)])
  = ([], Ok (Response 400
               (PDict [(u "error",
                        PStr (u "'NoneType' object has no attribute 'items'"))])
               [])).
Proof.
  apply (@expiry_dates_not_an_object (answering [] (Ok (u "{}")))
           [(u "meal", PStr (u "dinner")); (u "expiry_dates", PNone)] PNone).
  - reflexivity.
  - discriminate.
Defined.

Lemma toordinal_inj (a b : date) :
  valid_date a -> valid_date b -> toordinal a = toordinal b -> a = b.
Proof.
  intros Ha Hb E. destruct (date_trichotomy a b) as [L | [-> | G]]; trivial.
  - pose proof (toordinal_lt Ha Hb L). lia.
  - pose proof (toordinal_lt Hb Ha G). lia.
Qed.

(** X4.  For calendar dates, the days the calculator gives follow the
    calendar: the value is 0 exactly for an item that expires today,
    positive exactly for one that expires after today, and of two items the
    one that expires first has the smaller value. *)
Theorem days_follow_the_calendar (today : date) (m : list (str * date))
    (k1 k2 : str) (d1 d2 : date) :
  valid_date today ->
  NoDup (map fst m) ->
  Forall (fun kd => valid_date (snd kd)) m ->
  In (k1, d1) m -> In (k2, d2) m ->
  exists z1 z2 out,
    calculate_days_to_expiry today (PDict (iso_items m)) = Ok (PDict out)
    /\ dict_get out k1 = Some (PInt z1)
    /\ dict_get out k2 = Some (PInt z2)
    /\ (z1 = 0 <-> d1 = today)
    /\ (0 < z1 <-> date_lt today d1)
    /\ (z1 < z2 <-> date_lt d1 d2).
Proof.
  intros T N V I1 I2.
  assert (K : dict_keys (days_items today m) = map fst m).
  { unfold dict_keys, days_items. rewrite map_map. reflexivity. }
  assert (G : forall k d, In (k, d) m ->
              dict_get (days_items today m) k
              = Some (PInt (toordinal d - toordinal today))).
  { intros k d I. apply dict_get_in.
    - unfold dict_wf. now rewrite K.
    - unfold days_items.
      apply (in_map (fun kd => (fst kd, PInt (days_between (snd kd) today))))
        in I.
      exact I. }
  assert (V1 : valid_date d1) by (rewrite Forall_forall in V; exact (V _ I1)).
  assert (V2 : valid_date d2) by (rewrite Forall_forall in V; exact (V _ I2)).
  exists (toordinal d1 - toordinal today), (toordinal d2 - toordinal today),
    (days_items today m).
  split; [ | split; [now apply G | split; [now apply G | ]]].
  - unfold calculate_days_to_expiry.
    rewrite (@days_comprehension_ok today m (iso_items m) []).
    + reflexivity.
    + unfold iso_items. clear N I1 I2 K G.
      induction V as [ | kd m Hv V IH]; cbn [map]; constructor;
        [ | exact IH].
      cbn [fst snd]. split; [reflexivity | ].
      now apply strptime_isoformat.
    + exact N.
  - split; [ | split].
    + split; [intros E; apply toordinal_inj; trivial; lia | intros ->; lia].
    + rewrite <- (toordinal_lt_iff T V1). lia.
    + rewrite <- (toordinal_lt_iff V1 V2). lia.
Qed.

Lemma days_follow_the_calendar_witness :
  exists z1 z2 out,
    calculate_days_to_expiry (Date 2024 2 27)
      (PDict [(u "Milk", PStr (u "2024-03-01"));
              (u "Eggs", PStr (u "2024-02-27"))])
    = Ok (PDict out)
    /\ dict_get out (u "Milk") = Some (PInt z1)
    /\ dict_get out (u "Eggs") = Some (PInt z2)
    /\ (z1 = 0 <-> Date 2024 3 1 = Date 2024 2 27)
    /\ (0 < z1 <-> date_lt (Date 2024 2 27) (Date 2024 3 1))
    /\ (z1 < z2 <-> date_lt (Date 2024 3 1) (Date 2024 2 27)).
Proof.
  assert (V : forall y m d,
             (1 <=? y) && (y <=? 9999) && (1 <=? m) && (m <=? 12)
             && (1 <=? d) && (d <=? days_in_month y m) = true ->
             valid_date (Date y m d)).
  { intros y m d H. unfold valid_date; cbn.
    repeat (apply andb_true_iff in H as [H ?]).
    repeat split; now apply Z.leb_le. }
  apply (@days_follow_the_calendar (Date 2024 2 27)
           [(u "Milk", Date 2024 3 1); (u "Eggs", Date 2024 2 27)]).
  - now apply V.
  - repeat constructor; cbn; intuition discriminate.
  - repeat constructor; now apply V.
  - cbn. auto.
  - cbn. auto.
Defined.

(** X5.  The day count is the calendar's: the first day of year 1 has
    ordinal 1 and the day after a date ([tomorrow]: the next day of the
    month, else the first of the next month, else the first of January of
    the next year) has the next ordinal, leap years included.  So an item
    that expires tomorrow gets 1, and a day later every item has one day
    less. *)
Theorem tomorrow_is_one_day_later (dt : date) :
  valid_date dt ->
  toordinal (Date 1 1 1) = 1
  /\ toordinal (tomorrow dt) = toordinal dt + 1
  /\ days_between (tomorrow dt) dt = 1
  /\ (forall expiry,
        days_between expiry (tomorrow dt) = days_between expiry dt - 1)
  /\ (year dt < 9999 \/ month dt < 12 \/ day dt < 31 ->
      valid_date (tomorrow dt)).
Proof.
  intros (Hy & Hm & Hd).
  assert (E : toordinal (tomorrow dt) = toordinal dt + 1).
  { unfold tomorrow, toordinal, ymd2ord.
    destruct (day dt <? _) eqn:D; cbn [year month day]; [lia | ].
    apply Z.ltb_ge in D.
    destruct (month dt <? 12) eqn:M; cbn [year month day].
    - apply Z.ltb_lt in M.
      assert (S : days_before_month (year dt) (month dt + 1)
                  = days_before_month (year dt) (month dt)
                    + days_in_month (year dt) (month dt)).
      { unfold days_before_month, days_in_month,
          DAYS_BEFORE_MONTH, DAYS_IN_MONTH.
        generalize dependent (month dt). intros m Hm _ _ M.
        each_month m Hm; try lia; cbn [Z.add Pos.add Pos.succ];
          eval_month; destruct (is_leap (year dt)); reflexivity. }
      lia.
    - apply Z.ltb_ge in M. assert (M12 : month dt = 12) by lia.
      rewrite M12 in *.
      rewrite days_before_year_succ.
      unfold days_before_month, days_in_month,
        DAYS_BEFORE_MONTH, DAYS_IN_MONTH in *.
      revert Hd D. eval_month. destruct (is_leap (year dt)); cbn; lia. }
  split; [reflexivity | split; [exact E | split; [ | split]]].
  - unfold days_between. lia.
  - intros expiry. unfold days_between. lia.
  - intros H. unfold tomorrow, valid_date.
    destruct (day dt <? _) eqn:D; cbn [year month day].
    + apply Z.ltb_lt in D. lia.
    + apply Z.ltb_ge in D.
      assert (L : days_in_month (year dt) (month dt) <= 31)
        by now apply days_in_month_le_31.
      destruct (month dt <? 12) eqn:M; cbn [year month day].
      * apply Z.ltb_lt in M.
        assert (1 <= days_in_month (year dt) (month dt + 1)).
        { unfold days_in_month, DAYS_IN_MONTH.
          generalize dependent (month dt). intros m Hm _ _ _ _ M.
          each_month m Hm; try lia; cbn [Z.add Pos.add Pos.succ];
            eval_month; destruct (is_leap (year dt)); lia. }
        lia.
      * apply Z.ltb_ge in M.
        assert (M12 : month dt = 12) by lia. rewrite M12 in *.
        assert (days_in_month (year dt) 12 = 31) by reflexivity.
        assert (days_in_month (year dt + 1) 1 = 31) by reflexivity.
        lia.
Qed.

Lemma tomorrow_is_one_day_later_witness :
  toordinal (Date 1 1 1) = 1
  /\ toordinal (tomorrow (Date 2024 2 28)) = toordinal (Date 2024 2 28) + 1
  /\ days_between (tomorrow (Date 2024 2 28)) (Date 2024 2 28) = 1
  /\ (forall expiry,
        days_between expiry (tomorrow (Date 2024 2 28))
        = days_between expiry (Date 2024 2 28) - 1)
  /\ (2024 < 9999 \/ 2 < 12 \/ 28 < 31 ->
      valid_date (tomorrow (Date 2024 2 28))).
Proof.
  apply (@tomorrow_is_one_day_later (Date 2024 2 28)).
  unfold valid_date; cbn. lia.
Defined.

Lemma four_digits_ascii (y : Z) : forallb is_ascii (four_digits y) = true.
Proof. unfold four_digits. cbn [forallb]. now rewrite !dig_is_ascii. Qed.

(** X16.  The 29th of February is a date exactly in leap years: for a
    leap year the calculator's parser reads [YYYY-02-29], for any other
    year from 1 to 9999 it raises [ValueError] with
    [day is out of range for month]. *)
Theorem february_29 (y : Z) :
  1 <= y <= 9999 ->
  strptime (PStr (four_digits y ++ u "-02-29"))
  = if is_leap y then Ok (Date y 2 29)
    else Raise (Exn ValueError (u "day is out of range for month")).
Proof.
  intros Hy. unfold strptime.
  rewrite forallb_app, four_digits_ascii. cbn [andb].
  change (forallb is_ascii (u "-02-29")) with true. cbn iota.
  unfold match_format. rewrite match_Y_four_digits by lia.
  change (literal "-" (u "-02-29")
            (fun s2 =>
             try_alts month_alts s2
               (fun m s3 =>
                literal "-" s3
                  (fun s4 => try_alts day_alts s4
                               (fun d s5 => Some (y, m, d, s5))))))
    with (Some (y, 2, 29, @nil char)).
  cbn iota. unfold new_date.
  replace (1 <=? y) with true by (symmetry; apply Z.leb_le; lia).
  replace (y <=? 9999) with true by (symmetry; apply Z.leb_le; lia).
  cbn [andb negb]. change ((1 <=? 2) && (2 <=? 12)) with true. cbn [negb].
  unfold days_in_month. change (2 =? 2) with true. cbn [andb].
  destruct (is_leap y); reflexivity.
Qed.

Lemma february_29_witness :
  strptime (PStr (u "2023-02-29"))
  = Raise (Exn ValueError (u "day is out of range for month")).
Proof.
  apply (@february_29 2023). lia.
Defined.

(** ** Further properties of the handlers *)

(** X6.  With a file named [image], [extract_items] opens the image, runs
    the OCR on it and calls the items chain once, with the OCR text as it
    is under [extracted_text], in this order; a failure of [Image.open]
    or of the OCR ends the request before the later steps, so the model is
    never called without an OCR text. *)
Theorem extract_items_pipeline (w : world) (files : list (str * upload))
    (f : upload) :
  dict_get files (u "image") = Some f ->
  (forall e, Image_open w f = Raise e ->
             extract_items w files = ([CallImageOpen f], Raise e))
  /\ (forall img e,
        Image_open w f = Ok img -> image_to_string w img = Raise e ->
        extract_items w files = ([CallImageOpen f; CallOCR img], Raise e))
  /\ (forall img text,
        Image_open w f = Ok img -> image_to_string w img = Ok text ->
        fst (extract_items w files)
        = [CallImageOpen f; CallOCR img;
           CallChain ChainItems (PDict [(u "extracted_text", PStr text)])]).
Proof.
  intros H. rewrite (extract_items_image w files H).
  split; [ | split].
  - now intros e ->.
  - now intros img e -> ->.
  - intros img text -> ->.
    destruct (chain_invoke w ChainItems _); reflexivity.
Qed.

Lemma extract_items_pipeline_witness :
  fst (extract_items (answering (u "MILK 2.99") (Ok (u "['Milk']")))
         [(u "image", u "bytes")])
  = [CallImageOpen (u "bytes"); CallOCR (Image (u "bytes"));
     CallChain ChainItems (PDict [(u "extracted_text", PStr (u "MILK 2.99"))])].
Proof.
  destruct (@extract_items_pipeline
              (answering (u "MILK 2.99") (Ok (u "['Milk']")))
              [(u "image", u "bytes")] (u "bytes") eq_refl) as (_ & _ & H).
  apply (H (Image (u "bytes")) (u "MILK 2.99")); reflexivity.
Defined.




Lemma lstrip_blanks (blanks : str) (c : char) (rest : str) :
  forallb (mem_char [32%N; 9%N]) blanks = true ->
  mem_char [32%N; 9%N] c = false ->
  lstrip_chars [32%N; 9%N] (blanks ++ c :: rest) = c :: rest.
Proof.
  intros B C. unfold lstrip_chars, lstrip_by.
  rewrite (dropwhile_app _ _ _ B). now apply dropwhile_stop.
Qed.

(** X8.  A model text that opens with a backtick, after spaces or tabs if
    any (every answer wrapped in a Markdown fence does), is never
    evaluated: [literal_eval] raises and [/extract-items] answers 500 with
    the text as it is under [llm_output]. *)
Theorem extract_items_fenced_answer_is_500 (w : world)
    (files : list (str * upload)) (f : upload) (img : image)
    (text blanks rest : str) :
  dict_get files (u "image") = Some f ->
  Image_open w f = Ok img ->
  image_to_string w img = Ok text ->
  forallb (mem_char [32%N; 9%N]) blanks = true ->
  forallb is_source_char rest = true ->
  chain_invoke w ChainItems (items_input text)
  = Ok (blanks ++ backtick :: rest) ->
  snd (extract_items w files)
  = Ok (Response 500
          (PDict [(u "error", PStr (u "Failed to parse LLM response"));
                  (u "llm_output", PStr (blanks ++ backtick :: rest))])
          []).
Proof.
  intros H O T B R C.
  assert (L : literal_eval (blanks ++ backtick :: rest)
              = Raise (Exn SyntaxError msg_invalid_syntax)).
  { unfold literal_eval.
    rewrite (lstrip_blanks blanks backtick rest B eq_refl).
    cbn [forallb]. rewrite R. reflexivity. }
  rewrite (extract_items_image w files H), O, T, C. cbn [snd].
  unfold items_response. now rewrite L.
Qed.

Lemma extract_items_fenced_answer_is_500_witness :
  snd (extract_items
         (answering [] (Ok (u " " ++ backtick :: u "``python['Milk']```")))
         [(u "image", u "bytes")])
  = Ok (Response 500
          (PDict [(u "error", PStr (u "Failed to parse LLM response"));
                  (u "llm_output",
                   PStr (u " " ++ backtick :: u "``python['Milk']```"))])
          []).
Proof.
  apply (@extract_items_fenced_answer_is_500
           (answering [] (Ok (u " " ++ backtick :: u "``python['Milk']```")))
           [(u "image", u "bytes")] (u "bytes") (Image (u "bytes")) []
           (u " ") (u "``python['Milk']```"));
    reflexivity.
Defined.

(** X9.  A request body that is valid JSON but no object (a list, a
    string, a number, [null]) makes the meal-plan and recipe handlers answer
    400 with the [AttributeError] text of the missing [get] method; the
    calculator and the model are not reached. *)
Theorem body_not_an_object (w : world) (data : pyval) :
  (forall fields, data <> PDict fields) ->
  let body :=
    PDict [(u "error",
            PStr (u "'" ++ type_name data
                  ++ u "' object has no attribute 'get'"))] in
  generate_meal_plan w data = ([], Ok (Response 400 body []))
  /\ generate_recipe w data = ([], Ok (Response 400 body [])).
Proof.
  intros N body.
  rewrite (generate_meal_plan_not_dict w N), (generate_recipe_not_dict w N).
  split; reflexivity.
Qed.

Lemma body_not_an_object_witness :
  generate_meal_plan (answering [] (Ok (u "{}")))
    (PList [PStr (u "Milk")])
  = ([], Ok (Response 400
               (PDict [(u "error",
                        PStr (u "'list' object has no attribute 'get'"))])
               [])).
Proof.
  apply (@body_not_an_object (answering [] (Ok (u "{}")))
           (PList [PStr (u "Milk")])).
  discriminate.
Defined.



(** X11.  The two JSON handlers read the fields they name and nothing
    else: two bodies that agree on these keys ([meal_fields],
    [recipe_fields]) get the same calls and the same response, so a field
    the handler does not know never reaches the model. *)
Theorem unknown_fields_are_ignored (w : world) (a b : dict pyval) :
  (agree_on meal_fields a b ->
   generate_meal_plan w (PDict a) = generate_meal_plan w (PDict b))
  /\ (agree_on recipe_fields a b ->
      generate_recipe w (PDict a) = generate_recipe w (PDict b)).
Proof.
  split; intros H; unfold agree_on, meal_fields, recipe_fields in H.
  - rewrite !generate_meal_plan_dict. unfold meal_input, get_default.
    repeat match goal with
      | H : Forall _ (_ :: _) |- _ =>
          let E := fresh "E" in
          apply Forall_cons_iff in H as [E H]; rewrite E
      end.
    reflexivity.
  - rewrite !generate_recipe_dict. unfold recipe_input, get_default.
    repeat match goal with
      | H : Forall _ (_ :: _) |- _ =>
          let E := fresh "E" in
          apply Forall_cons_iff in H as [E H]; rewrite E
      end.
    reflexivity.
Qed.

Lemma unknown_fields_are_ignored_witness :
  generate_recipe (answering [] (Ok (u "{}")))
    (PDict [(u "meal", PStr (u "dinner")); (u "debug", PBool true)])
  = generate_recipe (answering [] (Ok (u "{}")))
      (PDict [(u "meal", PStr (u "dinner"))]).
Proof.
  apply (proj2 (@unknown_fields_are_ignored (answering [] (Ok (u "{}")))
                  [(u "meal", PStr (u "dinner")); (u "debug", PBool true)]
                  [(u "meal", PStr (u "dinner"))])).
  repeat constructor.
Defined.

(** X17.  A field that is present reaches the model as it is, whatever its
    JSON type (no field is validated or converted); the chain is given the
    days that the calculator returned under [days_to_expiry] and never
    the [expiry_dates] texts themselves. *)
Theorem fields_reach_the_model (w : world) (fields : dict pyval)
    (days : pyval) (k : str) (v : pyval) :
  calculate_days_to_expiry (today w)
    (get_default fields (u "expiry_dates") (PDict [])) = Ok days ->
  dict_get fields k = Some v ->
  (In k (removelast meal_fields) ->
   exists items,
     fst (generate_meal_plan w (PDict fields))
     = [CallChain ChainMeal (PDict items)]
     /\ dict_get items k = Some v
     /\ dict_get items (u "days_to_expiry") = Some days
     /\ dict_get items (u "expiry_dates") = None)
  /\ (In k (removelast recipe_fields) ->
      exists items,
        fst (generate_recipe w (PDict fields))
        = [CallChain ChainRecipe (PDict items)]
        /\ dict_get items k = Some v
        /\ dict_get items (u "days_to_expiry") = Some days
        /\ dict_get items (u "expiry_dates") = None).
Proof.
  intros D G. split; intros I.
  - rewrite generate_meal_plan_dict, D. cbn [fst].
    eexists. split; [reflexivity | ].
    split; [ | split; reflexivity].
    unfold meal_fields in I. cbn [removelast In] in I. unfold get_default.
    repeat (destruct I as [<- | I]; [rewrite G; reflexivity | ]).
    destruct I.
  - rewrite generate_recipe_dict, D. cbn [fst].
    eexists. split; [reflexivity | ].
    split; [ | split; reflexivity].
    unfold recipe_fields in I. cbn [removelast In] in I. unfold get_default.
    repeat (destruct I as [<- | I]; [rewrite G; reflexivity | ]).
    destruct I.
Qed.

Lemma fields_reach_the_model_witness :
  exists items,
    fst (generate_recipe (answering [] (Ok (u "{}")))
           (PDict [(u "meal", PList [PInt 1]);
                   (u "expiry_dates",
                    PDict [(u "Milk", PStr (u "2024-01-05"))])]))
    = [CallChain ChainRecipe (PDict items)]
    /\ dict_get items (u "meal") = Some (PList [PInt 1])
    /\ dict_get items (u "days_to_expiry")
       = Some (PDict [(u "Milk", PInt 4)])
    /\ dict_get items (u "expiry_dates") = None.
Proof.
  apply (proj2 (@fields_reach_the_model (answering [] (Ok (u "{}")))
                  [(u "meal", PList [PInt 1]);
                   (u "expiry_dates",
                    PDict [(u "Milk", PStr (u "2024-01-05"))])]
                  (PDict [(u "Milk", PInt 4)]) (u "meal") (PList [PInt 1])
                  eq_refl eq_refl)).
  cbn. auto.
Defined.

(** ** Further properties of the cleaning *)

Lemma strip_by_factor (p : char -> bool) (s : str) :
  exists a b, s = a ++ strip_by p s ++ b
              /\ forallb p a = true /\ forallb p b = true.
Proof.
  unfold strip_by, lstrip_by.
  destruct (dropwhile_suffix p s) as (a & E & Fa).
  destruct (rstrip_by_prefix p (dropwhile p s)) as (b & E' & Fb).
  exists a, b. split; [ | auto]. rewrite <- E'. exact E.
Qed.

Lemma drop_leading_fence_suffix (s : str) :
  exists f, s = f ++ drop_leading_fence s.
Proof.
  unfold drop_leading_fence.
  destruct (match_literal_ci fence_json s) as [r | ] eqn:M.
  - apply match_literal_ci_split in M as (f & E & _). now exists f.
  - now exists [].
Qed.

Lemma drop_trailing_fence_prefix (s : str) :
  exists t, s = drop_trailing_fence s ++ t
            /\ (t = [] \/ t = [backtick; backtick; backtick]).
Proof.
  unfold drop_trailing_fence.
  destruct (rev s) as [ | a [ | b [ | c r]]] eqn:E;
    try solve [exists (@nil char); rewrite app_nil_r; auto].
  destruct ((a =? backtick)%N && (b =? backtick)%N && (c =? backtick)%N)
    eqn:T; [ | exists (@nil char); rewrite app_nil_r; auto].
  apply andb_true_iff in T as [T Tc]. apply andb_true_iff in T as [Ta Tb].
  apply N.eqb_eq in Ta, Tb, Tc. subst a b c.
  exists [backtick; backtick; backtick]. split; [ | auto].
  apply (f_equal (@rev char)) in E. rewrite rev_involutive in E.
  rewrite E. cbn [rev]. rewrite <- !app_assoc. reflexivity.
Qed.

Lemma cleaned_unfold (raw : str) :
  cleaned raw
  = strip_chars [backtick; 10%N; 32%N]
      (drop_trailing_fence (drop_leading_fence (py_strip raw))).
Proof.
  unfold cleaned.
  now rewrite re_sub_fences_spec by apply py_strip_no_final_newline.
Qed.

(** X12.  The cleaning only cuts at the two ends: the cleaned text is a
    contiguous part of the model's text, nothing inside it is changed; and
    a text that neither starts nor ends with white space or a backtick is
    left as it is. *)
Theorem cleaned_is_a_factor (raw : str) :
  (exists before after, raw = before ++ cleaned raw ++ after)
  /\ (edges (fun c => py_isspace c || (c =? backtick)%N) raw ->
      cleaned raw = raw).
Proof.
  rewrite cleaned_unfold. split.
  - destruct (strip_by_factor py_isspace raw) as (a & b & E & _).
    fold (py_strip raw) in E.
    destruct (drop_leading_fence_suffix (py_strip raw)) as (f & Ef).
    destruct (drop_trailing_fence_prefix (drop_leading_fence (py_strip raw)))
      as (t & Et & _).
    destruct (strip_by_factor (mem_char [backtick; 10%N; 32%N])
                (drop_trailing_fence (drop_leading_fence (py_strip raw))))
      as (a' & b' & E' & _).
    fold (strip_chars [backtick; 10%N; 32%N]
            (drop_trailing_fence (drop_leading_fence (py_strip raw)))) in E'.
    remember (strip_chars _ _) as core.
    exists (a ++ f ++ a'), (b' ++ t ++ b).
    rewrite E at 1. rewrite Ef at 1. rewrite Et at 1. rewrite E' at 1.
    rewrite <- !app_assoc. reflexivity.
  - intros Ed.
    assert (P : py_strip raw = raw).
    { apply strip_by_id.
      apply (edges_weaken (p := fun c => py_isspace c || (c =? backtick)%N));
        [ | exact Ed].
      intros c ->. reflexivity. }
    assert (Tick : forall c, py_isspace c || (c =? backtick)%N = false ->
                             c <> backtick).
    { intros c H ->. rewrite N.eqb_refl, orb_true_r in H. discriminate. }
    rewrite P, drop_leading_fence_id, drop_trailing_fence_id.
    + apply strip_by_id.
      apply (edges_weaken (p := fun c => py_isspace c || (c =? backtick)%N));
        [ | exact Ed].
      intros c H. unfold mem_char in H. cbn [existsb] in H.
      repeat (apply orb_true_iff in H as [H | H]); try discriminate;
        apply N.eqb_eq in H; subst c; reflexivity.
    + intros r c E. apply Tick. now apply (proj2 Ed r c).
    + intros c r E. apply Tick. now apply (proj1 Ed c r).
Qed.

Lemma cleaned_is_a_factor_witness :
  cleaned (u "{ 1 }") = u "{ 1 }".
Proof.
  apply (proj2 (cleaned_is_a_factor (u "{ 1 }"))).
  split.
  - intros c r [= <- _]. reflexivity.
  - intros r c E.
    assert (L : last (r ++ [c]) 0%N = c) by apply last_last.
    rewrite <- E in L. cbn in L. subst c. reflexivity.
Defined.

Lemma dropwhile_padded (p q : char -> bool) (w b x : str) (c : char)
    (b0 : str) :
  b = c :: b0 -> p c = false -> forallb q w = true ->
  exists w', dropwhile p (w ++ b ++ x) = w' ++ b ++ x /\ forallb q w' = true.
Proof.
  intros -> Hc. induction w as [ | a w IH]; intros F.
  - exists []. split; [ | reflexivity]. cbn [app]. now apply dropwhile_stop.
  - cbn [forallb] in F. apply andb_true_iff in F as [Fa F].
    cbn [app dropwhile]. destruct (p a).
    + now apply IH.
    + exists (a :: w). split; [reflexivity | ]. cbn [forallb].
      now rewrite Fa, F.
Qed.

Lemma strip_by_padded (p q : char -> bool) (w1 b w2 : str) :
  b <> [] -> edges p b ->
  forallb q w1 = true -> forallb q w2 = true ->
  exists w1' w2',
    strip_by p (w1 ++ b ++ w2) = w1' ++ b ++ w2'
    /\ forallb q w1' = true /\ forallb q w2' = true.
Proof.
  intros N [Hh Hl] F1 F2.
  destruct b as [ | c b0]; [congruence | ].
  destruct (@dropwhile_padded p q w1 (c :: b0) w2 c b0 eq_refl
              (Hh c b0 eq_refl) F1) as (w1' & E1 & F1').
  unfold strip_by, lstrip_by, rstrip_by. rewrite E1.
  destruct (rev (c :: b0)) as [ | z rb] eqn:R.
  { apply (f_equal (@length char)) in R. rewrite length_rev in R.
    discriminate. }
  assert (Hz : p z = false).
  { apply (Hl (rev rb) z). apply (f_equal (@rev char)) in R.
    now rewrite rev_involutive in R. }
  rewrite !rev_app_distr, <- app_assoc, R.
  rewrite <- (forallb_rev q w2) in F2.
  destruct (@dropwhile_padded p q (rev w2) (z :: rb) (rev w1') z rb eq_refl
              Hz F2) as (w2' & E2 & F2').
  rewrite E2. exists w1', (rev w2').
  rewrite !rev_app_distr, rev_involutive, <- R, rev_involutive.
  rewrite <- app_assoc. split; [reflexivity | ].
  now rewrite forallb_rev.
Qed.

(** White space around the text of a value does not change what
    [json.loads] returns. *)
Lemma json_loads_padded (w1 b w2 : str) (v : pyval) :
  value_body b -> json_loads b = Ok v ->
  forallb is_json_ws w1 = true -> forallb is_json_ws w2 = true ->
  json_loads (w1 ++ b ++ w2) = Ok v.
Proof.
  intros Vb L F1 F2.
  pose proof (value_body_solid Vb) as (c & b0 & Eb & Nc).
  assert (Hc : blank c = false).
  { destruct Vb as [_ [Hh _]]. exact (Hh c b0 Eb). }
  assert (Sb : skip_ws b = b).
  { rewrite Eb. unfold skip_ws. now apply dropwhile_stop. }
  assert (Bom : starts_with_bom b = false).
  { rewrite Eb. cbn [starts_with_bom]. unfold blank in Hc.
    apply orb_false_iff in Hc as [_ Hc]. exact Hc. }
  unfold json_loads in L. rewrite Bom, Sb in L.
  destruct (scan_once (json_fuel b) b) as [v' r | m r | ] eqn:So;
    try discriminate.
  destruct (skip_ws r) eqn:Sr; [ | discriminate]. injection L as ->.
  destruct (proj1 (scan_local _) _ _ _ So) as (b' & E & _ & _ & Run).
  destruct (skip_ws_inv r) as (wr & Er & Fr). rewrite Sr, app_nil_r in Er.
  subst wr.
  (* the value's own text is [b'], followed by white space [r ++ w2] *)
  assert (Fw : forallb is_json_ws (r ++ w2) = true)
    by now apply forallb_app_true.
  assert (Ok2 : ok_follow (r ++ w2) = true).
  { destruct (r ++ w2) as [ | a t]; [reflexivity | ].
    cbn [forallb] in Fw. apply andb_true_iff in Fw as [Fa _].
    cbn [ok_follow]. unfold follow_char. now rewrite Fa. }
  specialize (Run (r ++ w2) Ok2).
  assert (T : w1 ++ b ++ w2 = w1 ++ b' ++ r ++ w2).
  { rewrite E at 1. now rewrite <- app_assoc. }
  assert (Bom' : starts_with_bom (w1 ++ b ++ w2) = false).
  { destruct w1 as [ | a w1]; cbn [app].
    - rewrite Eb in Bom |- *. exact Bom.
    - cbn [forallb] in F1. apply andb_true_iff in F1 as [Fa _].
      cbn [starts_with_bom]. unfold is_json_ws in Fa.
      repeat (apply orb_true_iff in Fa as [Fa | Fa]);
        apply N.eqb_eq in Fa; subst a; reflexivity. }
  unfold json_loads. rewrite Bom'.
  assert (Sk : skip_ws (w1 ++ b ++ w2) = b' ++ r ++ w2).
  { rewrite T. apply skip_ws_solid; [exact F1 | ].
    rewrite E in Eb. destruct b' as [ | c' b'0].
    - (* the scan consumed something *)
      apply scan_once_shorter in So. rewrite E in So. cbn in So. lia.
    - exists c', b'0. split; [reflexivity | ].
      cbn [app] in Eb. injection Eb as -> _. exact Nc. }
  rewrite Sk.
  assert (Sc : scan_once (json_fuel (w1 ++ b ++ w2)) (b' ++ r ++ w2)
               = Scanned v (r ++ w2)).
  { rewrite <- Run.
    apply (proj1 (scan_mono (json_fuel b))).
    - unfold json_fuel. rewrite !length_app. lia.
    - rewrite Run. discriminate. }
  rewrite Sc.
  assert (Sw : skip_ws (r ++ w2) = []).
  { unfold skip_ws. now apply dropwhile_all. }
  now rewrite Sw.
Qed.

(** X13.  A valid JSON document wrapped in a Markdown fence ([```json] in
    any case of its letters before it, [```] after it), with white space
    around the fence if any, is parsed to the value of the document
    alone. *)
Theorem fenced_json_is_parsed (text : str) (v : pyval) (ws1 f ws2 : str) :
  json_loads text = Ok v ->
  is_json_fence f ->
  forallb py_isspace ws1 = true -> forallb py_isspace ws2 = true ->
  json_loads
    (cleaned (ws1 ++ f ++ text ++ [backtick; backtick; backtick] ++ ws2))
  = Ok v.
Proof.
  intros L Hf F1 F2.
  apply json_loads_body in L as (w1 & b & w2 & -> & G1 & G2 & Vb & L).
  rewrite cleaned_unfold.
  assert (Ef : exists f', f = backtick :: f').
  { unfold is_json_fence in Hf.
    change fence_json with (backtick :: skipn 1 fence_json) in Hf.
    inversion Hf as [ | p c pat' f' M Hf' E1 E2]; subst.
    apply matches_backtick in M. subst c. now exists f'. }
  destruct Ef as (f' & Ef).
  assert (P : py_strip (ws1 ++ f ++ (w1 ++ b ++ w2)
                        ++ [backtick; backtick; backtick] ++ ws2)
              = f ++ (w1 ++ b ++ w2) ++ [backtick; backtick; backtick]).
  { replace (ws1 ++ f ++ (w1 ++ b ++ w2)
             ++ [backtick; backtick; backtick] ++ ws2)
      with (ws1 ++ (f ++ (w1 ++ b ++ w2) ++ [backtick; backtick; backtick])
            ++ ws2)
      by now rewrite <- !app_assoc.
    apply strip_by_core; trivial.
    rewrite Ef. cbn [app].
    replace (f' ++ (w1 ++ b ++ w2) ++ [backtick; backtick; backtick])
      with ((f' ++ (w1 ++ b ++ w2) ++ [backtick; backtick]) ++ [backtick])
      by now rewrite <- !app_assoc.
    apply edges_cons_snoc; reflexivity. }
  rewrite P. unfold drop_leading_fence.
  rewrite (match_literal_ci_app _ Hf).
  rewrite drop_trailing_fence_app.
  destruct Vb as [Nb Eb].
  destruct (@strip_by_padded (mem_char [backtick; 10%N; 32%N]) is_json_ws
              w1 b w2 Nb) as (w1' & w2' & E & H1 & H2); trivial.
  { apply (edges_weaken (p := blank)); [ | exact Eb].
    intros c H. unfold mem_char in H. cbn [existsb] in H.
    repeat (apply orb_true_iff in H as [H | H]); try discriminate;
      apply N.eqb_eq in H; subst c; reflexivity. }
  unfold strip_chars. rewrite E.
  apply json_loads_padded; trivial. now split.
Qed.

Lemma fenced_json_is_parsed_witness :
  json_loads
    (cleaned (newline ++ (backtick :: backtick :: backtick :: u "JSON")
              ++ monday_text ++ [backtick; backtick; backtick] ++ newline))
  = Ok (PDict [(u "monday", PList [PInt 1; PFloat (u "2.5"); PNone])]).
Proof.
  apply (@fenced_json_is_parsed monday_text
           (PDict [(u "monday", PList [PInt 1; PFloat (u "2.5"); PNone])])
           newline (backtick :: backtick :: backtick :: u "JSON") newline).
  - reflexivity.
  - repeat constructor.
  - reflexivity.
  - reflexivity.
Defined.

Lemma forallb_factor {A} (p : A -> bool) (a s b : list A) :
  forallb p (a ++ s ++ b) = true -> forallb p s = true.
Proof.
  rewrite !forallb_app. intros H.
  apply andb_true_iff in H as [_ H]. now apply andb_true_iff in H as [H _].
Qed.

Lemma strip_by_all (p : char -> bool) (s : str) :
  forallb p s = true -> strip_by p s = [].
Proof.
  intros H. unfold strip_by, lstrip_by, rstrip_by.
  now rewrite (dropwhile_all _ _ H).
Qed.

Lemma cleaned_marks_only (raw : str) :
  forallb is_fence_mark raw = true -> cleaned raw = [].
Proof.
  intros H. rewrite cleaned_unfold.
  apply strip_by_all. fold is_fence_mark.
  destruct (strip_by_factor py_isspace raw) as (a & b & E & _).
  fold (py_strip raw) in E.
  destruct (drop_leading_fence_suffix (py_strip raw)) as (f & Ef).
  destruct (drop_trailing_fence_prefix (drop_leading_fence (py_strip raw)))
    as (t & Et & _).
  rewrite E in H. apply forallb_factor in H.
  rewrite Ef, forallb_app in H. apply andb_true_iff in H as [_ H].
  rewrite Et, forallb_app in H. now apply andb_true_iff in H as [H _].
Qed.

(** X14.  A model answer with nothing in it but backticks, newlines and
    spaces (the empty answer, an empty fence) is cleaned to the empty text,
    on which [json.loads] raises; both JSON handlers answer 400 with
    [Expecting value: line 1 column 1 (char 0)]. *)
Theorem empty_answer_is_400 (w : world) (fields : dict pyval)
    (days : pyval) (raw : str) :
  forallb is_fence_mark raw = true ->
  calculate_days_to_expiry (today w)
    (get_default fields (u "expiry_dates") (PDict [])) = Ok days ->
  cleaned raw = []
  /\ (chain_invoke w ChainMeal (meal_input fields days) = Ok raw ->
      snd (generate_meal_plan w (PDict fields)) = Ok no_value_response)
  /\ (chain_invoke w ChainRecipe (recipe_input fields days) = Ok raw ->
      snd (generate_recipe w (PDict fields)) = Ok no_value_response).
Proof.
  intros H D. pose proof (cleaned_marks_only raw H) as C.
  split; [exact C | ].
  split; intros A.
  - rewrite generate_meal_plan_dict, D. cbn [snd]. rewrite A.
    unfold normalized_response. rewrite C. reflexivity.
  - rewrite generate_recipe_dict, D. cbn [snd]. rewrite A.
    unfold normalized_response. rewrite C. reflexivity.
Qed.

Lemma empty_answer_is_400_witness :
  snd (generate_meal_plan
         (answering [] (Ok [backtick; backtick; backtick; 10%N;
                            backtick; backtick; backtick]))
         (PDict []))
  = Ok no_value_response.
Proof.
  destruct (@empty_answer_is_400
              (answering [] (Ok [backtick; backtick; backtick; 10%N;
                                 backtick; backtick; backtick]))
              [] (PDict [])
              [backtick; backtick; backtick; 10%N;
               backtick; backtick; backtick] eq_refl eq_refl) as (_ & H & _).
  apply H. reflexivity.
Defined.

(** ** The list that the items prompt asks for *)

Lemma item_char_facts (c : char) :
  is_item_char c = true ->
  (32 <= c <= 126)%N /\ c <> 39%N /\ c <> 92%N.
Proof.
  unfold is_item_char. intros H.
  apply andb_true_iff in H as [H H4]. apply andb_true_iff in H as [H H3].
  apply andb_true_iff in H as [H1 H2].
  apply N.leb_le in H1, H2. apply negb_true_iff, N.eqb_neq in H3, H4. auto.
Qed.

Lemma py_repr_item (name : str) :
  is_item_name name -> py_repr name = 39%N :: name ++ [39%N].
Proof.
  intros H. unfold py_repr.
  assert (Q : existsb (N.eqb 39) name = false).
  { induction name as [ | c r IH]; [reflexivity | ].
    unfold is_item_name in H. cbn [forallb] in H.
    apply andb_true_iff in H as [Hc Hr].
    apply item_char_facts in Hc as (_ & N39 & _).
    cbn [existsb]. rewrite (IH Hr), orb_false_r. apply N.eqb_neq. congruence. }
  rewrite Q. cbn [andb]. f_equal. f_equal.
  induction name as [ | c r IH]; [reflexivity | ].
  unfold is_item_name in H. cbn [forallb] in H.
  apply andb_true_iff in H as [Hc Hr]. cbn [existsb] in Q.
  apply orb_false_iff in Q as [_ Q].
  cbn [flat_map]. rewrite (IH Hr Q).
  apply item_char_facts in Hc as (B & N39 & N92).
  unfold repr_char.
  replace (c =? 39)%N with false by (symmetry; now apply N.eqb_neq).
  replace (c =? 92)%N with false by (symmetry; now apply N.eqb_neq).
  replace (c =? 9)%N with false by (symmetry; apply N.eqb_neq; lia).
  replace (c =? 10)%N with false by (symmetry; apply N.eqb_neq; lia).
  replace (c =? 13)%N with false by (symmetry; apply N.eqb_neq; lia).
  replace (c <? 32)%N with false by (symmetry; apply N.ltb_ge; lia).
  replace (c =? 127)%N with false by (symmetry; apply N.eqb_neq; lia).
  reflexivity.
Qed.

Lemma lit_string_body_item (name rest : str) :
  is_item_name name ->
  lit_string_body 39%N (name ++ 39%N :: rest) = Some (name, rest).
Proof.
  intros H. induction name as [ | c r IH]; [reflexivity | ].
  unfold is_item_name in H. cbn [forallb] in H.
  apply andb_true_iff in H as [Hc Hr].
  apply item_char_facts in Hc as (B & N39 & N92).
  cbn [app lit_string_body].
  replace (c =? 39)%N with false by (symmetry; now apply N.eqb_neq).
  assert (P : is_plain_char c = true).
  { unfold is_plain_char.
    replace (32 <=? c)%N with true by (symmetry; apply N.leb_le; lia).
    replace (c <=? 126)%N with true by (symmetry; apply N.leb_le; lia).
    replace (c =? 92)%N with false by (symmetry; now apply N.eqb_neq).
    replace (c =? 8232)%N with false by (symmetry; apply N.eqb_neq; lia).
    replace (c =? 8233)%N with false by (symmetry; apply N.eqb_neq; lia).
    reflexivity. }
  now rewrite P, (IH Hr).
Qed.

Lemma lit_string_item (name rest : str) :
  is_item_name name -> at_delimiter rest = true ->
  lit_string 39%N (name ++ 39%N :: rest) = Some (PStr name, rest).
Proof.
  intros H D. unfold lit_string. rewrite (lit_string_body_item rest H).
  destruct name as [ | c r]; [ | now rewrite D].
  destruct rest as [ | c r]; [reflexivity | ].
  cbn [at_delimiter] in D. rewrite D.
  destruct (c =? 39)%N eqn:E; [ | reflexivity].
  apply N.eqb_eq in E. subst c. discriminate.
Qed.

Lemma lit_expr_item (f d : nat) (name rest : str) :
  is_item_name name -> at_delimiter rest = true ->
  lit_expr (S f) (S d) (py_repr name ++ rest) = Some (PStr name, rest).
Proof.
  intros H D. rewrite (py_repr_item H). cbn [app lit_expr].
  change (39 =? 91)%N with false. change (39 =? 40)%N with false.
  change (39 =? 123)%N with false. change (39 =? 39)%N with true.
  cbn [orb]. rewrite <- app_assoc. cbn [app]. now apply lit_string_item.
Qed.

Lemma lit_items_step (f d : nat) (close c : char) (r s : str)
    (acc : list pyval) (comma : bool) :
  s = c :: r -> (c =? close)%N = false ->
  lit_items (S f) d close s acc comma
  = match lit_expr f d s with
    | Some (v, r1) =>
        match skip_blank r1 with
        | c1 :: r2 =>
            if (c1 =? close)%N then Some (acc ++ [v], comma, r2)
            else if (c1 =? 44)%N then
              lit_items f d close (skip_blank r2) (acc ++ [v]) true
            else None
        | [] => None
        end
    | None => None
    end.
Proof. intros -> H. cbn [lit_items]. now rewrite H. Qed.

Lemma join_reprs_head (names : list str) (x : str) :
  Forall is_item_name names -> names <> [] ->
  exists q, join (u ", ") (map py_repr names) ++ x = 39%N :: q.
Proof.
  intros F N. destruct names as [ | name names]; [congruence | ].
  inversion F as [ | ? ? Hn F' E]; subst.
  cbn [map]. destruct (map py_repr names); cbn [join];
    rewrite (py_repr_item Hn); cbn [app]; eauto.
Qed.

Lemma lit_items_names (names : list str) :
  Forall is_item_name names -> names <> [] ->
  forall fuel d acc comma rest,
    (length names < fuel)%nat ->
    exists comma',
      lit_items fuel (S d) 93%N (join (u ", ") (map py_repr names)
                                 ++ 93%N :: rest) acc comma
      = Some (acc ++ map PStr names, comma', rest).
Proof.
  induction 1 as [ | name names Hn F IH]; [congruence | ].
  intros _ fuel d acc comma rest Hf.
  destruct fuel as [ | [ | f]]; cbn [length] in Hf; try lia.
  destruct (@join_reprs_head (name :: names) (93%N :: rest))
    as (q & Q); [now constructor | discriminate | ].
  rewrite (@lit_items_step (S f) (S d) 93%N 39%N q _ acc comma Q eq_refl).
  destruct names as [ | name' names'].
  - (* the last element *)
    cbn [map join]. exists comma.
    rewrite lit_expr_item by (trivial; reflexivity).
    reflexivity.
  - remember (name' :: names') as tl eqn:Etl.
    assert (J : join (u ", ") (map py_repr (name :: tl))
                = py_repr name ++ u ", " ++ join (u ", ") (map py_repr tl)).
    { rewrite Etl. reflexivity. }
    assert (Ntl : tl <> []) by (rewrite Etl; discriminate).
    rewrite J, <- !app_assoc.
    rewrite lit_expr_item by (trivial; reflexivity).
    destruct (IH Ntl (S f) d (acc ++ [PStr name]) true rest ltac:(lia))
      as (cm & E).
    exists cm.
    destruct (@join_reprs_head tl (93%N :: rest) F Ntl) as (q' & Q').
    assert (Sk : skip_blank (u ", " ++ join (u ", ") (map py_repr tl)
                             ++ 93%N :: rest)
                 = 44%N :: 32%N :: join (u ", ") (map py_repr tl)
                   ++ 93%N :: rest) by reflexivity.
    rewrite Sk. cbn iota.
    change (44 =? 93)%N with false. change (44 =? 44)%N with true. cbn iota.
    assert (Sk' : skip_blank (32%N :: join (u ", ") (map py_repr tl)
                              ++ 93%N :: rest)
                  = join (u ", ") (map py_repr tl) ++ 93%N :: rest).
    { rewrite Q'. reflexivity. }
    rewrite Sk', E, <- app_assoc. reflexivity.
Qed.

Lemma join_reprs_length (names : list str) :
  (length names <= length (join (u ", ") (map py_repr names)))%nat.
Proof.
  induction names as [ | name names IH]; [apply Nat.le_refl | ].
  assert (L : (1 <= length (py_repr name))%nat).
  { unfold py_repr. cbn [length]. lia. }
  cbn [map]. destruct (map py_repr names) eqn:E.
  - destruct names; [ | discriminate]. cbn [join length]. lia.
  - rewrite <- E in *. cbn [length] in *.
    assert (J : join (u ", ") (py_repr name :: map py_repr names)
                = py_repr name ++ u ", " ++ join (u ", ") (map py_repr names)).
    { rewrite E. reflexivity. }
    rewrite J, !length_app. lia.
Qed.

Lemma lstrip_item_list (names : list str) (tail : str) :
  lstrip_chars [32%N; 9%N] (repr_list names ++ tail) = repr_list names ++ tail.
Proof. reflexivity. Qed.

Lemma repr_list_source (names : list str) :
  Forall is_item_name names -> forallb is_source_char (repr_list names) = true.
Proof.
  intros F. unfold repr_list.
  assert (S39 : forall name, is_item_name name ->
                  forallb is_source_char (py_repr name) = true).
  { intros name H. rewrite (py_repr_item H).
    cbn [forallb]. rewrite forallb_app. cbn [forallb].
    change (is_source_char 39%N) with true. rewrite andb_true_r. cbn [andb].
    apply (forallb_impl is_item_char); [ | exact H].
    intros c Hc. apply item_char_facts in Hc as (B & _ & _).
    unfold is_source_char.
    replace (c =? 0)%N with false by (symmetry; apply N.eqb_neq; lia).
    replace (c <? 55296)%N with true by (symmetry; apply N.ltb_lt; lia).
    reflexivity. }
  rewrite !forallb_app. apply andb_true_iff. split; [reflexivity | ].
  apply andb_true_iff. split; [ | reflexivity].
  induction F as [ | name names Hn F IH]; [reflexivity | ].
  cbn [map]. destruct (map py_repr names) eqn:E.
  - cbn [join]. now apply S39.
  - rewrite <- E in *.
    assert (J : join (u ", ") (py_repr name :: map py_repr names)
                = py_repr name ++ u ", " ++ join (u ", ") (map py_repr names)).
    { rewrite E. reflexivity. }
    rewrite J, !forallb_app, (S39 name Hn), IH. reflexivity.
Qed.

Lemma lit_expr_repr_list (names : list str) (tail : str) :
  Forall is_item_name names ->
  lit_expr (json_fuel (repr_list names ++ tail)) max_depth
    (repr_list names ++ tail)
  = Some (PList (map PStr names), tail).
Proof.
  intros F.
  remember (json_fuel (repr_list names ++ tail)) as fuel eqn:Ef.
  assert (Hf : (length names + 2 <= fuel)%nat).
  { rewrite Ef. unfold json_fuel, repr_list. rewrite !length_app.
    pose proof (join_reprs_length names). lia. }
  destruct fuel as [ | fuel]; [lia | ].
  unfold max_depth, repr_list. rewrite <- !app_assoc.
  change (u "[" ++ ?x) with (91%N :: x).
  cbn [lit_expr]. change (91 =? 91)%N with true. cbn iota.
  destruct names as [ | name names'].
  - destruct fuel as [ | fuel]; [cbn [length] in Hf; lia | ].
    reflexivity.
  - remember (name :: names') as l eqn:El.
    assert (Nl : l <> []) by (rewrite El; discriminate).
    destruct (@join_reprs_head l (u "]" ++ tail) F Nl) as (q & Q).
    assert (Sk : skip_blank (join (u ", ") (map py_repr l) ++ u "]" ++ tail)
                 = join (u ", ") (map py_repr l) ++ 93%N :: tail).
    { transitivity (39%N :: q); [rewrite Q; reflexivity | ].
      symmetry. exact Q. }
    rewrite Sk.
    destruct (@lit_items_names l F Nl fuel 48%nat [] false tail
                ltac:(lia)) as (cm & E).
    now rewrite E.
Qed.

(** [literal_eval] reads the [repr] of a list of item names back as the
    list. *)
Lemma literal_eval_repr_list (names : list str) (tail : str) :
  Forall is_item_name names -> forallb is_blank tail = true ->
  literal_eval (repr_list names ++ tail) = Ok (PList (map PStr names)).
Proof.
  intros F T. unfold literal_eval. rewrite lstrip_item_list.
  assert (Src : forallb is_source_char (repr_list names ++ tail) = true).
  { rewrite forallb_app, (repr_list_source F). cbn [andb].
    apply (forallb_impl is_blank); [ | exact T].
    intros c H. unfold is_blank in H.
    repeat (apply orb_true_iff in H as [H | H]);
      apply N.eqb_eq in H; subst c; reflexivity. }
  rewrite Src, (@lit_expr_repr_list names tail F), T. reflexivity.
Qed.

(** X15.  When the model answers as the prompt asks, with a Python list of
    item names as [repr] writes it ([['Milk', 'Brown Eggs']]; names of
    printable ASCII characters without quote or backslash), followed by
    blank lines if any, [/extract-items] answers 200 with these names, in
    their order, under [grocery_items]; the empty list included. *)
Theorem extract_items_reads_the_list (w : world)
    (files : list (str * upload)) (f : upload) (img : image)
    (text tail : str) (names : list str) :
  dict_get files (u "image") = Some f ->
  Image_open w f = Ok img ->
  image_to_string w img = Ok text ->
  Forall is_item_name names ->
  blank_lines tail ->
  chain_invoke w ChainItems (items_input text)
  = Ok (repr_list names ++ tail) ->
  snd (extract_items w files)
  = Ok (Response 200
          (PDict [(u "grocery_items", PList (map PStr names))]) []).
Proof.
  intros H O T F [B _] C.
  rewrite (extract_items_image w files H), O, T, C. cbn [snd].
  unfold items_response. rewrite (@literal_eval_repr_list names tail F B).
  assert (S : serializable (PList (map PStr names)) = true).
  { cbn [serializable]. clear. induction names; [reflexivity | exact IHnames]. }
  rewrite (to_json_serializable _ S). cbn [as_json].
  rewrite map_map. cbn [as_json]. reflexivity.
Qed.

Lemma extract_items_reads_the_list_witness :
  snd (extract_items
         (answering (u "MILK 2.99 EGGS 1.50")
            (Ok (u "['Milk', 'Brown Eggs']" ++ newline)))
         [(u "image", u "bytes")])
  = Ok (Response 200
          (PDict [(u "grocery_items",
                   PList [PStr (u "Milk"); PStr (u "Brown Eggs")])]) []).
Proof.
  apply (@extract_items_reads_the_list
           (answering (u "MILK 2.99 EGGS 1.50")
              (Ok (u "['Milk', 'Brown Eggs']" ++ newline)))
           [(u "image", u "bytes")] (u "bytes") (Image (u "bytes"))
           (u "MILK 2.99 EGGS 1.50") newline [u "Milk"; u "Brown Eggs"]);
    try reflexivity.
  - repeat constructor.
  - split; [reflexivity | ]. intros _. now exists [].
Defined.
